(** * Automatic Beer Goggles: the job orchestration engine

    A shallow embedding of [automatic_beer_goggles/orchestration/workflow.py],
    of the platform registry in [config/platforms.py], of
    [video/generation.py], [audio/mastering.py], [utils/file_utils.py] and of
    the [batch-process] command of [cli.py], together with the properties of
    the orchestrator that the specification states and further properties
    of the code.

    Conventions of the embedding.
    - Python [str] values are [string]s holding the UTF-8 encoding of the
      text; every character the program itself produces or compares against
      is ASCII.
    - [pathlib.Path] values are kept in pathlib's own normal form (a root and
      the list of components), POSIX flavour.
    - [status] is one of the four strings the program assigns, as an
      enumeration.
    - [ProcessingJob] objects live in a heap and the orchestrator's job list
      holds references, because the program mutates the objects in place and
      looks them up again with [list.index].
    - The external tools (file system, audio mastering, video rendering) are
      operations of an abstract world; every call is also appended to a
      trace, which is what the statements about "invoking a stage" read. *)

From Stdlib Require Import String Ascii List ZArith QArith_base Lia Bool DecimalString.
From stdpp Require Import base decidable option list strings.

Import ListNotations.
Local Open Scope list_scope.

(** ** Python strings *)

Module Py.

(** [c.lower()] on one ASCII character. *)
Definition lower_ascii (c : ascii) : ascii :=
  let n := nat_of_ascii c in
  if (65 <=? n)%nat && (n <=? 90)%nat then ascii_of_nat (n + 32) else c.

(** U+212A KELVIN SIGN in UTF-8 (the bytes E2 84 AA). [str.lower] follows
    the Unicode character database, and this is the one character outside
    ASCII whose lower-case form is an ASCII letter, the letter k. *)
Definition kelvin_sign : string :=
  String (ascii_of_nat 226) (String (ascii_of_nat 132) (String (ascii_of_nat 170)
    EmptyString)).

Definition is_kelvin_sign (c1 c2 c3 : ascii) : bool :=
  Ascii.eqb c1 (ascii_of_nat 226) && Ascii.eqb c2 (ascii_of_nat 132)
  && Ascii.eqb c3 (ascii_of_nat 170).

(** [s.lower()] on the UTF-8 encoding of a text. It is Python's function
    on every text made of ASCII characters and Kelvin signs. Any other
    character is kept as it is, where Python may change it; the lower-case
    form of such a character has again a character outside ASCII. The
    program lower-cases platform identifiers and file suffixes only to
    compare them with ASCII literals (the keys of the platform table, the
    file extensions), stores an identifier in lower case only after it was
    found among the keys, and otherwise lower-cases only the names in the
    platform table, which are ASCII. For these uses the two functions
    agree: a text with a character outside ASCII other than the Kelvin sign
    is no ASCII literal before or after lower-casing. *)
Fixpoint lower (s : string) : string :=
  match s with
  | EmptyString => EmptyString
  | String c1 s1 =>
      match s1 with
      | String c2 (String c3 s3) =>
          if is_kelvin_sign c1 c2 c3 then String "k" (lower s3)
          else String (lower_ascii c1) (lower s1)
      | _ => String (lower_ascii c1) (lower s1)
      end
  end.

(** [s.replace(a, b)] for one-character [a] and [b]. *)
Fixpoint replace (a b : ascii) (s : string) : string :=
  match s with
  | EmptyString => EmptyString
  | String c s' => String (if Ascii.eqb c a then b else c) (replace a b s')
  end.

(** [s.split(sep)] for a one-character separator. *)
Fixpoint split (sep : ascii) (s : string) : list string :=
  match s with
  | EmptyString => [EmptyString]
  | String c s' =>
      if Ascii.eqb c sep then EmptyString :: split sep s'
      else match split sep s' with
           | x :: xs => String c x :: xs
           | [] => [String c EmptyString]
           end
  end.

(** [sep.join(l)] *)
Fixpoint join (sep : string) (l : list string) : string :=
  match l with
  | [] => EmptyString
  | [x] => x
  | x :: xs => x +:+ sep +:+ join sep xs
  end.

(** [str(n)] for a non-negative integer. *)
Definition str_of_nat (n : nat) : string :=
  NilZero.string_of_uint (Nat.to_uint n).

(** [s.rfind(c)]: the index of the last occurrence of [c], if any. *)
Fixpoint rfind (c : ascii) (s : string) : option nat :=
  match s with
  | EmptyString => None
  | String d s' =>
      match rfind c s' with
      | Some i => Some (S i)
      | None => if Ascii.eqb d c then Some 0 else None
      end
  end.

(** [s[:i]] *)
Definition prefix (i : nat) (s : string) : string := String.substring 0 i s.

End Py.

(** ** pathlib *)

(** A [PurePosixPath] in normal form: [root] is empty, ["/"] or ["//"], and
    [parts] are the components below it, none of them empty or ["."]. Two
    paths are equal in Python exactly when these two fields are. *)
Record Path : Type := mkPath { root : string; parts : list string }.

#[global] Instance Path_eq_dec : EqDecision Path.
Proof. solve_decision. Defined.

Module Pathlib.

Fixpoint leading_slashes (s : string) : nat :=
  match s with
  | String c s' => if Ascii.eqb c "/" then S (leading_slashes s') else 0
  | EmptyString => 0
  end.

(** The root pathlib assigns: exactly two leading slashes are kept, any
    other positive number collapses to one. *)
Definition parse_root (s : string) : string :=
  match leading_slashes s with
  | 0 => EmptyString
  | 2 => "//"
  | _ => "/"
  end.

Definition is_component (x : string) : bool :=
  negb (String.eqb x EmptyString) && negb (String.eqb x ".").

Definition parse_parts (s : string) : list string :=
  List.filter is_component (Py.split "/" s).

(** [Path(s)] *)
Definition of_string (s : string) : Path :=
  {| root := parse_root s; parts := parse_parts s |}.

(** [str(p)] *)
Definition to_string (p : Path) : string :=
  match root p, parts p with
  | EmptyString, [] => "."
  | r, ps => r +:+ Py.join "/" ps
  end.

(** [p / s] for a string [s]: an absolute right operand replaces [p]. *)
Definition joinpath (p : Path) (s : string) : Path :=
  let q := of_string s in
  if String.eqb (root q) EmptyString then {| root := root p; parts := parts p ++ parts q |}
  else q.

(** [p.name] *)
Definition name (p : Path) : string := List.last (parts p) EmptyString.

(** [p.stem]: the name without its last suffix; a leading dot or a
    trailing dot does not start a suffix (CPython up to 3.13). *)
Definition stem (p : Path) : string :=
  let n := name p in
  match Py.rfind "." n with
  | Some i => if (0 <? i)%nat && (i <? String.length n - 1)%nat then Py.prefix i n else n
  | None => n
  end.

(** [p.parent] *)
Definition parent (p : Path) : Path :=
  {| root := root p; parts := List.removelast (parts p) |}.

End Pathlib.

Notation "p // s" := (Pathlib.joinpath p s) (at level 40, left associativity).

(** ** config/platforms.py *)

(** [AspectRatio]: [TWITTER_LANDSCAPE] has the value of [LANDSCAPE], which
    makes it an alias of that member in a Python [Enum]. *)
Inductive AspectRatio : Type := SQUARE | LANDSCAPE | PORTRAIT.

Definition TWITTER_LANDSCAPE : AspectRatio := LANDSCAPE.

Definition aspect_ratio_value (a : AspectRatio) : string :=
  match a with
  | SQUARE => "1:1"
  | LANDSCAPE => "16:9"
  | PORTRAIT => "9:16"
  end.

Inductive VideoCodec : Type := H264 | H265.
Inductive AudioCodec : Type := AAC | AAC_LC.

Record Resolution : Type := mkResolution { width : Z; height : Z }.

Record PlatformConfig : Type := mkPlatformConfig {
  name : string;
  supported_formats : list string;
  aspect_ratios : list AspectRatio;
  max_duration_seconds : Z;
  max_file_size_mb : Z;
  video_codec : VideoCodec;
  audio_codec : AudioCodec;
  recommended_resolutions : list (AspectRatio * Resolution);
  max_bitrate_kbps : option Z;
  audio_bitrate_kbps : Z;
  notes : option string
}.

#[global] Instance AspectRatio_eq_dec : EqDecision AspectRatio.
Proof. solve_decision. Defined.
#[global] Instance VideoCodec_eq_dec : EqDecision VideoCodec.
Proof. solve_decision. Defined.
#[global] Instance AudioCodec_eq_dec : EqDecision AudioCodec.
Proof. solve_decision. Defined.
#[global] Instance Resolution_eq_dec : EqDecision Resolution.
Proof. solve_decision. Defined.
#[global] Instance PlatformConfig_eq_dec : EqDecision PlatformConfig.
Proof. solve_decision. Defined.

Definition facebook_config : PlatformConfig :=
  {| name := "Facebook";
     supported_formats := ["mp4"; "mov"];
     aspect_ratios := [LANDSCAPE; PORTRAIT];
     max_duration_seconds := 14400;
     max_file_size_mb := 4096;
     video_codec := H264;
     audio_codec := AAC_LC;
     recommended_resolutions :=
       [(LANDSCAPE, mkResolution 1920 1080); (PORTRAIT, mkResolution 1080 1920)];
     max_bitrate_kbps := None;
     audio_bitrate_kbps := 128;
     notes := Some "Stories limited to 2 minutes" |}.

Definition instagram_config : PlatformConfig :=
  {| name := "Instagram";
     supported_formats := ["mp4"];
     aspect_ratios := [SQUARE; PORTRAIT];
     max_duration_seconds := 600;
     max_file_size_mb := 4096;
     video_codec := H264;
     audio_codec := AAC;
     recommended_resolutions :=
       [(SQUARE, mkResolution 1080 1080); (PORTRAIT, mkResolution 1080 1920)];
     max_bitrate_kbps := None;
     audio_bitrate_kbps := 128;
     notes := Some "Stories/Reels 15-90 seconds recommended" |}.

Definition youtube_config : PlatformConfig :=
  {| name := "YouTube";
     supported_formats := ["mp4"; "mov"; "avi"; "webm"];
     aspect_ratios := [LANDSCAPE; PORTRAIT];
     max_duration_seconds := 900;
     max_file_size_mb := 131072;
     video_codec := H264;
     audio_codec := AAC;
     recommended_resolutions :=
       [(LANDSCAPE, mkResolution 1920 1080); (PORTRAIT, mkResolution 1080 1920)];
     max_bitrate_kbps := None;
     audio_bitrate_kbps := 128;
     notes := Some "Shorts limited to 60 seconds, render at 1080p minimum" |}.

Definition tiktok_config : PlatformConfig :=
  {| name := "TikTok";
     supported_formats := ["mp4"; "mov"];
     aspect_ratios := [PORTRAIT];
     max_duration_seconds := 180;
     max_file_size_mb := 288;
     video_codec := H264;
     audio_codec := AAC_LC;
     recommended_resolutions := [(PORTRAIT, mkResolution 1080 1920)];
     max_bitrate_kbps := None;
     audio_bitrate_kbps := 128;
     notes := Some "Forced vertical videos, keep file size small" |}.

Definition twitter_config : PlatformConfig :=
  {| name := "Twitter";
     supported_formats := ["mp4"; "mov"];
     aspect_ratios := [SQUARE; LANDSCAPE];
     max_duration_seconds := 140;
     max_file_size_mb := 512;
     video_codec := H264;
     audio_codec := AAC;
     recommended_resolutions :=
       [(SQUARE, mkResolution 1080 1080); (LANDSCAPE, mkResolution 1280 720)];
     max_bitrate_kbps := None;
     audio_bitrate_kbps := 128;
     notes := Some "Optimized square videos, shorter lengths recommended" |}.

Definition linkedin_config : PlatformConfig :=
  {| name := "LinkedIn";
     supported_formats := ["mp4"];
     aspect_ratios := [LANDSCAPE; SQUARE; PORTRAIT];
     max_duration_seconds := 180;
     max_file_size_mb := 5120;
     video_codec := H264;
     audio_codec := AAC;
     recommended_resolutions :=
       [(LANDSCAPE, mkResolution 1920 1080); (SQUARE, mkResolution 1080 1080);
        (PORTRAIT, mkResolution 1080 1920)];
     max_bitrate_kbps := None;
     audio_bitrate_kbps := 128;
     notes := Some "16:9 default, supports all ratios, high-quality audio" |}.

(** [PLATFORM_CONFIGS], in the order the dictionary literal lists its keys. *)
Definition PLATFORM_CONFIGS : list (string * PlatformConfig) :=
  [ ("facebook", facebook_config);
    ("instagram", instagram_config);
    ("youtube", youtube_config);
    ("tiktok", tiktok_config);
    ("twitter", twitter_config);
    ("linkedin", linkedin_config) ].

(** Lookup in a dictionary kept as an association list. *)
Fixpoint dict_get {V : Type} (k : string) (d : list (string * V)) : option V :=
  match d with
  | [] => None
  | (k', v) :: d' => if String.eqb k k' then Some v else dict_get k d'
  end.

(** [d[k] = v]: an existing key keeps its place, a new key goes last. *)
Fixpoint dict_set {V : Type} (k : string) (v : V) (d : list (string * V))
  : list (string * V) :=
  match d with
  | [] => [(k, v)]
  | (k', v') :: d' =>
      if String.eqb k k' then (k, v) :: d' else (k', v') :: dict_set k v d'
  end.

(** [list_supported_platforms()] *)
Definition list_supported_platforms : list string := map fst PLATFORM_CONFIGS.

(** Exceptions, by class and message; [exc_str] is [str(e)]. *)
Inductive Exception : Type :=
| FileNotFoundError (msg : string)
| ValueError (msg : string)
| OtherError (msg : string).

Definition exc_str (e : Exception) : string :=
  match e with
  | FileNotFoundError m | ValueError m | OtherError m => m
  end.

(** What a call produces: a value, or an exception that propagates. *)
Inductive Outcome (A : Type) : Type :=
| Returned (a : A)
| Raised (e : Exception).
Arguments Returned {A} a.
Arguments Raised {A} e.

(** [get_platform_config(platform)] *)
Definition get_platform_config (platform : string) : Outcome PlatformConfig :=
  match dict_get (Py.lower platform) PLATFORM_CONFIGS with
  | Some c => Returned c
  | None => Raised (ValueError ("Unsupported platform: " +:+ platform))
  end.

(** ** Jobs and configuration (orchestration/workflow.py) *)

(** The four values the program ever stores in [ProcessingJob.status]. *)
Inductive Status : Type := Pending | Processing | Completed | Failed.

#[global] Instance Status_eq_dec : EqDecision Status.
Proof. solve_decision. Defined.

Definition status_value (s : Status) : string :=
  match s with
  | Pending => "pending"
  | Processing => "processing"
  | Completed => "completed"
  | Failed => "failed"
  end.

(** [ProcessingJob]; [output_files] is a dictionary in insertion order. *)
Record ProcessingJob : Type := mkJob {
  job_id : string;
  audio_file : Path;
  image_file : Path;
  platforms : list string;
  status : Status;
  output_files : list (string * option string);
  error_message : option string
}.

Definition set_status (st : Status) (j : ProcessingJob) : ProcessingJob :=
  mkJob (job_id j) (audio_file j) (image_file j) (platforms j) st
        (output_files j) (error_message j).

Definition set_error_message (m : option string) (j : ProcessingJob) : ProcessingJob :=
  mkJob (job_id j) (audio_file j) (image_file j) (platforms j) (status j)
        (output_files j) m.

Definition set_output_files (o : list (string * option string)) (j : ProcessingJob)
  : ProcessingJob :=
  mkJob (job_id j) (audio_file j) (image_file j) (platforms j) (status j)
        o (error_message j).

(** [job.status = "failed"; job.error_message = m] *)
Definition fail_with (m : string) (j : ProcessingJob) : ProcessingJob :=
  set_error_message (Some m) (set_status Failed j).

Module Audio.
(** [AudioMasteringConfig]. The orchestrator only passes [target_lufs] on;
    the float is kept as the rational number it stands for. *)
Record AudioMasteringConfig : Type := mkConfig {
  ozone_path : option string;
  preset_name : string;
  output_format : string;
  bit_depth : Z;
  sample_rate : Z;
  normalize_loudness : bool;
  target_lufs : Q
}.

Definition default : AudioMasteringConfig :=
  {| ozone_path := None;
     preset_name := "Master Assistant";
     output_format := "wav";
     bit_depth := 24;
     sample_rate := 44100;
     normalize_loudness := true;
     target_lufs := (-14 # 1)%Q |}.
End Audio.

Module Video.
(** [VideoGenerationConfig] *)
Record VideoGenerationConfig : Type := mkConfig {
  output_format : string;
  video_bitrate : option string;
  audio_bitrate : string;
  fps : Z;
  use_gpu_acceleration : bool;
  temp_dir : option string
}.

Definition default : VideoGenerationConfig :=
  {| output_format := "mp4";
     video_bitrate := None;
     audio_bitrate := "128k";
     fps := 30;
     use_gpu_acceleration := true;
     temp_dir := None |}.
End Video.

(** [WorkflowConfig] *)
Record WorkflowConfig : Type := mkWorkflowConfig {
  max_concurrent_jobs : Z;
  audio_mastering : Audio.AudioMasteringConfig;
  video_generation : Video.VideoGenerationConfig;
  output_base_dir : string;
  log_file : option string;
  resume_on_failure : bool
}.

(** [WorkflowConfig()]: every field at its declared default. *)
Definition default_config : WorkflowConfig :=
  {| max_concurrent_jobs := 4;
     audio_mastering := Audio.default;
     video_generation := Video.default;
     output_base_dir := "./output";
     log_file := None;
     resume_on_failure := true |}.

(** The directories [WorkflowOrchestrator.__init__] derives from the
    configuration. *)
Definition output_dir (cfg : WorkflowConfig) : Path :=
  Pathlib.of_string (output_base_dir cfg).
Definition mastered_audio_dir (cfg : WorkflowConfig) : Path :=
  output_dir cfg // "mastered_audio".
Definition videos_dir (cfg : WorkflowConfig) : Path :=
  output_dir cfg // "videos".

(** ** JSON values, as [json.dump] receives them *)

#[local] Unset Elimination Schemes.
Inductive Json : Type :=
| JNull
| JBool (b : bool)
| JInt (n : Z)
| JFloat (x : Q)
| JStr (s : string)
| JArr (items : list Json)
| JObj (members : list (string * Json)).
#[local] Set Elimination Schemes.

(** ** The world outside the orchestrator *)

(** References to [ProcessingJob] objects. *)
Abbreviation loc := nat.

(** The operations the orchestrator performs on its environment. [World] is
    everything they can read or change (files on disk, the state of the
    external tools). [path_exists] is [Path.exists()]: it gives [False] for
    a path that is not there, and lets the [OSError] of [stat] out for any
    other failure (a name that is too long, a directory that may not be
    searched). [master_audio_file] is [AudioMasterer.master_audio_file]
    and [create_video] is [VideoGenerator.create_video]: each returns a
    boolean or raises. [write_json] is opening the file for writing and
    [json.dump] into it. [repr_list] is the text Python formats a list of
    strings to, and [index_error] the text of the [ValueError] that
    [list.index] raises for a job it does not find. *)
Class Runtime (World : Type) : Type := {
  path_exists : World -> Path -> Outcome bool;
  mkdir : World -> Path -> Outcome unit * World;
  master_audio_file :
    World -> Audio.AudioMasteringConfig -> Path -> Path -> Outcome bool * World;
  create_video :
    World -> Video.VideoGenerationConfig -> Path -> Path -> Path ->
    PlatformConfig -> AspectRatio -> Outcome bool * World;
  write_json : World -> Path -> Json -> Outcome unit * World;
  repr_list : list string -> string;
  index_error : ProcessingJob -> string
}.

(** What can be read back from the world: whether a path is a directory,
    and the document [json.load] gives for a file ([None] when there is no
    such file or it does not hold one document). The three laws say what
    the file system and the [json] module guarantee of a call that
    succeeds: the directory asked for is there afterwards, writing a file
    removes no directory, and a document that was written is the one read
    back. *)
Class Storage (World : Type) `{RT : Runtime World} : Type := {
  is_directory : World -> Path -> bool;
  read_json : World -> Path -> option Json;
  mkdir_makes_directory :
    forall w p w', mkdir w p = (Returned tt, w') -> is_directory w' p = true;
  write_json_keeps_directories :
    forall w p doc r w' d,
      write_json w p doc = (r, w') -> is_directory w d = true -> is_directory w' d = true;
  write_json_read_json :
    forall w p doc w', write_json w p doc = (Returned tt, w') -> read_json w' p = Some doc
}.

(** One entry of the trace: the call, its arguments and what it produced. *)
Inductive Call : Type :=
| CallMkdir (p : Path) (r : Outcome unit)
| CallMaster (input output : Path) (r : Outcome bool)
| CallRender (image audio output : Path) (pc : PlatformConfig) (ar : AspectRatio)
             (r : Outcome bool)
| CallWrite (p : Path) (doc : Json) (r : Outcome unit)
| CallWorker (l : loc).

Section Pipeline.

Context {World : Type} `{RT : Runtime World}.

(** The environment a piece of code runs in: the world and the trace. *)
Record Env : Type := mkEnv { world : World; trace : list Call }.

Definition do_mkdir (e : Env) (p : Path) : Outcome unit * Env :=
  let '(r, w) := mkdir (world e) p in
  (r, mkEnv w (trace e ++ [CallMkdir p r])).

Definition do_master (cfg : WorkflowConfig) (e : Env) (input output : Path)
  : Outcome bool * Env :=
  let '(r, w) := master_audio_file (world e) (audio_mastering cfg) input output in
  (r, mkEnv w (trace e ++ [CallMaster input output r])).

Definition do_render (cfg : WorkflowConfig) (e : Env) (image audio output : Path)
           (pc : PlatformConfig) (ar : AspectRatio) : Outcome bool * Env :=
  let '(r, w) :=
    create_video (world e) (video_generation cfg) image audio output pc ar in
  (r, mkEnv w (trace e ++ [CallRender image audio output pc ar r])).

Definition do_write (e : Env) (p : Path) (doc : Json) : Outcome unit * Env :=
  let '(r, w) := write_json (world e) p doc in
  (r, mkEnv w (trace e ++ [CallWrite p doc r])).

(** *** video/generation.py: [create_multi_platform_videos] *)

(** [platform_config.name.lower().replace(" ", "_")] *)
Definition platform_name (pc : PlatformConfig) : string :=
  Py.replace " " "_" (Py.lower (name pc)).

(** The path one rendition is written to. *)
Definition rendition_path (cfg : WorkflowConfig) (out_dir : Path) (base : string)
           (pc : PlatformConfig) (ar : AspectRatio) : Path :=
  let ratio_suffix := Py.replace ":" "x" (aspect_ratio_value ar) in
  let output_filename :=
    base +:+ "_" +:+ platform_name pc +:+ "_" +:+ ratio_suffix +:+ "."
         +:+ Video.output_format (video_generation cfg) in
  out_dir // platform_name pc // output_filename.

(** [f"{platform_config.name}_{aspect_ratio.value}"] *)
Definition rendition_key (pc : PlatformConfig) (ar : AspectRatio) : string :=
  name pc +:+ "_" +:+ aspect_ratio_value ar.

(** The inner loop, over the aspect ratios of one platform. *)
Fixpoint render_ratios (cfg : WorkflowConfig) (e : Env) (image audio out_dir : Path)
         (base : string) (pc : PlatformConfig) (ratios : list AspectRatio)
         (results : list (string * option Path))
  : Outcome (list (string * option Path)) * Env :=
  match ratios with
  | [] => (Returned results, e)
  | ar :: rest =>
      let output_path := rendition_path cfg out_dir base pc ar in
      let '(r, e1) := do_render cfg e image audio output_path pc ar in
      match r with
      | Raised x => (Raised x, e1)
      | Returned success =>
          render_ratios cfg e1 image audio out_dir base pc rest
            (dict_set (rendition_key pc ar)
                      (if success then Some output_path else None) results)
      end
  end.

(** The outer loop, over the platform configurations. *)
Fixpoint render_platforms (cfg : WorkflowConfig) (e : Env) (image audio out_dir : Path)
         (base : string) (pcs : list PlatformConfig)
         (results : list (string * option Path))
  : Outcome (list (string * option Path)) * Env :=
  match pcs with
  | [] => (Returned results, e)
  | pc :: rest =>
      let '(r, e1) := do_mkdir e (out_dir // platform_name pc) in
      match r with
      | Raised x => (Raised x, e1)
      | Returned _ =>
          let '(r2, e2) :=
            render_ratios cfg e1 image audio out_dir base pc (aspect_ratios pc) results in
          match r2 with
          | Raised x => (Raised x, e2)
          | Returned results' =>
              render_platforms cfg e2 image audio out_dir base rest results'
          end
      end
  end.

Definition create_multi_platform_videos (cfg : WorkflowConfig) (e : Env)
           (image audio out_dir : Path) (pcs : list PlatformConfig) (base : string)
  : Outcome (list (string * option Path)) * Env :=
  render_platforms cfg e image audio out_dir base pcs [].

(** *** [WorkflowOrchestrator._process_single_job] *)

(** [[get_platform_config(platform) for platform in job.platforms]] *)
Fixpoint platform_configs (ps : list string) : Outcome (list PlatformConfig) :=
  match ps with
  | [] => Returned []
  | p :: rest =>
      match get_platform_config p with
      | Raised x => Raised x
      | Returned c =>
          match platform_configs rest with
          | Raised x => Raised x
          | Returned cs => Returned (c :: cs)
          end
      end
  end.

Definition mastered_audio_path (cfg : WorkflowConfig) (job : ProcessingJob) : Path :=
  mastered_audio_dir cfg // (Pathlib.stem (audio_file job) +:+ "_mastered.wav").

Definition video_output_dir (cfg : WorkflowConfig) (job : ProcessingJob) : Path :=
  videos_dir cfg // job_id job.

(** [[k for k, v in video_results.items() if v is None]] *)
Definition failed_videos (results : list (string * option Path)) : list string :=
  map fst (List.filter (fun kv => match snd kv with None => true | Some _ => false end)
                       results).

(** Step 2 and the completion decision. *)
Definition render_stage (cfg : WorkflowConfig) (e : Env) (job : ProcessingJob)
  : Outcome ProcessingJob * Env :=
  match platform_configs (platforms job) with
  | Raised x => (Raised x, e)
  | Returned pcs =>
      let '(r, e1) :=
        create_multi_platform_videos cfg e (image_file job)
          (mastered_audio_path cfg job) (video_output_dir cfg job) pcs (job_id job) in
      match r with
      | Raised x => (Raised x, e1)
      | Returned video_results =>
          let job1 :=
            set_output_files
              (map (fun kv => (fst kv, option_map Pathlib.to_string (snd kv)))
                   video_results) job in
          match failed_videos video_results with
          | [] => (Returned (set_status Completed job1), e1)
          | failed =>
              (Returned (fail_with ("Failed to create videos: " +:+ repr_list failed) job1),
               e1)
          end
      end
  end.

(** The body of the [try], after [job.status = "processing"]. The
    existence of the mastered file is tested first, whatever the
    configuration says about resuming. *)
Definition pipeline (cfg : WorkflowConfig) (e : Env) (job : ProcessingJob)
  : Outcome ProcessingJob * Env :=
  match path_exists (world e) (mastered_audio_path cfg job) with
  | Raised x => (Raised x, e)
  | Returned present =>
      if negb present || negb (resume_on_failure cfg)
      then
        let '(r, e1) := do_master cfg e (audio_file job) (mastered_audio_path cfg job) in
        match r with
        | Raised x => (Raised x, e1)
        | Returned false => (Returned (fail_with "Audio mastering failed" job), e1)
        | Returned true => render_stage cfg e1 job
        end
      else render_stage cfg e job
  end.

(** What a worker does with a job it has already marked as processing:
    the [try] body, and the [except Exception] handler around it. *)
Definition finish_job (cfg : WorkflowConfig) (e : Env) (job : ProcessingJob)
  : ProcessingJob * Env :=
  match pipeline cfg e job with
  | (Returned job', e') => (job', e')
  | (Raised x, e') => (fail_with (exc_str x) job, e')
  end.

Definition _process_single_job (cfg : WorkflowConfig) (e : Env) (job : ProcessingJob)
  : ProcessingJob * Env :=
  finish_job cfg e (set_status Processing job).

End Pipeline.

(** ** The orchestrator *)

(** The state of the [ThreadPoolExecutor] of one [process_all_jobs] call:
    the jobs submitted and not yet started (oldest first), the jobs a worker
    thread is running [_process_single_job] on, and the jobs whose future is
    done and which [as_completed] has not handed to the main thread yet. *)
Record Executor : Type := mkExecutor {
  queue : list loc;
  running : list loc;
  finished : list loc
}.

(** [status_counts], the dictionary [process_all_jobs] returns. *)
Record StatusCounts : Type := mkCounts {
  pending : nat;
  processing : nat;
  completed : nat;
  failed : nat
}.

Definition no_counts : StatusCounts := mkCounts 0 0 0 0.

(** [status_counts[st] += 1] *)
Definition bump (st : Status) (c : StatusCounts) : StatusCounts :=
  match st with
  | Pending => mkCounts (S (pending c)) (processing c) (completed c) (failed c)
  | Processing => mkCounts (pending c) (S (processing c)) (completed c) (failed c)
  | Completed => mkCounts (pending c) (processing c) (S (completed c)) (failed c)
  | Failed => mkCounts (pending c) (processing c) (completed c) (S (failed c))
  end.

(** Equality of two [output_files] dictionaries: Python compares
    dictionaries without regard to insertion order. *)
Definition dict_eqb (a b : list (string * option string)) : bool :=
  Nat.eqb (length a) (length b)
  && forallb (fun kv => match dict_get (fst kv) b with
                        | Some v => bool_decide (v = snd kv)
                        | None => false
                        end) a.

(** The [__eq__] the [dataclass] decorator generates: field by field. *)
Definition job_eqb (a b : ProcessingJob) : bool :=
  bool_decide (job_id a = job_id b)
  && bool_decide (audio_file a = audio_file b)
  && bool_decide (image_file a = image_file b)
  && bool_decide (platforms a = platforms b)
  && bool_decide (status a = status b)
  && dict_eqb (output_files a) (output_files b)
  && bool_decide (error_message a = error_message b).

Section Orchestrator.

Context {World : Type} `{RT : Runtime World}.

(** A [WorkflowOrchestrator]: the [ProcessingJob] objects allocated so far
    (a job's reference is its index in [heap]), [self.jobs], the
    environment, and the executor while [process_all_jobs] is inside its
    [with] block. The configuration never changes after construction and is
    passed to each operation. *)
Record Orchestrator : Type := mkOrch {
  heap : list ProcessingJob;
  jobs : list loc;
  env : Env (World := World);
  executor : option Executor
}.

(** A newly constructed orchestrator. *)
Definition new_orchestrator (w : World) : Orchestrator :=
  mkOrch [] [] (mkEnv w []) None.

Definition job_status (o : Orchestrator) (l : loc) : option Status :=
  status <$> heap o !! l.

Definition has_status (o : Orchestrator) (st : Status) (l : loc) : bool :=
  bool_decide (job_status o l = Some st).

(** *** [add_job] *)

Definition supported (p : string) : bool :=
  existsb (String.eqb (Py.lower p)) list_supported_platforms.

(** The two files are given as the paths [Path(audio_file)] and
    [Path(image_file)]; the result is the reference of the new job. *)
Definition add_job (o : Orchestrator) (audio_path image_path : Path)
           (platform_ids : list string) (id : option string)
  : Outcome loc * Orchestrator :=
  match path_exists (world (env o)) audio_path with
  | Raised x => (Raised x, o)
  | Returned false =>
      (Raised (FileNotFoundError
                 ("Audio file not found: " +:+ Pathlib.to_string audio_path)), o)
  | Returned true =>
      match path_exists (world (env o)) image_path with
      | Raised x => (Raised x, o)
      | Returned false =>
          (Raised (FileNotFoundError
                     ("Image file not found: " +:+ Pathlib.to_string image_path)), o)
      | Returned true =>
          let invalid_platforms :=
            List.filter (fun p => negb (supported p)) platform_ids in
          match invalid_platforms with
          | _ :: _ =>
              (Raised (ValueError
                         ("Unsupported platforms: " +:+ repr_list invalid_platforms)), o)
          | [] =>
              let id' :=
                match id with
                | Some i => i
                | None =>
                    Pathlib.stem audio_path +:+ "_" +:+ Py.str_of_nat (length (jobs o))
                end in
              let job :=
                mkJob id' audio_path image_path (map Py.lower platform_ids)
                      Pending [] None in
              (Returned (length (heap o)),
               mkOrch (heap o ++ [job]) (jobs o ++ [length (heap o)]) (env o)
                      (executor o))
          end
      end
  end.

(** *** [process_all_jobs] *)

(** The summary loop at the end of [process_all_jobs]. *)
Definition status_counts (o : Orchestrator) : StatusCounts :=
  fold_left (fun c l => match heap o !! l with
                        | Some j => bump (status j) c
                        | None => c
                        end) (jobs o) no_counts.

(** [[job for job in self.jobs if job.status == "pending"]] *)
Definition jobs_to_process (o : Orchestrator) : list loc :=
  List.filter (has_status o Pending) (jobs o).

(** How [process_all_jobs] begins: it returns at once, with the counts or
    with the [ValueError] of a pool that cannot be created, or it submits
    every pending job to a new pool. *)
Inductive Begin : Type :=
| Done (r : Outcome StatusCounts)
| Started (o : Orchestrator).

Definition begin_processing (cfg : WorkflowConfig) (o : Orchestrator) : Begin :=
  match jobs o with
  | [] => Done (Returned no_counts)
  | _ :: _ =>
      match jobs_to_process o with
      | [] => Done (Returned (status_counts o))
      | todo =>
          if (max_concurrent_jobs cfg <=? 0)%Z then
            Done (Raised (ValueError "max_workers must be greater than 0"))
          else
            Started (mkOrch (heap o) (jobs o) (env o) (Some (mkExecutor todo [] [])))
      end
  end.

(** An idle worker thread takes the oldest submitted job and enters
    [_process_single_job]: [job.status = "processing"]. *)
Definition start_worker (cfg : WorkflowConfig) (o : Orchestrator) : option Orchestrator :=
  match executor o with
  | Some (mkExecutor (l :: q) r f) =>
      if decide (length r < Z.to_nat (max_concurrent_jobs cfg)) then
        match heap o !! l with
        | Some _ =>
            Some (mkOrch (alter (set_status Processing) l (heap o)) (jobs o)
                         (mkEnv (world (env o)) (trace (env o) ++ [CallWorker l]))
                         (Some (mkExecutor q (r ++ [l]) f)))
        | None => None
        end
      else None
  | _ => None
  end.

(** The [i]-th running worker carries its job through the rest of
    [_process_single_job] and its future becomes done. The rest of the
    pipeline is one step: only this worker writes to the job while it runs,
    and the calls it makes reach the world in the order in which the workers
    finish. *)
Definition finish_worker (cfg : WorkflowConfig) (i : nat) (o : Orchestrator)
  : option Orchestrator :=
  match executor o with
  | Some (mkExecutor q r f) =>
      match r !! i with
      | Some l =>
          match heap o !! l with
          | Some job =>
              let '(job', e') := finish_job cfg (env o) job in
              Some (mkOrch (<[l := job']> (heap o)) (jobs o) e'
                           (Some (mkExecutor q (delete i r) (f ++ [l]))))
          | None => None
          end
      | None => None
      end
  | None => None
  end.

(** [item == job] as [list.index] tests it: the same object, or equal
    fields. *)
Definition same_job (h : list ProcessingJob) (l l' : loc) : bool :=
  Nat.eqb l l'
  || match h !! l, h !! l' with
     | Some a, Some b => job_eqb a b
     | _, _ => false
     end.

(** [self.jobs.index(job)] *)
Fixpoint list_index (h : list ProcessingJob) (l : loc) (js : list loc) : option nat :=
  match js with
  | [] => None
  | x :: rest => if same_job h x l then Some 0 else S <$> list_index h l rest
  end.

(** The main thread takes the [i]-th done future from [as_completed]:
    [self.jobs[self.jobs.index(job)] = updated_job], where the future's
    result is the job object itself; when [index] raises, the job is marked
    as failed instead. *)
Definition collect_result (i : nat) (o : Orchestrator) : option Orchestrator :=
  match executor o with
  | Some (mkExecutor q r f) =>
      match f !! i with
      | Some l =>
          match heap o !! l with
          | Some job =>
              let ex' := Some (mkExecutor q r (delete i f)) in
              match list_index (heap o) l (jobs o) with
              | Some job_index =>
                  Some (mkOrch (heap o) (<[job_index := l]> (jobs o)) (env o) ex')
              | None =>
                  Some (mkOrch
                          (alter (fail_with ("Unexpected error: " +:+ index_error job))
                                 l (heap o))
                          (jobs o) (env o) ex')
              end
          | None => None
          end
      | None => None
      end
  | None => None
  end.

(** What can happen while the pool is alive. *)
Inductive PoolEvent : Type :=
| Start
| Finish (i : nat)
| Collect (i : nat).

Definition pool_step (cfg : WorkflowConfig) (ev : PoolEvent) (o : Orchestrator)
  : option Orchestrator :=
  match ev with
  | Start => start_worker cfg o
  | Finish i => finish_worker cfg i o
  | Collect i => collect_result i o
  end.

Fixpoint run_pool (cfg : WorkflowConfig) (evs : list PoolEvent) (o : Orchestrator)
  : option Orchestrator :=
  match evs with
  | [] => Some o
  | ev :: rest =>
      match pool_step cfg ev o with
      | Some o' => run_pool cfg rest o'
      | None => None
      end
  end.

(** Leaving the [with] block, once every future has been collected, and
    computing the summary. *)
Definition end_processing (o : Orchestrator)
  : option (Outcome StatusCounts * Orchestrator) :=
  match executor o with
  | Some (mkExecutor [] [] []) =>
      Some (Returned (status_counts o), mkOrch (heap o) (jobs o) (env o) None)
  | _ => None
  end.

(** [process_all_jobs], for one interleaving [sched] of its pool. The
    result is [None] when [sched] is not a complete interleaving for this
    state: an event that cannot happen, or a pool that is not drained. *)
Definition process_all_jobs (cfg : WorkflowConfig) (sched : list PoolEvent)
           (o : Orchestrator) : option (Outcome StatusCounts * Orchestrator) :=
  match executor o with
  | Some _ => None
  | None =>
      match begin_processing cfg o with
      | Done r => match sched with [] => Some (r, o) | _ :: _ => None end
      | Started o1 =>
          match run_pool cfg sched o1 with
          | Some o2 => end_processing o2
          | None => None
          end
      end
  end.

(** *** [get_failed_jobs] and [retry_failed_jobs] *)

Definition get_failed_jobs (o : Orchestrator) : list loc :=
  List.filter (has_status o Failed) (jobs o).

(** [job.status = "pending"; job.error_message = None] *)
Definition reset_job (j : ProcessingJob) : ProcessingJob :=
  set_error_message None (set_status Pending j).

(** The loop of [retry_failed_jobs]. *)
Definition reset_failed (o : Orchestrator) : Orchestrator :=
  mkOrch (fold_left (fun h l => alter reset_job l h) (get_failed_jobs o) (heap o))
         (jobs o) (env o) (executor o).

Definition retry_failed_jobs (cfg : WorkflowConfig) (sched : list PoolEvent)
           (o : Orchestrator) : option (Outcome StatusCounts * Orchestrator) :=
  process_all_jobs cfg sched (reset_failed o).

(** *** [export_job_report] *)

Definition json_of_option (o : option string) : Json :=
  match o with
  | Some s => JStr s
  | None => JNull
  end.

(** [self.config.audio_mastering.dict()] *)
Definition audio_mastering_dict (c : Audio.AudioMasteringConfig) : Json :=
  JObj [ ("ozone_path", json_of_option (Audio.ozone_path c));
         ("preset_name", JStr (Audio.preset_name c));
         ("output_format", JStr (Audio.output_format c));
         ("bit_depth", JInt (Audio.bit_depth c));
         ("sample_rate", JInt (Audio.sample_rate c));
         ("normalize_loudness", JBool (Audio.normalize_loudness c));
         ("target_lufs", JFloat (Audio.target_lufs c)) ].

(** [self.config.video_generation.dict()] *)
Definition video_generation_dict (c : Video.VideoGenerationConfig) : Json :=
  JObj [ ("output_format", JStr (Video.output_format c));
         ("video_bitrate", json_of_option (Video.video_bitrate c));
         ("audio_bitrate", JStr (Video.audio_bitrate c));
         ("fps", JInt (Video.fps c));
         ("use_gpu_acceleration", JBool (Video.use_gpu_acceleration c));
         ("temp_dir", json_of_option (Video.temp_dir c)) ].

(** [asdict(job)], with the two [Path] fields as [default=str] writes
    them. *)
Definition asdict (j : ProcessingJob) : Json :=
  JObj [ ("job_id", JStr (job_id j));
         ("audio_file", JStr (Pathlib.to_string (audio_file j)));
         ("image_file", JStr (Pathlib.to_string (image_file j)));
         ("platforms", JArr (map JStr (platforms j)));
         ("status", JStr (status_value (status j)));
         ("output_files",
           JObj (map (fun kv => (fst kv, json_of_option (snd kv))) (output_files j)));
         ("error_message", json_of_option (error_message j)) ].

(** [len([j for j in self.jobs if j.status == st])] *)
Definition count_status (o : Orchestrator) (st : Status) : nat :=
  length (List.filter (has_status o st) (jobs o)).

(** The jobs behind [self.jobs], in list order. *)
Definition job_list (o : Orchestrator) : list ProcessingJob :=
  omap (fun l => heap o !! l) (jobs o).

Definition report (cfg : WorkflowConfig) (o : Orchestrator) : Json :=
  JObj [ ("workflow_config",
           JObj [ ("max_concurrent_jobs", JInt (max_concurrent_jobs cfg));
                  ("output_base_dir", JStr (output_base_dir cfg));
                  ("audio_mastering", audio_mastering_dict (audio_mastering cfg));
                  ("video_generation", video_generation_dict (video_generation cfg)) ]);
         ("jobs", JArr (map asdict (job_list o)));
         ("summary",
           JObj [ ("total_jobs", JInt (Z.of_nat (length (jobs o))));
                  ("completed", JInt (Z.of_nat (count_status o Completed)));
                  ("failed", JInt (Z.of_nat (count_status o Failed)));
                  ("pending", JInt (Z.of_nat (count_status o Pending))) ]) ].

Definition export_job_report (cfg : WorkflowConfig) (o : Orchestrator)
           (output_path : Path) : Outcome unit * Orchestrator :=
  let '(r, e1) := do_mkdir (env o) (Pathlib.parent output_path) in
  match r with
  | Raised x => (Raised x, mkOrch (heap o) (jobs o) e1 (executor o))
  | Returned _ =>
      let '(r2, e2) := do_write e1 output_path (report cfg o) in
      (r2, mkOrch (heap o) (jobs o) e2 (executor o))
  end.

(** *** [clear_jobs] *)

(** [clear_jobs()]: [self.jobs.clear()]. The job objects themselves are
    not touched; whoever holds one still holds it. *)
Definition clear_jobs (o : Orchestrator) : Orchestrator :=
  mkOrch (heap o) [] (env o) (executor o).

(** *** The orchestrator as a transition system *)

(** The calls a client makes and the steps of the pool. A client call
    happens only while no [process_all_jobs] is in progress. Every public
    method that changes the orchestrator or its environment is an event;
    [add_batch_jobs] is a series of [add_job] calls, and [get_job_status]
    and [get_failed_jobs] only read. *)
Inductive Event : Type :=
| EvAddJob (audio_path image_path : Path) (platform_ids : list string)
           (id : option string)
| EvProcessAllJobs
| EvRetryFailedJobs
| EvExportJobReport (output_path : Path)
| EvClearJobs
| EvPool (ev : PoolEvent)
| EvReturn.

Definition enter_processing (cfg : WorkflowConfig) (o : Orchestrator)
  : option Orchestrator :=
  match executor o with
  | Some _ => None
  | None =>
      match begin_processing cfg o with
      | Done _ => Some o
      | Started o1 => Some o1
      end
  end.

Definition step (cfg : WorkflowConfig) (ev : Event) (o : Orchestrator)
  : option Orchestrator :=
  match ev with
  | EvAddJob a i ps id =>
      match executor o with
      | Some _ => None
      | None => Some (snd (add_job o a i ps id))
      end
  | EvProcessAllJobs => enter_processing cfg o
  | EvRetryFailedJobs => enter_processing cfg (reset_failed o)
  | EvExportJobReport output_path =>
      match executor o with
      | Some _ => None
      | None => Some (snd (export_job_report cfg o output_path))
      end
  | EvClearJobs =>
      match executor o with
      | Some _ => None
      | None => Some (clear_jobs o)
      end
  | EvPool ev => pool_step cfg ev o
  | EvReturn => snd <$> end_processing o
  end.

Fixpoint steps (cfg : WorkflowConfig) (evs : list Event) (o : Orchestrator)
  : option Orchestrator :=
  match evs with
  | [] => Some o
  | ev :: rest =>
      match step cfg ev o with
      | Some o' => steps cfg rest o'
      | None => None
      end
  end.

(** The states an orchestrator can be in: what a sequence of client
    calls and pool steps makes of a newly constructed one. *)
Definition reachable (cfg : WorkflowConfig) (o : Orchestrator) : Prop :=
  exists (w : World) (evs : list Event), steps cfg evs (new_orchestrator w) = Some o.

End Orchestrator.


(** ** A scripted world, to run the model on concrete inputs *)

(** The files that exist, the results the two tools will give to their
    next invocations (a tool whose script is used up succeeds), the
    directories that were created and the documents that were written, the
    latest first. A mastering run that succeeds leaves its output file
    behind. *)
Record SimWorld : Type := mkSim {
  sim_files : list Path;
  sim_master : list bool;
  sim_render : list bool;
  sim_dirs : list Path;
  sim_docs : list (Path * Json)
}.

Definition sim_master_audio_file (w : SimWorld) (_ : Audio.AudioMasteringConfig)
           (input output : Path) : Outcome bool * SimWorld :=
  match sim_master w with
  | false :: rest =>
      (Returned false, mkSim (sim_files w) rest (sim_render w) (sim_dirs w) (sim_docs w))
  | true :: rest =>
      (Returned true,
       mkSim (output :: sim_files w) rest (sim_render w) (sim_dirs w) (sim_docs w))
  | [] =>
      (Returned true,
       mkSim (output :: sim_files w) [] (sim_render w) (sim_dirs w) (sim_docs w))
  end.

Definition sim_create_video (w : SimWorld) (_ : Video.VideoGenerationConfig)
           (image audio output : Path) (_ : PlatformConfig) (_ : AspectRatio)
  : Outcome bool * SimWorld :=
  match sim_render w with
  | b :: rest =>
      (Returned b, mkSim (sim_files w) (sim_master w) rest (sim_dirs w) (sim_docs w))
  | [] => (Returned true, w)
  end.

Definition sim_mkdir (w : SimWorld) (p : Path) : Outcome unit * SimWorld :=
  (Returned tt, mkSim (sim_files w) (sim_master w) (sim_render w) (p :: sim_dirs w)
                      (sim_docs w)).

Definition sim_write_json (w : SimWorld) (p : Path) (doc : Json)
  : Outcome unit * SimWorld :=
  (Returned tt, mkSim (p :: sim_files w) (sim_master w) (sim_render w) (sim_dirs w)
                      ((p, doc) :: sim_docs w)).

(** The latest document written to a path. *)
Fixpoint sim_read (docs : list (Path * Json)) (p : Path) : option Json :=
  match docs with
  | [] => None
  | (q, doc) :: rest => if bool_decide (q = p) then Some doc else sim_read rest p
  end.

Definition sim_repr_list (l : list string) : string :=
  "[" +:+ Py.join ", " (map (fun s => "'" +:+ s +:+ "'") l) +:+ "]".

#[global] Instance SimRuntime : Runtime SimWorld := {
  path_exists w p := Returned (bool_decide (p ∈ sim_files w ++ sim_dirs w));
  mkdir := sim_mkdir;
  master_audio_file := sim_master_audio_file;
  create_video := sim_create_video;
  write_json := sim_write_json;
  repr_list := sim_repr_list;
  index_error _ := "list.index(x): x not in list"
}.

#[global] Instance SimStorage : Storage SimWorld.
Proof.
  refine {| is_directory w p := bool_decide (p ∈ sim_dirs w);
            read_json w p := sim_read (sim_docs w) p |}.
  - intros w p w' [= <-]. apply bool_decide_eq_true. simpl. apply list_elem_of_here.
  - intros w p doc r w' d [= _ <-] H. exact H.
  - intros w p doc w' [= <-]. simpl. rewrite bool_decide_eq_true_2 by reflexivity.
    reflexivity.
Defined.

(** ** Reading the trace *)

(** The renditions the render stage was invoked for, in call order. *)
Definition render_calls (t : list Call) : list (PlatformConfig * AspectRatio) :=
  omap (fun c => match c with
                 | CallRender _ _ _ pc ar _ => Some (pc, ar)
                 | _ => None
                 end) t.

(** The invocations of the mastering stage. *)
Definition master_calls (t : list Call) : list (Path * Path) :=
  omap (fun c => match c with
                 | CallMaster a m _ => Some (a, m)
                 | _ => None
                 end) t.

(** The jobs handed to a worker, in dispatch order. *)
Definition worker_calls (t : list Call) : list loc :=
  omap (fun c => match c with
                 | CallWorker l => Some l
                 | _ => None
                 end) t.

(** The keys of the renditions whose invocation returned failure. *)
Definition failed_renditions (t : list Call) : list string :=
  omap (fun c => match c with
                 | CallRender _ _ _ pc ar (Returned false) => Some (rendition_key pc ar)
                 | _ => None
                 end) t.

(** Did this call raise? *)
Definition raised (c : Call) : bool :=
  match c with
  | CallMkdir _ (Raised _) | CallMaster _ _ (Raised _)
  | CallRender _ _ _ _ _ (Raised _) | CallWrite _ _ (Raised _) => true
  | _ => false
  end.

(** What a render call that returned puts into the result dictionary. *)
Definition recorded (c : Call) : option (string * option Path) :=
  match c with
  | CallRender _ _ out pc ar (Returned success) =>
      Some (rendition_key pc ar, if success then Some out else None)
  | _ => None
  end.

(** The (platform, supported aspect ratio) pairs of a job. *)
Definition renditions (job : ProcessingJob) : list (PlatformConfig * AspectRatio) :=
  match platform_configs (platforms job) with
  | Returned pcs => flat_map (fun pc => map (pair pc) (aspect_ratios pc)) pcs
  | Raised _ => []
  end.

(** The calls made between two environments of one run. *)
Definition new_calls {World : Type} (e e' : Env (World := World)) : list Call :=
  drop (length (trace e)) (trace e').

(** The dictionary a sequence of calls builds on top of [d]. *)
Definition record_all (t : list Call) (d : list (string * option Path))
  : list (string * option Path) :=
  fold_left (fun d kv => dict_set (fst kv) (snd kv) d) (omap recorded t) d.

(** The calls the render stage makes: directory creation and rendering. *)
Definition stage_call (c : Call) : bool :=
  match c with
  | CallMkdir _ _ | CallRender _ _ _ _ _ _ => true
  | _ => false
  end.

(** Every rendition of the platform table. *)
Definition catalog_renditions : list (PlatformConfig * AspectRatio) :=
  flat_map (fun pc => map (pair pc) (aspect_ratios pc)) (map snd PLATFORM_CONFIGS).

(** ** Reading the orchestrator's state *)

(** The identifiers a call to [add_job] rejects. *)
Definition unsupported_platforms (platform_ids : list string) : list string :=
  List.filter (fun p => negb (supported p)) platform_ids.

(** [errorMessage] is set exactly when the job is failed. *)
Definition consistent (j : ProcessingJob) : Prop :=
  error_message j <> None <-> status j = Failed.

(** The [job_id] behind each entry of [self.jobs]. *)
Definition job_ids {World : Type} (o : Orchestrator (World := World)) : list string :=
  map job_id (job_list o).

(** The job objects whose status is [Processing]. *)
Definition processing_jobs {World : Type} (o : Orchestrator (World := World)) : list loc :=
  List.filter (has_status o Processing) (seq 0 (length (heap o))).

(** Every reference in [self.jobs] points to an allocated job. *)
Definition valid_refs {World : Type} (o : Orchestrator (World := World)) : Prop :=
  Forall (fun l => l < length (heap o)) (jobs o).

(** A string without a slash. *)
Fixpoint no_slash (s : string) : bool :=
  match s with
  | EmptyString => true
  | String c s' => negb (Ascii.eqb c "/") && no_slash s'
  end.

(** A string that is one path component: pathlib keeps it as it is. *)
Definition plain (s : string) : bool := no_slash s && Pathlib.is_component s.

(** A path as pathlib builds it: every part is one component. *)
Definition well_formed (p : Path) : Prop :=
  Forall (fun x => plain x = true) (parts p).

(** ** The steps of the orchestrator, as a relation *)

Section Transitions.

Context {World : Type} `{RT : Runtime World}.

(** One atomic change of an orchestrator. Every event of [step] is one or
    two of these: a call that raises or returns at once changes nothing, a
    successful [add_job] allocates a job, [retry_failed_jobs] resets and then
    submits, [clear_jobs] empties the list, [export_job_report] acts on the
    environment alone, and the pool dispatches, finishes and collects. *)
Inductive transition (cfg : WorkflowConfig)
  : Orchestrator (World := World) -> Orchestrator (World := World) -> Prop :=
| t_stutter o : transition cfg o o
| t_add o audio image ps id :
    executor o = None ->
    transition cfg o
      (mkOrch (heap o ++ [mkJob id audio image ps Pending [] None])
              (jobs o ++ [length (heap o)]) (env o) None)
| t_reset o :
    executor o = None -> transition cfg o (reset_failed o)
| t_clear o :
    executor o = None -> transition cfg o (clear_jobs o)
| t_world o e' :
    executor o = None -> transition cfg o (mkOrch (heap o) (jobs o) e' None)
| t_submit o :
    executor o = None ->
    jobs_to_process o <> [] ->
    (0 < max_concurrent_jobs cfg)%Z ->
    transition cfg o
      (mkOrch (heap o) (jobs o) (env o) (Some (mkExecutor (jobs_to_process o) [] [])))
| t_start o l q r f :
    executor o = Some (mkExecutor (l :: q) r f) ->
    length r < Z.to_nat (max_concurrent_jobs cfg) ->
    is_Some (heap o !! l) ->
    transition cfg o
      (mkOrch (alter (set_status Processing) l (heap o)) (jobs o)
              (mkEnv (world (env o)) (trace (env o) ++ [CallWorker l]))
              (Some (mkExecutor q (r ++ [l]) f)))
| t_finish o q r f i l job job' e' :
    executor o = Some (mkExecutor q r f) ->
    r !! i = Some l ->
    heap o !! l = Some job ->
    finish_job cfg (env o) job = (job', e') ->
    transition cfg o
      (mkOrch (<[l := job']> (heap o)) (jobs o) e'
              (Some (mkExecutor q (delete i r) (f ++ [l]))))
| t_collect o q r f i l job job_index :
    executor o = Some (mkExecutor q r f) ->
    f !! i = Some l ->
    heap o !! l = Some job ->
    list_index (heap o) l (jobs o) = Some job_index ->
    transition cfg o
      (mkOrch (heap o) (<[job_index := l]> (jobs o)) (env o)
              (Some (mkExecutor q r (delete i f))))
| t_collect_error o q r f i l job :
    executor o = Some (mkExecutor q r f) ->
    f !! i = Some l ->
    heap o !! l = Some job ->
    list_index (heap o) l (jobs o) = None ->
    transition cfg o
      (mkOrch (alter (fail_with ("Unexpected error: " +:+ index_error job)) l (heap o))
              (jobs o) (env o) (Some (mkExecutor q r (delete i f))))
| t_return o :
    executor o = Some (mkExecutor [] [] []) ->
    transition cfg o (mkOrch (heap o) (jobs o) (env o) None).

(** The [job_id] each entry of [self.jobs] refers to. *)
Definition listed_ids (o : Orchestrator (World := World)) : list (option string) :=
  map (fun l => job_id <$> heap o !! l) (jobs o).

(** What holds of the jobs and of the pool as long as the listed job ids
    are pairwise different: every listed job has an error message exactly
    when it is failed; the jobs waiting in the pool are pending, the jobs
    being run are processing, and no job is in the pool twice. *)
Definition coherent (o : Orchestrator (World := World)) : Prop :=
  (forall l j, In l (jobs o) -> heap o !! l = Some j -> consistent j)
  /\ match executor o with
     | None => True
     | Some ex =>
         NoDup (queue ex ++ running ex)
         /\ (forall l, In l (queue ex) -> In l (jobs o) /\ job_status o l = Some Pending)
         /\ (forall l, In l (running ex) ->
                       In l (jobs o) /\ job_status o l = Some Processing)
         /\ (forall l, In l (finished ex) -> In l (jobs o))
     end.

(** Every job that is processing is being run, and no more jobs are being
    run than the pool has workers. *)
Definition bounded (cfg : WorkflowConfig) (o : Orchestrator (World := World)) : Prop :=
  match executor o with
  | None => forall l j, heap o !! l = Some j -> status j <> Processing
  | Some ex =>
      (forall l j, heap o !! l = Some j -> status j = Processing -> In l (running ex))
      /\ length (running ex) <= Z.to_nat (max_concurrent_jobs cfg)
  end.

End Transitions.

(** The interleaving in which one worker takes the jobs one after the
    other and the main thread collects each result before the next job
    starts. *)
Fixpoint sequential_schedule (n : nat) : list PoolEvent :=
  match n with
  | 0 => []
  | S n' => Start :: Finish 0 :: Collect 0 :: sequential_schedule n'
  end.

(** ** Concrete runs *)

Module Demo.

Definition song : Path := Pathlib.of_string "song.wav".
Definition cover : Path := Pathlib.of_string "cover.png".

(** A world with the two source files and scripted tool results. *)
Definition studio (master render : list bool) : SimWorld :=
  mkSim [song; cover] master render [] [].

(** The configuration the command line builds without [--resume]. *)
Definition no_resume : WorkflowConfig :=
  mkWorkflowConfig 4 Audio.default Video.default "./output" None false.

(** The default configuration with a pool of one worker, in which jobs
    run strictly one after the other. *)
Definition single_worker : WorkflowConfig :=
  mkWorkflowConfig 1 Audio.default Video.default "./output" None true.

(** One job through the pool, then the return of [process_all_jobs]. *)
Definition one_job : list Event :=
  [EvPool Start; EvPool (Finish 0); EvPool (Collect 0); EvReturn].

(** The state after a list of events, from a new orchestrator. *)
Definition after (cfg : WorkflowConfig) (w : SimWorld)
           (evs : list Event) : Orchestrator (World := SimWorld) :=
  match steps cfg evs (new_orchestrator w) with
  | Some o => o
  | None => new_orchestrator w
  end.

(** The same platform requested twice; the first render fails. *)
Definition twice_youtube : list Event :=
  EvAddJob song cover ["youtube"; "youtube"] None :: EvProcessAllJobs :: one_job.

(** A job whose render fails, retried without resume; the second mastering
    fails. [retried] is the state in which the retry has submitted it. *)
Definition retried : list Event :=
  EvAddJob song cover ["tiktok"] None :: EvProcessAllJobs :: one_job
  ++ [EvRetryFailedJobs].

(** Two jobs for the same audio file. *)
Definition two_jobs : list Event :=
  [EvAddJob song cover ["youtube"] None; EvAddJob song cover ["tiktok"] None].

(** Two jobs added with the same id and the same files; both fail in
    mastering, are retried, and the second attempt of the retry succeeds. *)
Definition same_id_twice : list Event :=
  [EvAddJob song cover ["tiktok"] (Some "x");
   EvAddJob song cover ["tiktok"] (Some "x");
   EvProcessAllJobs;
   EvPool Start; EvPool (Finish 0); EvPool (Collect 0);
   EvPool Start; EvPool (Finish 0); EvPool (Collect 0);
   EvReturn;
   EvRetryFailedJobs;
   EvPool Start; EvPool (Finish 0);
   EvPool Start; EvPool (Finish 0);
   EvPool (Collect 0); EvPool (Collect 0);
   EvReturn].


(** A job for two platforms, as [add_job] creates it. *)
Definition two_platform_job : ProcessingJob :=
  mkJob "song_0" song cover ["youtube"; "tiktok"] Pending [] None.

Definition tiktok_job : ProcessingJob :=
  mkJob "song_0" song cover ["tiktok"] Pending [] None.

End Demo.

From Stdlib Require DecimalNat DecimalFacts.

(** ** Reading a worker's run *)

(** The exception a call raised, if it raised. *)
Definition call_exception (c : Call) : option Exception :=
  match c with
  | CallMkdir _ (Raised x) | CallMaster _ _ (Raised x)
  | CallRender _ _ _ _ _ (Raised x) | CallWrite _ _ (Raised x) => Some x
  | _ => None
  end.

(** How a run of calls relates to what the code that made them produced:
    when it produced a value no call raised; when an exception propagated,
    the last call raised it and no earlier call raised. *)
Definition ends_with {A : Type} (r : Outcome A) (new : list Call) : Prop :=
  match r with
  | Returned _ => existsb raised new = false
  | Raised x =>
      exists pre c, new = pre ++ [c] /\ existsb raised pre = false
                    /\ call_exception c = Some x
  end.

(** A call as [create_multi_platform_videos] makes it for the platform
    configurations [pcs]: the platform's sub-directory is created, and a
    rendition is rendered from the given image and audio into the path
    built from the base name, the platform and one of its aspect ratios. *)
Definition rendition_call (cfg : WorkflowConfig) (image audio out_dir : Path)
           (base : string) (pcs : list PlatformConfig) (c : Call) : Prop :=
  match c with
  | CallMkdir p _ => exists pc, In pc pcs /\ p = out_dir // platform_name pc
  | CallRender i a out pc ar _ =>
      i = image /\ a = audio /\ In pc pcs /\ In ar (aspect_ratios pc)
      /\ out = rendition_path cfg out_dir base pc ar
  | _ => False
  end.

(** The platform configurations of a job. *)
Definition job_platforms (job : ProcessingJob) : list PlatformConfig :=
  match platform_configs (platforms job) with
  | Returned pcs => pcs
  | Raised _ => []
  end.

(** A call as a worker makes it for [job]: mastering reads the job's audio
    file and writes the mastered file, and the render stage works from the
    job's image and the mastered file, below the job's own directory. *)
Definition job_call (cfg : WorkflowConfig) (job : ProcessingJob) (c : Call) : Prop :=
  match c with
  | CallMaster input output _ =>
      input = audio_file job /\ output = mastered_audio_path cfg job
  | CallMkdir _ _ | CallRender _ _ _ _ _ _ =>
      rendition_call cfg (image_file job) (mastered_audio_path cfg job)
                     (video_output_dir cfg job) (job_id job) (job_platforms job) c
  | _ => False
  end.

(** ** Reading the pool *)

Section PoolState.

Context {World : Type} `{RT : Runtime World}.

(** While a pool is alive, a listed job that is still pending is waiting
    in the queue, and a job that a worker has taken is no longer pending. *)
Definition pool_progress (o : Orchestrator (World := World)) : Prop :=
  match executor o with
  | None => True
  | Some ex =>
      (forall l, In l (jobs o) -> job_status o l = Some Pending -> In l (queue ex))
      /\ (forall l, In l (running ex ++ finished ex) -> job_status o l <> Some Pending)
  end.

(** The jobs inside the pool. *)
Definition in_pool (o : Orchestrator (World := World)) : list loc :=
  match executor o with
  | None => []
  | Some ex => queue ex ++ running ex ++ finished ex
  end.

(** A worker has carried the job [j] through [_process_single_job] and
    left it as [j'], in a run that began in the environment [e0] and has
    reached [e1]: the worker took the job up in an environment [e] of this
    run, and the calls it made are part of the trace since. *)
Definition worker_ran (cfg : WorkflowConfig) (e0 e1 : Env (World := World))
           (j j' : ProcessingJob) : Prop :=
  exists e pre post,
    j' = fst (_process_single_job cfg e j)
    /\ trace e = trace e0 ++ pre
    /\ trace e1
       = trace e0 ++ pre ++ new_calls e (snd (_process_single_job cfg e j)) ++ post.

(** Where the jobs [todo] that were submitted to the pool stand, relative
    to the job objects [h0] and the environment [e0] of the moment they
    were submitted: a job that waits is as it was, a job that is being run
    has been marked as processing and not touched otherwise, and every
    other one has been carried through by a worker. *)
Definition carrying (cfg : WorkflowConfig) (h0 : list ProcessingJob) (todo : list loc)
           (e0 : Env (World := World)) (o : Orchestrator (World := World)) : Prop :=
  match executor o with
  | None => False
  | Some ex =>
      NoDup (queue ex ++ running ex)
      /\ length (heap o) = length h0
      /\ (exists seen, trace (env o) = trace e0 ++ seen)
      /\ forall l j,
          h0 !! l = Some j ->
          (In l (queue ex) -> heap o !! l = Some j)
          /\ (In l (running ex) -> heap o !! l = Some (set_status Processing j))
          /\ (In l todo -> ~ In l (queue ex) -> ~ In l (running ex) ->
              exists j', heap o !! l = Some j' /\ worker_ran cfg e0 (env o) j j')
  end.

End PoolState.

(** ** The platform table, continued *)

(** [platform_config.recommended_resolutions[aspect_ratio]], which raises
    [KeyError] ([None] here) for a ratio the dictionary does not hold. *)
Fixpoint recommended_resolution_in (d : list (AspectRatio * Resolution))
         (ar : AspectRatio) : option Resolution :=
  match d with
  | [] => None
  | (a, r) :: d' => if bool_decide (a = ar) then Some r else recommended_resolution_in d' ar
  end.

Definition recommended_resolution (pc : PlatformConfig) (ar : AspectRatio)
  : option Resolution :=
  recommended_resolution_in (recommended_resolutions pc) ar.

(** The two numbers an aspect ratio's value names, width first. *)
Definition ratio_numbers (ar : AspectRatio) : Z * Z :=
  match ar with
  | SQUARE => (1, 1)
  | LANDSCAPE => (16, 9)
  | PORTRAIT => (9, 16)
  end%Z.

(** ** The remaining operations of the orchestrator *)

(** What the orchestrator reads from the file system besides the existence
    of a path: [glob] is [list(directory.glob(pattern))], which pathlib
    refuses with an exception for some patterns. *)
Class FileSystem (World : Type) : Type := {
  glob : World -> Path -> string -> Outcome (list Path)
}.

Section Queue.

Context {World : Type} `{RT : Runtime World} `{FS : FileSystem World}.

(** [get_job_status(job_id)]: the first listed job with this id. *)
Definition get_job_status (o : Orchestrator (World := World)) (id : string)
  : option loc :=
  List.find (fun l => match heap o !! l with
                      | Some job => String.eqb (job_id job) id
                      | None => false
                      end) (jobs o).

(** The loop of [add_batch_jobs]: one [add_job] for each file, with a
    generated id; an exception of [add_job] ends the loop and propagates. *)
Fixpoint add_jobs (o : Orchestrator (World := World)) (audio_files : list Path)
         (image_path : Path) (platform_ids : list string) (added : list loc)
  : Outcome (list loc) * Orchestrator :=
  match audio_files with
  | [] => (Returned added, o)
  | audio_file :: rest =>
      match add_job o audio_file image_path platform_ids None with
      | (Raised x, o1) => (Raised x, o1)
      | (Returned l, o1) => add_jobs o1 rest image_path platform_ids (added ++ [l])
      end
  end.

(** [add_batch_jobs(audio_dir, image_file, platforms, audio_pattern)] *)
Definition add_batch_jobs (o : Orchestrator (World := World))
           (audio_dir image_path : Path) (platform_ids : list string)
           (audio_pattern : string) : Outcome (list loc) * Orchestrator :=
  match path_exists (world (env o)) audio_dir with
  | Raised x => (Raised x, o)
  | Returned false =>
      (Raised (FileNotFoundError
                 ("Audio directory not found: " +:+ Pathlib.to_string audio_dir)), o)
  | Returned true =>
      match path_exists (world (env o)) image_path with
      | Raised x => (Raised x, o)
      | Returned false =>
          (Raised (FileNotFoundError
                     ("Image file not found: " +:+ Pathlib.to_string image_path)), o)
      | Returned true =>
          match glob (world (env o)) audio_dir audio_pattern with
          | Raised x => (Raised x, o)
          | Returned [] => (Returned [], o)
          | Returned audio_files => add_jobs o audio_files image_path platform_ids []
          end
      end
  end.

(** The job [add_job] makes for the [n]-th entry of the list when it is
    given no id. *)
Definition batch_job (image_path : Path) (platform_ids : list string) (n : nat)
           (audio_file : Path) : ProcessingJob :=
  mkJob (Pathlib.stem audio_file +:+ "_" +:+ Py.str_of_nat n) audio_file image_path
        (map Py.lower platform_ids) Pending [] None.

End Queue.

(** ** pathlib, continued *)

(** [p.suffix]: the last dot of the name and what follows it, when that
    dot is neither the first nor the last character (CPython up to 3.13). *)
Definition path_suffix (p : Path) : string :=
  let n := Pathlib.name p in
  match Py.rfind "." n with
  | Some i =>
      if (0 <? i)%nat && (i <? String.length n - 1)%nat
      then String.substring i (String.length n - i) n
      else EmptyString
  | None => EmptyString
  end.

(** The truth value Python gives an optional string: [None] and the empty
    string are false. *)
Definition truthy (s : option string) : bool :=
  match s with
  | Some (String _ _) => true
  | _ => false
  end.

(** ** audio/mastering.py *)

Module Mastering.

(** What [AudioMasterer] uses besides the operations of [Runtime]:
    [os.path.exists] on a string, [shutil.copy2], and running the FFmpeg
    command line that the configuration determines, which gives the return
    code of the process. *)
Class Tools (World : Type) : Type := {
  os_path_exists : World -> string -> bool;
  copy2 : World -> Path -> Path -> Outcome unit * World;
  run_ffmpeg : World -> Audio.AudioMasteringConfig -> Path -> Path -> Outcome Z * World
}.

(** An [AudioMasterer]: its configuration and the executable found when
    it was constructed. *)
Record AudioMasterer : Type := mkMasterer {
  config : Audio.AudioMasteringConfig;
  ozone_path : option string
}.

Definition common_paths : list string :=
  [ "/Applications/iZotope Ozone 11.app/Contents/MacOS/iZotope Ozone 11";
    "C:\Program Files\iZotope\Ozone 11\Ozone.exe";
    "C:\Program Files (x86)\iZotope\Ozone 11\Ozone.exe" ].

Section Masterer.

Context {World : Type} `{RT : Runtime World} `{FS : FileSystem World} `{TL : Tools World}.

(** [_find_ozone_executable()] *)
Definition _find_ozone_executable (w : World) (cfg : Audio.AudioMasteringConfig)
  : option string :=
  match Audio.ozone_path cfg with
  | Some p =>
      if truthy (Some p) && os_path_exists w p then Some p
      else List.find (os_path_exists w) common_paths
  | None => List.find (os_path_exists w) common_paths
  end.

(** [AudioMasterer(config)] *)
Definition new (w : World) (cfg : Audio.AudioMasteringConfig) : AudioMasterer :=
  mkMasterer cfg (_find_ozone_executable w cfg).

(** [_master_with_ozone]: the [try] copies the input to the output, and
    the handler turns any exception into [False]. *)
Definition _master_with_ozone (m : AudioMasterer) (w : World) (input output : Path)
  : bool * World :=
  match copy2 w input output with
  | (Returned _, w1) => (true, w1)
  | (Raised _, w1) => (false, w1)
  end.

(** [_master_with_ffmpeg]: success is return code zero. *)
Definition _master_with_ffmpeg (m : AudioMasterer) (w : World) (input output : Path)
  : bool * World :=
  match run_ffmpeg w (config m) input output with
  | (Returned code, w1) => ((code =? 0)%Z, w1)
  | (Raised _, w1) => (false, w1)
  end.

(** [master_audio_file(input_path, output_path)] *)
Definition master_audio_file (m : AudioMasterer) (w : World) (input output : Path)
  : Outcome bool * World :=
  match path_exists w input with
  | Raised x => (Raised x, w)
  | Returned false => (Returned false, w)
  | Returned true =>
      match mkdir w (Pathlib.parent output) with
      | (Raised x, w1) => (Raised x, w1)
      | (Returned _, w1) =>
          if truthy (ozone_path m)
          then let '(b, w2) := _master_with_ozone m w1 input output in (Returned b, w2)
          else let '(b, w2) := _master_with_ffmpeg m w1 input output in (Returned b, w2)
      end
  end.

(** The file [batch_master_directory] writes for an input file. *)
Definition mastered_file (output_dir audio_file : Path) : Path :=
  output_dir // (Pathlib.stem audio_file +:+ "_mastered" +:+ path_suffix audio_file).

(** The loop of [batch_master_directory]. *)
Fixpoint master_files (m : AudioMasterer) (w : World) (audio_files : list Path)
         (output_dir : Path) (mastered_files : list Path)
  : Outcome (list Path) * World :=
  match audio_files with
  | [] => (Returned mastered_files, w)
  | audio_file :: rest =>
      let output_file := mastered_file output_dir audio_file in
      match master_audio_file m w audio_file output_file with
      | (Raised x, w1) => (Raised x, w1)
      | (Returned true, w1) =>
          master_files m w1 rest output_dir (mastered_files ++ [output_file])
      | (Returned false, w1) => master_files m w1 rest output_dir mastered_files
      end
  end.

(** [batch_master_directory(input_dir, output_dir, file_pattern)] *)
Definition batch_master_directory (m : AudioMasterer) (w : World)
           (input_dir output_dir : Path) (file_pattern : string)
  : Outcome (list Path) * World :=
  match path_exists w input_dir with
  | Raised x => (Raised x, w)
  | Returned false => (Returned [], w)
  | Returned true =>
      match mkdir w output_dir with
      | (Raised x, w1) => (Raised x, w1)
      | (Returned _, w1) =>
          match glob w1 input_dir file_pattern with
          | Raised x => (Raised x, w1)
          | Returned [] => (Returned [], w1)
          | Returned audio_files => master_files m w1 audio_files output_dir []
          end
      end
  end.

End Masterer.

End Mastering.

(** ** video/generation.py: [create_video] *)

Module Generation.

(** The [try] statement of [create_video] as a whole, with its handler and
    its [finally] clause: it probes the audio, prepares the image, runs
    FFmpeg and removes the temporary image. It gives [True] or [False], or
    the exception its [finally] clause lets out. *)
Class Encoder (World : Type) : Type := {
  try_encode : World -> Video.VideoGenerationConfig -> Path -> Path -> Path ->
               PlatformConfig -> AspectRatio -> Outcome bool * World
}.

Section Generator.

Context {World : Type} `{RT : Runtime World} `{EN : Encoder World}.

(** [create_video(image_path, audio_path, output_path, platform_config,
    aspect_ratio)], where [aspect_ratio] may be [None]. *)
Definition create_video (cfg : Video.VideoGenerationConfig) (w : World)
           (image audio output : Path) (pc : PlatformConfig)
           (aspect_ratio : option AspectRatio) : Outcome bool * World :=
  match path_exists w image with
  | Raised x => (Raised x, w)
  | Returned false => (Returned false, w)
  | Returned true =>
      match path_exists w audio with
      | Raised x => (Raised x, w)
      | Returned false => (Returned false, w)
      | Returned true =>
          let chosen :=
            match aspect_ratio with
            | Some ar => Returned ar
            | None =>
                match aspect_ratios pc with
                | ar :: _ => Returned ar
                | [] => Raised (OtherError "list index out of range")
                end
            end in
          match chosen with
          | Raised x => (Raised x, w)
          | Returned ar =>
              if negb (bool_decide (ar ∈ aspect_ratios pc)) then (Returned false, w)
              else
                match mkdir w (Pathlib.parent output) with
                | (Raised x, w1) => (Raised x, w1)
                | (Returned _, w1) => try_encode w1 cfg image audio output pc ar
                end
          end
      end
  end.

End Generator.

End Generation.

(** ** utils/file_utils.py *)

Module FileUtils.

(** What the validation functions read: [is_dir], which like [exists]
    lets an [OSError] other than a missing path out, the size [stat]
    reports (or the exception it raises), and the type
    [mimetypes.guess_type] derives from a file name with the tables of the
    system. *)
Class FileInfo (World : Type) : Type := {
  is_dir : World -> Path -> Outcome bool;
  st_size : World -> Path -> Outcome Z;
  guess_type : World -> string -> option string
}.

Definition supported_audio_extensions : list string :=
  [".wav"; ".mp3"; ".flac"; ".aac"; ".m4a"; ".ogg"].

Definition supported_image_extensions : list string :=
  [".png"; ".jpg"; ".jpeg"; ".bmp"; ".tiff"; ".tif"].

Definition default_audio_patterns : list string :=
  ["*.wav"; "*.mp3"; "*.flac"; "*.aac"; "*.m4a"; "*.ogg"].

Section Validation.

Context {World : Type} `{RT : Runtime World} `{FS : FileSystem World}
        `{FI : FileInfo World}.

(** The body shared by [validate_audio_file] and [validate_image_file],
    which differ in the extensions and in the prefix of the MIME type. *)
Definition validate_file (extensions : list string) (mime_prefix : string)
           (w : World) (file_path : Path) : Outcome bool :=
  match path_exists w file_path with
  | Raised x => Raised x
  | Returned false => Returned false
  | Returned true =>
      if negb (existsb (String.eqb (Py.lower (path_suffix file_path))) extensions)
      then Returned false
      else
        let mime_type := guess_type w (Pathlib.to_string file_path) in
        if truthy mime_type
           && negb (match mime_type with
                    | Some t => String.prefix mime_prefix t
                    | None => false
                    end)
        then Returned false
        else
          match st_size w file_path with
          | Raised x => Raised x
          | Returned size => Returned (negb (size <? 1024)%Z)
          end
  end.

(** [validate_audio_file(file_path)] *)
Definition validate_audio_file : World -> Path -> Outcome bool :=
  validate_file supported_audio_extensions "audio/".

(** [validate_image_file(file_path)] *)
Definition validate_image_file : World -> Path -> Outcome bool :=
  validate_file supported_image_extensions "image/".

(** The first loop of [find_audio_files]: the matches of every pattern, one
    pattern after the other. *)
Fixpoint glob_all (w : World) (directory : Path) (patterns : list string)
         (found : list Path) : Outcome (list Path) :=
  match patterns with
  | [] => Returned found
  | pattern :: rest =>
      match glob w directory pattern with
      | Raised x => Raised x
      | Returned found_files => glob_all w directory rest (found ++ found_files)
      end
  end.

(** The second loop: the files that pass validation, in order. *)
Fixpoint keep_valid (validate : World -> Path -> Outcome bool) (w : World)
         (files valid_files : list Path) : Outcome (list Path) :=
  match files with
  | [] => Returned valid_files
  | file_path :: rest =>
      match validate w file_path with
      | Raised x => Raised x
      | Returned true => keep_valid validate w rest (valid_files ++ [file_path])
      | Returned false => keep_valid validate w rest valid_files
      end
  end.

Definition find_files (validate : World -> Path -> Outcome bool)
           (default_patterns : list string) (w : World) (directory : Path)
           (patterns : option (list string)) : Outcome (list Path) :=
  match path_exists w directory with
  | Raised x => Raised x
  | Returned false => Returned []
  | Returned true =>
      match is_dir w directory with
      | Raised x => Raised x
      | Returned false => Returned []
      | Returned true =>
          let patterns' :=
            match patterns with Some ps => ps | None => default_patterns end in
          match glob_all w directory patterns' [] with
          | Raised x => Raised x
          | Returned files => keep_valid validate w files []
          end
      end
  end.

(** [find_audio_files(directory, patterns)] *)
Definition find_audio_files : World -> Path -> option (list string) -> Outcome (list Path) :=
  find_files validate_audio_file default_audio_patterns.

End Validation.

(** *** [clean_filename] *)

(** The characters of the class the regular expression names: the angle
    brackets, the colon, the double quote (character 34), the slash, the
    backslash, the bar, the question mark and the asterisk. *)
Definition invalid_char (c : ascii) : bool :=
  existsb (Ascii.eqb c)
          ["<"; ">"; ":"; ascii_of_nat 34; "/"; ascii_of_nat 92; "|"; "?"; "*"]%char.

(** [re.sub(invalid_chars, '_', s)] *)
Fixpoint replace_invalid (s : string) : string :=
  match s with
  | EmptyString => EmptyString
  | String c s' => String (if invalid_char c then "_"%char else c) (replace_invalid s')
  end.

(** [re.sub(r'_+', '_', s)]: every run of underscores becomes one. *)
Fixpoint squeeze (s : string) : string :=
  match s with
  | EmptyString => EmptyString
  | String c s' =>
      if Ascii.eqb c "_"
      then match s' with
           | String d _ => if Ascii.eqb d "_" then squeeze s' else String c (squeeze s')
           | EmptyString => String c EmptyString
           end
      else String c (squeeze s')
  end.

Definition strip_char (c : ascii) : bool := Ascii.eqb c "_" || Ascii.eqb c ".".

(** [s.lstrip('_.')] *)
Fixpoint lstrip (s : string) : string :=
  match s with
  | EmptyString => EmptyString
  | String c s' => if strip_char c then lstrip s' else s
  end.

(** [s.rstrip('_.')] *)
Fixpoint rstrip (s : string) : string :=
  match s with
  | EmptyString => EmptyString
  | String c s' =>
      match rstrip s' with
      | EmptyString => if strip_char c then EmptyString else String c EmptyString
      | r => String c r
      end
  end.

(** [clean_filename(filename)] *)
Definition clean_filename (filename : string) : string :=
  let cleaned := rstrip (lstrip (squeeze (replace_invalid filename))) in
  match cleaned with
  | EmptyString => "untitled"
  | _ => cleaned
  end.

(** Every character of a string satisfies [p]. *)
Fixpoint all_chars (p : ascii -> bool) (s : string) : bool :=
  match s with
  | EmptyString => true
  | String c s' => p c && all_chars p s'
  end.

(** No two underscores in a row. *)
Fixpoint no_double_underscore (s : string) : bool :=
  match s with
  | String c ((String d _) as s') =>
      negb (Ascii.eqb c "_" && Ascii.eqb d "_") && no_double_underscore s'
  | _ => true
  end.

(** The first and the last character of a string. *)
Definition first_char (s : string) : option ascii :=
  match s with
  | String c _ => Some c
  | EmptyString => None
  end.

Fixpoint last_char (s : string) : option ascii :=
  match s with
  | EmptyString => None
  | String c EmptyString => Some c
  | String _ s' => last_char s'
  end.

(** A name [clean_filename] has nothing to do on. *)
Definition clean (s : string) : bool :=
  all_chars (fun c => negb (invalid_char c)) s
  && no_double_underscore s
  && match first_char s with Some c => negb (strip_char c) | None => false end
  && match last_char s with Some c => negb (strip_char c) | None => false end.

End FileUtils.

(** ** Generated job ids *)

(** The id [add_job] generates for an audio file when the job list holds
    [n] jobs. *)
Definition generated_id (audio : Path) (n : nat) : string :=
  Pathlib.stem audio +:+ "_" +:+ Py.str_of_nat n.

(** An event in which the client leaves the choice of the id to
    [add_job]. *)
Definition generates_id (ev : Event) : bool :=
  match ev with
  | EvAddJob _ _ _ (Some _) => false
  | _ => true
  end.

Section Positions.

Context {World : Type} `{RT : Runtime World}.

(** The id at every position of the job list is one generated for that
    position. *)
Definition positional (o : Orchestrator (World := World)) : Prop :=
  valid_refs o
  /\ forall k oid, listed_ids o !! k = Some oid ->
                   exists s, oid = Some (s +:+ "_" +:+ Py.str_of_nat k).

End Positions.

(** ** Constructing an orchestrator *)

(** [logger.add(log_file, rotation=..., retention=...)] *)
Class Logging (World : Type) : Type := {
  logger_add : World -> string -> Outcome unit * World
}.

Section Construction.

Context {World : Type} `{RT : Runtime World} `{LG : Logging World}.

(** [Path(config.temp_dir or "/tmp/beer_goggles")] *)
Definition temp_dir (cfg : Video.VideoGenerationConfig) : Path :=
  Pathlib.of_string
    (match Video.temp_dir cfg with
     | Some (String c s) => String c s
     | _ => "/tmp/beer_goggles"
     end).

(** The directories the constructors create, in the order in which they
    create them: the video generator its temporary directory, then the
    orchestrator its three output directories. *)
Definition startup_directories (cfg : WorkflowConfig) : list Path :=
  [temp_dir (video_generation cfg); output_dir cfg; mastered_audio_dir cfg;
   videos_dir cfg].

Fixpoint make_directories (w : World) (dirs : list Path) : Outcome unit * World :=
  match dirs with
  | [] => (Returned tt, w)
  | d :: rest =>
      match mkdir w d with
      | (Raised x, w1) => (Raised x, w1)
      | (Returned _, w1) => make_directories w1 rest
      end
  end.

(** [WorkflowOrchestrator(config)]. The trace of an orchestrator starts
    when it has been constructed. *)
Definition new_workflow_orchestrator (cfg : WorkflowConfig) (w : World)
  : Outcome (Orchestrator (World := World)) * World :=
  match make_directories w (startup_directories cfg) with
  | (Raised x, w1) => (Raised x, w1)
  | (Returned _, w1) =>
      match log_file cfg with
      | Some (String c s) =>
          match logger_add w1 (String c s) with
          | (Raised x, w2) => (Raised x, w2)
          | (Returned _, w2) => (Returned (new_orchestrator w2), w2)
          end
      | _ => (Returned (new_orchestrator w1), w1)
      end
  end.

(** [create_workflow_orchestrator(config)] *)
Definition create_workflow_orchestrator (config : option WorkflowConfig) (w : World)
  : Outcome (Orchestrator (World := World)) * World :=
  new_workflow_orchestrator (match config with Some c => c | None => default_config end) w.

End Construction.

(** ** cli.py: the [batch-process] command *)

Module Cli.

(** How a command ends: the process exits with a code ([sys.exit], or 0
    when the function returns), or an exception leaves the function. *)
Inductive Ending : Type :=
| Exit (code : Z)
| Uncaught (x : Exception).

Section BatchProcess.

Context {World : Type} `{RT : Runtime World} `{FS : FileSystem World}
        `{FI : FileUtils.FileInfo World} `{LG : Logging World}.

(** The configuration the command builds from its options. *)
Definition batch_config (output_dir : Path) (max_jobs : Z) (resume : bool)
  : WorkflowConfig :=
  mkWorkflowConfig max_jobs Audio.default Video.default (Pathlib.to_string output_dir)
                   None resume.

(** The end of the command, once the jobs have been processed: the report
    if one is asked for, then the exit code. *)
Definition report_and_exit (cfg : WorkflowConfig) (o : Orchestrator (World := World))
           (status_counts : StatusCounts) (report_file : option string) : Ending :=
  let exit := if (0 <? failed status_counts)%nat then Exit 1 else Exit 0 in
  match report_file with
  | Some (String c s) =>
      match export_job_report cfg o (Pathlib.of_string (String c s)) with
      | (Raised x, _) => Uncaught x
      | (Returned _, _) => exit
      end
  | _ => exit
  end.

(** The body of [batch_process], for one interleaving [sched] of the pool
    ([None] when [sched] is not a complete interleaving). *)
Definition batch_process (w : World) (audio_dir image_file output_dir : Path)
           (platforms : list string) (audio_pattern : string) (max_jobs : Z)
           (resume : bool) (report_file : option string) (sched : list PoolEvent)
  : option Ending :=
  match FileUtils.validate_image_file w image_file with
  | Raised x => Some (Uncaught x)
  | Returned false => Some (Exit 1)
  | Returned true =>
      match FileUtils.find_audio_files w audio_dir (Some [audio_pattern]) with
      | Raised x => Some (Uncaught x)
      | Returned [] => Some (Exit 1)
      | Returned (_ :: _) =>
          let cfg := batch_config output_dir max_jobs resume in
          match create_workflow_orchestrator (Some cfg) w with
          | (Raised x, _) => Some (Uncaught x)
          | (Returned o, _) =>
              match add_batch_jobs o audio_dir image_file platforms audio_pattern with
              | (Raised x, _) => Some (Uncaught x)
              | (Returned _, o1) =>
                  match process_all_jobs cfg sched o1 with
                  | None => None
                  | Some (Raised x, _) => Some (Uncaught x)
                  | Some (Returned status_counts, o2) =>
                      Some (report_and_exit cfg o2 status_counts report_file)
                  end
              end
          end
      end
  end.

End BatchProcess.

End Cli.

(** ** A second scripted world *)

(** A world for running the operations above: the scripted world of the
    orchestrator, together with the directories among its paths, what
    every glob yields, the sizes of files, the strings [os.path.exists]
    accepts, the results the next calls of [mkdir], [shutil.copy2] and
    FFmpeg will give (a call whose script is used up succeeds), and the
    paths for which [stat] fails, each with the error it fails with. *)
Record Lab : Type := mkLab {
  lab_sim : SimWorld;
  lab_dirs : list Path;
  lab_glob : list Path;
  lab_sizes : list (Path * Z);
  lab_programs : list string;
  lab_mkdir : list (Outcome unit);
  lab_copy : list (Outcome unit);
  lab_ffmpeg : list (Outcome Z);
  lab_unreadable : list (Path * Exception)
}.

Definition lab_with_sim (w : Lab) (s : SimWorld) : Lab :=
  mkLab s (lab_dirs w) (lab_glob w) (lab_sizes w) (lab_programs w)
        (lab_mkdir w) (lab_copy w) (lab_ffmpeg w) (lab_unreadable w).

Definition lab_add_file (w : Lab) (p : Path) : Lab :=
  lab_with_sim w (mkSim (p :: sim_files (lab_sim w)) (sim_master (lab_sim w))
                        (sim_render (lab_sim w)) (sim_dirs (lab_sim w))
                        (sim_docs (lab_sim w))).

Definition lab_do_mkdir (w : Lab) (p : Path) : Outcome unit * Lab :=
  match lab_mkdir w with
  | r :: rest =>
      (r, mkLab (lab_sim w) (lab_dirs w) (lab_glob w) (lab_sizes w) (lab_programs w)
                rest (lab_copy w) (lab_ffmpeg w) (lab_unreadable w))
  | [] => (Returned tt, w)
  end.

Definition lab_copy2 (w : Lab) (input output : Path) : Outcome unit * Lab :=
  match lab_copy w with
  | r :: rest =>
      let w1 := mkLab (lab_sim w) (lab_dirs w) (lab_glob w) (lab_sizes w)
                      (lab_programs w) (lab_mkdir w) rest (lab_ffmpeg w)
                      (lab_unreadable w) in
      (r, match r with Returned _ => lab_add_file w1 output | Raised _ => w1 end)
  | [] => (Returned tt, lab_add_file w output)
  end.

Definition lab_run_ffmpeg (w : Lab) (_ : Audio.AudioMasteringConfig)
           (input output : Path) : Outcome Z * Lab :=
  match lab_ffmpeg w with
  | r :: rest =>
      let w1 := mkLab (lab_sim w) (lab_dirs w) (lab_glob w) (lab_sizes w)
                      (lab_programs w) (lab_mkdir w) (lab_copy w) rest
                      (lab_unreadable w) in
      (r, match r with Returned 0%Z => lab_add_file w1 output | _ => w1 end)
  | [] => (Returned 0%Z, lab_add_file w output)
  end.

(** [Path.exists()]: the error of [stat] for a path that cannot be
    examined, and otherwise whether the path is there. *)
Fixpoint lab_stat_error (errors : list (Path * Exception)) (p : Path)
  : option Exception :=
  match errors with
  | [] => None
  | (q, x) :: rest => if bool_decide (q = p) then Some x else lab_stat_error rest p
  end.

Definition lab_path_exists (w : Lab) (p : Path) : Outcome bool :=
  match lab_stat_error (lab_unreadable w) p with
  | Some x => Raised x
  | None => Returned (bool_decide (p ∈ sim_files (lab_sim w)))
  end.

Fixpoint lab_size (sizes : list (Path * Z)) (p : Path) : Z :=
  match sizes with
  | [] => 0
  | (q, n) :: rest => if bool_decide (q = p) then n else lab_size rest p
  end.

(** The type a name gets from its last four characters. *)
Definition lab_guess_type (name : string) : option string :=
  let n := String.length name in
  let ext := String.substring (n - 4) 4 name in
  if String.eqb ext ".wav" then Some "audio/x-wav"
  else if String.eqb ext ".mp3" then Some "audio/mpeg"
  else if String.eqb ext ".png" then Some "image/png"
  else if String.eqb ext ".txt" then Some "text/plain"
  else None.

#[global] Instance LabRuntime : Runtime Lab := {
  path_exists := lab_path_exists;
  mkdir := lab_do_mkdir;
  master_audio_file w cfg input output :=
    let '(r, s) := sim_master_audio_file (lab_sim w) cfg input output in
    (r, lab_with_sim w s);
  create_video w cfg image audio output pc ar :=
    let '(r, s) := sim_create_video (lab_sim w) cfg image audio output pc ar in
    (r, lab_with_sim w s);
  write_json w p doc := (Returned tt, lab_add_file w p);
  repr_list := sim_repr_list;
  index_error _ := "list.index(x): x not in list"
}.

#[global] Instance LabFileSystem : FileSystem Lab := {
  glob w directory pattern := Returned (lab_glob w)
}.

#[global] Instance LabTools : Mastering.Tools Lab := {
  Mastering.os_path_exists w s := bool_decide (s ∈ lab_programs w);
  Mastering.copy2 := lab_copy2;
  Mastering.run_ffmpeg := lab_run_ffmpeg
}.

#[global] Instance LabEncoder : Generation.Encoder Lab := {
  Generation.try_encode w cfg image audio output pc ar :=
    let '(r, s) := sim_create_video (lab_sim w) cfg image audio output pc ar in
    (r, lab_with_sim w s)
}.

#[global] Instance LabLogging : Logging Lab := {
  logger_add w file := (Returned tt, lab_add_file w (Pathlib.of_string file))
}.

#[global] Instance LabFileInfo : FileUtils.FileInfo Lab := {
  FileUtils.is_dir w p :=
    match lab_stat_error (lab_unreadable w) p with
    | Some x => Raised x
    | None => Returned (bool_decide (p ∈ lab_dirs w))
    end;
  FileUtils.st_size w p := Returned (lab_size (lab_sizes w) p);
  FileUtils.guess_type w name := lab_guess_type name
}.

Module Bench.

Import Demo.

Definition tune : Path := Pathlib.of_string "music/tune.wav".
Definition ghost : Path := Pathlib.of_string "music/ghost.wav".
Definition notes_txt : Path := Pathlib.of_string "music/notes.txt".
Definition music : Path := Pathlib.of_string "music".

(** A world with a directory [music] that holds [tune.wav] and
    [notes.txt], and the two files of [Demo]; what a glob yields, and the
    results of the next calls of [mkdir] and of FFmpeg, are given. *)
Definition lab (globbed : list Path) (mkdirs : list (Outcome unit))
           (ffmpeg : list (Outcome Z)) : Lab :=
  mkLab (mkSim [song; cover; music; tune; notes_txt] [] [] [] []) [music] globbed
        [(song, 4096); (tune, 2048); (notes_txt, 4096); (cover, 2048)]%Z
        ["/opt/ozone"] mkdirs [] ffmpeg [].

Definition denied : Outcome unit := Raised (OtherError "[Errno 13] Permission denied").

(** The same world, in which [stat] fails for the given paths. *)
Definition locked_lab (globbed : list Path) (unreadable : list (Path * Exception))
  : Lab :=
  mkLab (mkSim [song; cover; music; tune; notes_txt] [] [] [] []) [music] globbed
        [(song, 4096); (tune, 2048); (notes_txt, 4096); (cover, 2048)]%Z
        ["/opt/ozone"] [] [] [] unreadable.

(** The error of [stat] for a name that is too long. *)
Definition name_too_long : Exception := OtherError "[Errno 36] File name too long".

(** A pool without workers. *)
Definition no_workers : WorkflowConfig :=
  mkWorkflowConfig 0 Audio.default Video.default "./output" None true.

(** A job that was completed, and a second one added afterwards. *)
Definition one_done_one_new : list Event :=
  EvAddJob song cover ["tiktok"] None :: EvProcessAllJobs :: one_job
  ++ [EvAddJob song cover ["youtube"] None].

(** Two jobs under the same id. *)
Definition same_id : list Event :=
  [EvAddJob song cover ["tiktok"] (Some "x"); EvAddJob song cover ["youtube"] (Some "x")].

End Bench.

(** * Properties of the pipeline and of the orchestrator *)

Section PipelineFacts.

Context {World : Type} `{RT : Runtime World}.
Implicit Types (e : Env (World := World)) (job : ProcessingJob) (cfg : WorkflowConfig).

Lemma do_render_trace cfg e image audio out pc ar r e1 :
  do_render cfg e image audio out pc ar = (r, e1) ->
  trace e1 = trace e ++ [CallRender image audio out pc ar r].
Proof.
  unfold do_render. destruct (create_video _ _ _ _ _ _ _) as [r0 w].
  intros [= <- <-]. reflexivity.
Qed.

Lemma do_mkdir_trace e p r e1 :
  do_mkdir e p = (r, e1) -> trace e1 = trace e ++ [CallMkdir p r].
Proof.
  unfold do_mkdir. destruct (mkdir _ _) as [r0 w]. intros [= <- <-]. reflexivity.
Qed.

Lemma do_master_trace cfg e a m r e1 :
  do_master cfg e a m = (r, e1) -> trace e1 = trace e ++ [CallMaster a m r].
Proof.
  unfold do_master. destruct (master_audio_file _ _ _ _) as [r0 w].
  intros [= <- <-]. reflexivity.
Qed.

Lemma render_calls_app (t1 t2 : list Call) :
  render_calls (t1 ++ t2) = render_calls t1 ++ render_calls t2.
Proof. apply omap_app. Qed.

Lemma record_all_app (t1 t2 : list Call) d :
  record_all (t1 ++ t2) d = record_all t2 (record_all t1 d).
Proof. unfold record_all. rewrite omap_app, fold_left_app. reflexivity. Qed.

Lemma render_ratios_spec cfg image audio out_dir base pc ratios :
  forall e results r e',
    render_ratios cfg e image audio out_dir base pc ratios results = (r, e') ->
    exists new,
      trace e' = trace e ++ new
      /\ forallb stage_call new = true
      /\ (existsb raised new = false ->
          render_calls new = map (pair pc) ratios
          /\ r = Returned (record_all new results)).
Proof.
  induction ratios as [|ar rest IH]; intros e results r e' H; simpl in H.
  - injection H as <- <-. exists []. rewrite app_nil_r. auto.
  - destruct (do_render _ _ _ _ _ _ _) as [r1 e1] eqn:E.
    apply do_render_trace in E.
    destruct r1 as [success|x].
    + apply IH in H as (new & Ht & Hs & Hok).
      exists ([CallRender image audio (rendition_path cfg out_dir base pc ar) pc ar
                          (Returned success)] ++ new).
      split; [|split].
      * rewrite Ht, E, <- app_assoc. reflexivity.
      * rewrite forallb_app, Hs. reflexivity.
      * rewrite existsb_app, render_calls_app, record_all_app. intros Hr.
        destruct (Hok Hr) as [-> ->]. split; reflexivity.
    + injection H as <- <-.
      exists [CallRender image audio (rendition_path cfg out_dir base pc ar) pc ar (Raised x)].
      split; [exact E|]. split; [reflexivity|]. discriminate.
Qed.

Lemma render_platforms_spec cfg image audio out_dir base pcs :
  forall e results r e',
    render_platforms cfg e image audio out_dir base pcs results = (r, e') ->
    exists new,
      trace e' = trace e ++ new
      /\ forallb stage_call new = true
      /\ (existsb raised new = false ->
          render_calls new = flat_map (fun pc => map (pair pc) (aspect_ratios pc)) pcs
          /\ r = Returned (record_all new results)).
Proof.
  induction pcs as [|pc rest IH]; intros e results r e' H; simpl in H.
  - injection H as <- <-. exists []. rewrite app_nil_r. auto.
  - destruct (do_mkdir _ _) as [r1 e1] eqn:E. apply do_mkdir_trace in E.
    destruct r1 as [u|x].
    + destruct (render_ratios _ _ _ _ _ _ _ _ _) as [r2 e2] eqn:E2.
      apply render_ratios_spec in E2 as (new2 & Ht2 & Hs2 & Hok2).
      destruct r2 as [results'|x].
      * apply IH in H as (new3 & Ht3 & Hs3 & Hok3).
        exists ([CallMkdir (out_dir // platform_name pc) (Returned u)] ++ new2 ++ new3).
        split; [|split].
        -- rewrite Ht3, Ht2, E, <- !app_assoc. reflexivity.
        -- rewrite !forallb_app, Hs2, Hs3. reflexivity.
        -- rewrite !existsb_app, !render_calls_app, !record_all_app. intros Hr.
           apply orb_false_iff in Hr as [_ Hr]. apply orb_false_iff in Hr as [Hr2 Hr3].
           destruct (Hok2 Hr2) as [-> Hres2]. destruct (Hok3 Hr3) as [-> ->].
           injection Hres2 as ->. split; reflexivity.
      * injection H as <- <-.
        exists ([CallMkdir (out_dir // platform_name pc) (Returned u)] ++ new2).
        split; [|split].
        -- rewrite Ht2, E, <- app_assoc. reflexivity.
        -- rewrite forallb_app, Hs2. reflexivity.
        -- rewrite existsb_app. intros Hr. apply orb_false_iff in Hr as [_ Hr].
           destruct (Hok2 Hr) as [_ Hres]. discriminate.
    + injection H as <- <-.
      exists [CallMkdir (out_dir // platform_name pc) (Raised x)].
      split; [exact E|]. split; [reflexivity|]. discriminate.
Qed.



(** Facts about dictionaries kept as association lists. *)

Lemma dict_set_fresh {V : Type} (k : string) (v : V) (d : list (string * V)) :
  ~ In k (map fst d) -> dict_set k v d = d ++ [(k, v)].
Proof.
  induction d as [|[k' v'] d IH]; simpl; intros Hk; [reflexivity|].
  destruct (String.eqb_spec k k') as [->|Hne]; [tauto|].
  rewrite IH; tauto.
Qed.

Lemma dict_get_In {V : Type} (k : string) (v : V) (d : list (string * V)) :
  NoDup (map fst d) -> In (k, v) d -> dict_get k d = Some v.
Proof.
  induction d as [|[k' v'] d IH]; simpl; intros Hnd Hin; [tauto|].
  apply NoDup_cons in Hnd as [Hk' Hnd].
  destruct Hin as [[= -> ->]|Hin].
  - rewrite String.eqb_refl. reflexivity.
  - destruct (String.eqb_spec k k') as [->|Hne]; [|auto].
    exfalso. apply Hk'. apply list_elem_of_In, in_map_iff. exists (k', v). auto.
Qed.

Lemma dict_get_Some_In {V : Type} (k : string) (v : V) (d : list (string * V)) :
  dict_get k d = Some v -> In (k, v) d.
Proof.
  induction d as [|[k' v'] d IH]; simpl; [discriminate|].
  destruct (String.eqb_spec k k') as [->|Hne].
  - intros [= ->]. auto.
  - auto.
Qed.

Lemma record_all_fresh (t : list Call) (d : list (string * option Path)) :
  NoDup (map fst (d ++ omap recorded t)) -> record_all t d = d ++ omap recorded t.
Proof.
  unfold record_all. generalize (omap recorded t) as kvs. intros kvs. revert d.
  induction kvs as [|[k v] kvs IH]; intros d Hnd; simpl.
  - rewrite app_nil_r. reflexivity.
  - assert (Hk : ~ In k (map fst d)).
    { rewrite map_app in Hnd. apply NoDup_app in Hnd as (_ & Hdis & _).
      intros Hin. apply (Hdis k); [apply list_elem_of_In; exact Hin|].
      simpl. apply list_elem_of_here. }
    rewrite (dict_set_fresh k v d Hk).
    rewrite IH; rewrite <- app_assoc; [reflexivity|exact Hnd].
Qed.

Lemma recorded_keys (t : list Call) :
  existsb raised t = false ->
  map fst (omap recorded t) = map (fun r => rendition_key (fst r) (snd r)) (render_calls t).
Proof.
  induction t as [|c t IH]; [reflexivity|].
  change (c :: t) with ([c] ++ t).
  rewrite existsb_app, render_calls_app, omap_app, !map_app.
  intros H. apply orb_false_iff in H as [Hc Ht]. rewrite (IH Ht). f_equal.
  destruct c as [? []|? ? []|? ? ? ? ? [[]|]|? ? []|?]; try reflexivity; discriminate.
Qed.

Lemma failed_videos_recorded (t : list Call) :
  failed_videos (omap recorded t) = failed_renditions t.
Proof.
  unfold failed_videos, failed_renditions.
  induction t as [|c t IH]; [reflexivity|].
  destruct c as [? ?|? ? ?|? ? ? ? ? [[]|]|? ? ?|?]; simpl;
    first [exact IH | f_equal; exact IH].
Qed.

(** Facts about the platform table. *)

Lemma supported_config (p : string) :
  supported p = true -> exists pc, get_platform_config p = Returned pc
                                  /\ In (Py.lower p, pc) PLATFORM_CONFIGS.
Proof.
  unfold supported, get_platform_config, list_supported_platforms.
  generalize (Py.lower p) as k. intros k.
  generalize PLATFORM_CONFIGS as d.
  induction d as [|[k' v] d IH]; simpl; [discriminate|].
  destruct (String.eqb_spec k k') as [->|Hne]; simpl.
  - intros _. eauto.
  - intros H. destruct (IH H) as (pc & Hpc & Hin). eauto.
Qed.

Lemma platform_configs_distinct : NoDup (map snd PLATFORM_CONFIGS).
Proof. apply (bool_decide_unpack _). vm_compute. exact I. Qed.

Lemma platform_ratios_distinct (k : string) (pc : PlatformConfig) :
  In (k, pc) PLATFORM_CONFIGS -> NoDup (aspect_ratios pc).
Proof.
  simpl. intros H.
  repeat (destruct H as [[= <- <-]|H]; [apply (bool_decide_unpack _); vm_compute; exact I|]).
  destruct H.
Qed.

Lemma catalog_keys_distinct :
  NoDup (map (fun r => rendition_key (fst r) (snd r)) catalog_renditions).
Proof. apply (bool_decide_unpack _). vm_compute. exact I. Qed.

Lemma assoc_value_key {V : Type} (d : list (string * V)) (k1 k2 : string) (v : V) :
  NoDup (map snd d) -> In (k1, v) d -> In (k2, v) d -> k1 = k2.
Proof.
  induction d as [|[k' v'] d IH]; simpl; intros Hnd H1 H2; [tauto|].
  apply NoDup_cons in Hnd as [Hv Hnd].
  assert (Hin : forall k, In (k, v') d -> False).
  { intros k Hk. apply Hv, list_elem_of_In, in_map_iff. exists (k, v'). auto. }
  destruct H1 as [E1|H1], H2 as [E2|H2].
  - congruence.
  - injection E1 as -> ->. exfalso; eauto.
  - injection E2 as -> ->. exfalso; eauto.
  - eauto.
Qed.

Lemma platform_configs_spec (ps : list string) :
  Forall (fun p => supported p = true) ps ->
  exists pcs, platform_configs ps = Returned pcs
              /\ Forall2 (fun p pc => In (Py.lower p, pc) PLATFORM_CONFIGS) ps pcs.
Proof.
  induction 1 as [|p ps Hp _ IH]; simpl.
  - exists []. split; [reflexivity|constructor].
  - destruct (supported_config p Hp) as (pc & -> & Hin).
    destruct IH as (pcs & -> & Hall). exists (pc :: pcs). split; [reflexivity|].
    constructor; assumption.
Qed.

Lemma platform_configs_nodup (ps : list string) (pcs : list PlatformConfig) :
  Forall2 (fun p pc => In (Py.lower p, pc) PLATFORM_CONFIGS) ps pcs ->
  NoDup (map Py.lower ps) -> NoDup pcs.
Proof.
  induction 1 as [|p pc ps pcs Hp Hall IH]; simpl; intros Hnd; [constructor|].
  apply NoDup_cons in Hnd as [Hp' Hnd]. apply NoDup_cons. split; [|auto].
  intros Hin. apply Hp'. apply list_elem_of_In in Hin.
  clear IH Hnd Hp'. induction Hall as [|p' pc' ps pcs Hp2 Hall IH]; [destruct Hin|].
  destruct Hin as [->|Hin].
  - rewrite (assoc_value_key _ _ _ _ platform_configs_distinct Hp Hp2).
    simpl. apply list_elem_of_here.
  - simpl. apply list_elem_of_further. auto.
Qed.

Lemma platform_configs_in_table (ps : list string) (pcs : list PlatformConfig) :
  Forall2 (fun p pc => In (Py.lower p, pc) PLATFORM_CONFIGS) ps pcs ->
  forall pc, In pc pcs -> exists k, In (k, pc) PLATFORM_CONFIGS.
Proof.
  induction 1 as [|p pc ps pcs Hp _ IH]; intros pc' Hin; [destruct Hin|].
  destruct Hin as [<-|Hin]; [eauto|]. apply IH. exact Hin.
Qed.

Lemma flat_pairs_nodup (pcs : list PlatformConfig) :
  NoDup pcs -> Forall (fun pc => NoDup (aspect_ratios pc)) pcs ->
  NoDup (flat_map (fun pc => map (pair pc) (aspect_ratios pc)) pcs).
Proof.
  induction 1 as [|pc pcs Hpc Hnd IH]; simpl; intros Hall; [constructor|].
  apply Forall_cons in Hall as [Har Hall].
  apply NoDup_app. split; [|split].
  - assert (Hinj : Inj eq eq (pair (B := AspectRatio) pc)).
    { intros a b E. injection E. auto. }
    apply (NoDup_fmap_2 (pair pc)). exact Har.
  - intros [pc' ar] H1 H2.
    apply list_elem_of_In, in_map_iff in H1 as (a & [= <- <-] & _).
    apply list_elem_of_In, in_flat_map in H2 as (pc2 & Hin2 & H2).
    apply in_map_iff in H2 as (a2 & [= <- <-] & _).
    apply Hpc, list_elem_of_In. exact Hin2.
  - auto.
Qed.

Lemma map_inj_on_nodup {A B : Type} (f : A -> B) (big : list A) :
  NoDup (map f big) ->
  forall small, NoDup small -> (forall x, In x small -> In x big) -> NoDup (map f small).
Proof.
  intros Hbig.
  assert (Hinj : forall x y, In x big -> In y big -> f x = f y -> x = y).
  { induction big as [|a big IH]; simpl; [tauto|].
    simpl in Hbig. apply NoDup_cons in Hbig as [Ha Hbig].
    assert (Hfa : forall z, In z big -> f a = f z -> False).
    { intros z Hz E. apply Ha. rewrite E. apply list_elem_of_In, in_map. exact Hz. }
    intros x y [->|Hx] [->|Hy] E; auto.
    - exfalso; eauto.
    - exfalso; eauto. }
  induction 1 as [|x small Hx Hnd IH]; simpl; intros Hsub; [constructor|].
  apply NoDup_cons. split; [|auto].
  intros Hin. apply list_elem_of_In, in_map_iff in Hin as (y & E & Hy).
  apply Hx. rewrite <- (Hinj y x); auto. apply list_elem_of_In. exact Hy.
Qed.

(** For a job whose platforms are supported and pairwise different (up to
    case), the renditions and their keys are pairwise different. *)
Lemma renditions_distinct (job : ProcessingJob) :
  NoDup (map Py.lower (platforms job)) ->
  Forall (fun p => supported p = true) (platforms job) ->
  exists pcs, platform_configs (platforms job) = Returned pcs
              /\ NoDup (renditions job)
              /\ NoDup (map (fun r => rendition_key (fst r) (snd r)) (renditions job)).
Proof.
  intros Hnd Hsup. unfold renditions.
  destruct (platform_configs_spec _ Hsup) as (pcs & -> & Hall).
  exists pcs. split; [reflexivity|].
  pose proof (platform_configs_in_table _ _ Hall) as Hcat.
  assert (Hflat : NoDup (flat_map (fun pc => map (pair pc) (aspect_ratios pc)) pcs)).
  { apply flat_pairs_nodup; [exact (platform_configs_nodup _ _ Hall Hnd)|].
    apply Forall_forall. intros pc Hin. apply list_elem_of_In in Hin.
    destruct (Hcat pc Hin) as [k Hk]. exact (platform_ratios_distinct k pc Hk). }
  split; [exact Hflat|].
  apply (map_inj_on_nodup _ catalog_renditions catalog_keys_distinct); [exact Hflat|].
  intros [pc ar] Hin. apply in_flat_map in Hin as (pc' & Hpc & Hin).
  apply in_flat_map. exists pc'. split; [|exact Hin].
  destruct (Hcat pc' Hpc) as [k Hk]. apply in_map_iff. exists (k, pc'). auto.
Qed.

(** What the render stage does, read off its trace. *)
Lemma render_stage_spec cfg e job r e' :
  render_stage cfg e job = (r, e') ->
  exists new,
    trace e' = trace e ++ new
    /\ forallb stage_call new = true
    /\ forall pcs,
        platform_configs (platforms job) = Returned pcs ->
        existsb raised new = false ->
        render_calls new = renditions job
        /\ r = Returned
                 (let job1 :=
                    set_output_files
                      (map (fun kv => (fst kv, option_map Pathlib.to_string (snd kv)))
                           (record_all new [])) job in
                  match failed_videos (record_all new []) with
                  | [] => set_status Completed job1
                  | failed =>
                      fail_with ("Failed to create videos: " +:+ repr_list failed) job1
                  end).
Proof.
  unfold render_stage, renditions, create_multi_platform_videos.
  destruct (platform_configs (platforms job)) as [pcs|x].
  - destruct (render_platforms _ _ _ _ _ _ _ _) as [r1 e1] eqn:E.
    apply render_platforms_spec in E as (new & Ht & Hs & Hok).
    intros H. exists new. destruct r1 as [results|x].
    + assert (e1 = e') by (destruct (failed_videos results); congruence). subst e1.
      split; [exact Ht|]. split; [exact Hs|].
      intros pcs' [= <-] Hr. destruct (Hok Hr) as [Hc [= ->]]. split; [exact Hc|].
      simpl. destruct (failed_videos (record_all new [])); congruence.
    + injection H as <- <-. split; [exact Ht|]. split; [exact Hs|].
      intros pcs' _ Hr. destruct (Hok Hr) as [_ ?]. discriminate.
  - intros [= <- <-]. exists []. rewrite app_nil_r. split; [reflexivity|].
    split; [reflexivity|]. intros pcs. discriminate.
Qed.

Lemma new_calls_app e e' new : trace e' = trace e ++ new -> new_calls e e' = new.
Proof. unfold new_calls. intros ->. apply drop_app_length. Qed.

Lemma stage_call_in (new : list Call) (c : Call) :
  forallb stage_call new = true -> In c new -> stage_call c = true.
Proof. intros H Hin. exact (proj1 (forallb_forall _ _) H c Hin). Qed.

Lemma stage_calls_no_master (new : list Call) :
  forallb stage_call new = true -> master_calls new = [].
Proof.
  induction new as [|c new IH]; [reflexivity|]. simpl.
  intros H. apply andb_true_iff in H as [Hc H].
  destruct c; try discriminate; simpl; auto.
Qed.

(** How the worker's run on a job unfolds: the mastering stage is skipped,
    raises, fails or succeeds, and only in the first and the last case does
    the render stage run. *)
Lemma finish_job_cases cfg e job0 job' e' :
  finish_job cfg e job0 = (job', e') ->
  let a := audio_file job0 in
  let m := mastered_audio_path cfg job0 in
  (exists x, new_calls e e' = [CallMaster a m (Raised x)]
             /\ job' = fail_with (exc_str x) job0)
  \/ (new_calls e e' = [CallMaster a m (Returned false)]
      /\ job' = fail_with "Audio mastering failed" job0)
  \/ (exists pre new e1 r,
        new_calls e e' = pre ++ new
        /\ (pre = [CallMaster a m (Returned true)]
            \/ pre = [] /\ path_exists (world e) m = Returned true
               /\ resume_on_failure cfg = true)
        /\ render_stage cfg e1 job0 = (r, e')
        /\ trace e' = trace e1 ++ new
        /\ job' = match r with
                  | Returned j => j
                  | Raised x => fail_with (exc_str x) job0
                  end)
  \/ (exists x, path_exists (world e) m = Raised x
                /\ e' = e /\ job' = fail_with (exc_str x) job0).
Proof.
  intros H a m. unfold finish_job, pipeline in H.
  change (mastered_audio_path cfg job0) with m in H.
  change (audio_file job0) with a in H.
  destruct (path_exists (world e) m) as [present|x] eqn:Hex;
    [|injection H as <- <-; right; right; right; exists x; auto].
  destruct (negb present || negb (resume_on_failure cfg)) eqn:Hc.
  - destruct (do_master cfg e a m) as [r e1] eqn:Em. apply do_master_trace in Em.
    destruct r as [[|]|x].
    + destruct (render_stage cfg e1 job0) as [r2 e2] eqn:Er.
      assert (He : e2 = e') by (destruct r2; congruence). subst e2.
      destruct (render_stage_spec _ _ _ _ _ Er) as (new & Ht & _).
      right. right. left. exists [CallMaster a m (Returned true)], new, e1, r2.
      split; [|split; [auto|split; [exact Er|split; [exact Ht|]]]].
      * apply new_calls_app. rewrite Ht, Em, <- app_assoc. reflexivity.
      * destruct r2; congruence.
    + injection H as <- <-. right. left. split; [|reflexivity].
      apply new_calls_app. exact Em.
    + injection H as <- <-. left. exists x. split; [|reflexivity].
      apply new_calls_app. exact Em.
  - destruct (render_stage cfg e job0) as [r2 e2] eqn:Er.
    assert (He : e2 = e') by (destruct r2; congruence). subst e2.
    destruct (render_stage_spec _ _ _ _ _ Er) as (new & Ht & _).
    apply orb_false_iff in Hc as [Hc1 Hc2].
    apply negb_false_iff in Hc1, Hc2. subst present.
    right. right. left. exists [], new, e, r2.
    split; [|split; [auto|split; [exact Er|split; [exact Ht|]]]].
    + apply new_calls_app. exact Ht.
    + destruct r2; congruence.
Qed.

Lemma new_calls_same e : new_calls e e = [].
Proof. unfold new_calls. apply drop_all. Qed.

Lemma process_single_job_cases cfg e job job' e' :
  _process_single_job cfg e job = (job', e') ->
  let job0 := set_status Processing job in
  let a := audio_file job in
  let m := mastered_audio_path cfg job in
  (exists x, new_calls e e' = [CallMaster a m (Raised x)]
             /\ job' = fail_with (exc_str x) job0)
  \/ (new_calls e e' = [CallMaster a m (Returned false)]
      /\ job' = fail_with "Audio mastering failed" job0)
  \/ (exists pre new e1 r,
        new_calls e e' = pre ++ new
        /\ (pre = [CallMaster a m (Returned true)]
            \/ pre = [] /\ path_exists (world e) m = Returned true
               /\ resume_on_failure cfg = true)
        /\ render_stage cfg e1 job0 = (r, e')
        /\ trace e' = trace e1 ++ new
        /\ job' = match r with
                  | Returned j => j
                  | Raised x => fail_with (exc_str x) job0
                  end)
  \/ (exists x, path_exists (world e) m = Raised x
                /\ e' = e /\ job' = fail_with (exc_str x) job0).
Proof. intros H. exact (finish_job_cases cfg e (set_status Processing job) job' e' H). Qed.

(** The job the render stage hands back. *)
Lemma render_stage_result cfg e job j e' :
  render_stage cfg e job = (Returned j, e') ->
  exists outs,
    j = set_status Completed (set_output_files outs job)
    \/ exists msg, j = fail_with msg (set_output_files outs job).
Proof.
  unfold render_stage. destruct (platform_configs (platforms job)); [|discriminate].
  destruct (create_multi_platform_videos _ _ _ _ _ _ _) as [[results|x] e1];
    [|discriminate].
  destruct (failed_videos results); intros [= <- <-]; eauto.
Qed.

(** What stays and what changes in a job that a worker carries through the
    pipeline. *)
Lemma finish_job_effect cfg e job0 job' e' :
  finish_job cfg e job0 = (job', e') ->
  job_id job' = job_id job0
  /\ audio_file job' = audio_file job0
  /\ image_file job' = image_file job0
  /\ platforms job' = platforms job0
  /\ (status job' = Completed /\ error_message job' = error_message job0
      \/ status job' = Failed /\ error_message job' <> None)
  /\ exists new, trace e' = trace e ++ new /\ worker_calls new = [].
Proof.
  intros H.
  assert (Ht : exists new, trace e' = trace e ++ new /\ worker_calls new = []).
  { unfold finish_job, pipeline in H.
    assert (Hrs : forall e1 r e2, render_stage cfg e1 job0 = (r, e2) ->
                  exists new, trace e2 = trace e1 ++ new /\ worker_calls new = []).
    { intros e1 r e2 Er. destruct (render_stage_spec _ _ _ _ _ Er) as (new & Ht & Hs & _).
      exists new. split; [exact Ht|]. clear -Hs.
      induction new as [|c new IH]; [reflexivity|]. simpl in Hs.
      apply andb_true_iff in Hs as [Hc Hs]. destruct c; try discriminate; simpl; auto. }
    destruct (path_exists _ _) as [present|x];
      [|injection H as <- <-; exists []; rewrite app_nil_r; auto].
    destruct (negb _ || negb _).
    - destruct (do_master _ _ _ _) as [r e1] eqn:Em. apply do_master_trace in Em.
      destruct r as [[|]|x].
      + destruct (render_stage cfg e1 job0) as [r2 e2] eqn:Er.
        destruct (Hrs _ _ _ Er) as (new & Ht & Hw).
        assert (e2 = e') by (destruct r2; congruence). subst e2.
        exists ([CallMaster (audio_file job0) (mastered_audio_path cfg job0)
                            (Returned true)] ++ new).
        split; [rewrite Ht, Em, <- app_assoc; reflexivity|exact Hw].
      + injection H as <- <-. eexists. split; [exact Em|reflexivity].
      + injection H as <- <-. eexists. split; [exact Em|reflexivity].
    - destruct (render_stage cfg e job0) as [r2 e2] eqn:Er.
      destruct (Hrs _ _ _ Er) as (new & Ht & Hw).
      assert (e2 = e') by (destruct r2; congruence). subst e2. eauto. }
  destruct (finish_job_cases _ _ _ _ _ H)
    as [(x & _ & ->)|[(_ & ->)|[(pre & new & e1 & r & _ & _ & Er & _ & ->)
                               |(x & _ & _ & ->)]]].
  - simpl. repeat split; auto; try (right; split; [reflexivity|discriminate]).
  - simpl. repeat split; auto; try (right; split; [reflexivity|discriminate]).
  - destruct r as [j|x].
    + destruct (render_stage_result _ _ _ _ _ Er) as (outs & [->|(msg & ->)]); simpl;
        repeat split; auto; try (right; split; [reflexivity|discriminate]).
    + simpl. repeat split; auto; try (right; split; [reflexivity|discriminate]).
  - simpl. repeat split; auto; try (right; split; [reflexivity|discriminate]).
Qed.

(** ** C2: a failing mastering stage *)

(** C2 (as amended). When the mastering stage of a job is invoked and
    reports failure, the worker leaves the job [Failed] with the message
    "Audio mastering failed", leaves its outputs exactly as they were
    before the run (so empty for a job that was never rendered), and makes
    no other call: the failed mastering call is the whole trace of the run,
    and the render stage is not invoked. *)
Theorem mastering_failure_stops_job cfg e job job' e' a m :
  _process_single_job cfg e job = (job', e') ->
  In (CallMaster a m (Returned false)) (new_calls e e') ->
  status job' = Failed
  /\ error_message job' = Some "Audio mastering failed"
  /\ output_files job' = output_files job
  /\ (output_files job = [] -> output_files job' = [])
  /\ render_calls (new_calls e e') = []
  /\ new_calls e e'
     = [CallMaster (audio_file job) (mastered_audio_path cfg job) (Returned false)].
Proof.
  intros H Hin.
  destruct (process_single_job_cases _ _ _ _ _ H)
    as [(x & Hn & _)|[(Hn & ->)|[(pre & new & e1 & r & Hn & Hpre & Er & Ht & _)
                                |(x & _ & -> & _)]]].
  - rewrite Hn in Hin. destruct Hin as [?|[]]. discriminate.
  - rewrite Hn. simpl. auto 10.
  - exfalso. destruct (render_stage_spec _ _ _ _ _ Er) as (new' & Ht' & Hs & _).
    rewrite Ht in Ht'. apply app_inv_head in Ht'. subst new'.
    rewrite Hn in Hin. apply in_app_or in Hin as [Hin|Hin].
    + destruct Hpre as [->|(-> & _)]; [|destruct Hin].
      destruct Hin as [?|[]]. discriminate.
    + apply (stage_call_in _ _ Hs) in Hin. discriminate.
  - rewrite new_calls_same in Hin. destruct Hin.
Qed.

(** ** C10: resume is the default *)

(** C10. [WorkflowConfig()] has [resume_on_failure] set, and under it a
    worker that finds the job's mastered-audio file on disk does not invoke
    the mastering stage. *)
Theorem resume_enabled_by_default :
  resume_on_failure default_config = true
  /\ forall e job,
      path_exists (world e) (mastered_audio_path default_config job) = Returned true ->
      master_calls (new_calls e (snd (_process_single_job default_config e job))) = [].
Proof.
  split; [reflexivity|]. intros e job Hex.
  destruct (_process_single_job default_config e job) as [job' e'] eqn:H. simpl.
  unfold _process_single_job, finish_job, pipeline in H.
  change (mastered_audio_path default_config (set_status Processing job))
    with (mastered_audio_path default_config job) in H.
  rewrite Hex in H. simpl in H.
  destruct (render_stage default_config e (set_status Processing job)) as [r e2] eqn:Er.
  assert (He : e2 = e') by (destruct r; congruence). subst e2.
  destruct (render_stage_spec _ _ _ _ _ Er) as (new & Ht & Hs & _).
  rewrite (new_calls_app _ _ _ Ht). apply stage_calls_no_master. exact Hs.
Qed.

Lemma failed_renditions_app (t1 t2 : list Call) :
  failed_renditions (t1 ++ t2) = failed_renditions t1 ++ failed_renditions t2.
Proof. apply omap_app. Qed.

(** ** C1: rendering and the completion decision *)

(** C1 (as amended). Take a job whose platforms are supported and pairwise
    different, a run of the worker on it in which the mastering stage
    returned success and no call raised. Then the render stage was invoked
    for the job's (platform, aspect ratio) pairs, each exactly once; the
    job's outputs have exactly the keys of these pairs, and under the key of
    each invocation stand the path it wrote to, or the absence marker if it
    failed; and the job is [Completed] if no invocation failed, and
    otherwise [Failed] with a message that lists the keys of the failed
    invocations. *)
Theorem process_single_job_renders cfg e job job' e' :
  NoDup (map Py.lower (platforms job)) ->
  Forall (fun p => supported p = true) (platforms job) ->
  _process_single_job cfg e job = (job', e') ->
  (exists a m, In (CallMaster a m (Returned true)) (new_calls e e')) ->
  existsb raised (new_calls e e') = false ->
  render_calls (new_calls e e') = renditions job
  /\ NoDup (renditions job)
  /\ map fst (output_files job')
     = map (fun r => rendition_key (fst r) (snd r)) (renditions job)
  /\ (forall image audio out pc ar (success : bool),
        In (CallRender image audio out pc ar (Returned success)) (new_calls e e') ->
        dict_get (rendition_key pc ar) (output_files job')
        = Some (if success then Some (Pathlib.to_string out) else None))
  /\ match failed_renditions (new_calls e e') with
     | [] => status job' = Completed
     | failed =>
         status job' = Failed
         /\ error_message job' = Some ("Failed to create videos: " +:+ repr_list failed)
     end.
Proof.
  intros Hnd Hsup H (a & m & Hm) Hr.
  destruct (process_single_job_cases _ _ _ _ _ H)
    as [(x & Hn & _)|[(Hn & _)|[(pre & new & e1 & r & Hn & Hpre & Er & Ht & Hjob)
                               |(x & _ & -> & _)]]];
    [| | |rewrite new_calls_same in Hm; destruct Hm].
  - rewrite Hn in Hr. discriminate.
  - rewrite Hn in Hm. destruct Hm as [?|[]]. discriminate.
  - destruct (render_stage_spec _ _ _ _ _ Er) as (new' & Ht' & Hs & Hok).
    rewrite Ht in Ht'. apply app_inv_head in Ht'. subst new'.
    destruct (renditions_distinct job Hnd Hsup) as (pcs & Hpcs & Hnd1 & Hnd2).
    rewrite Hn in *. rewrite existsb_app in Hr. apply orb_false_iff in Hr as [_ Hr].
    destruct (Hok pcs Hpcs Hr) as [Hcalls Hres]. clear Hok.
    change (renditions (set_status Processing job)) with (renditions job) in Hcalls.
    assert (Hkeys : map fst (omap recorded new)
                    = map (fun r => rendition_key (fst r) (snd r)) (renditions job)).
    { rewrite (recorded_keys new Hr), Hcalls. reflexivity. }
    assert (Hrec : record_all new [] = omap recorded new).
    { apply (record_all_fresh new []). simpl. rewrite Hkeys. exact Hnd2. }
    rewrite Hrec, failed_videos_recorded in Hres.
    assert (Hpre_r : render_calls pre = [] /\ failed_renditions pre = []
                     /\ forall i au o pc ar b, ~ In (CallRender i au o pc ar b) pre).
    { destruct Hpre as [->|(-> & _)]; repeat split; try reflexivity; intros.
      - intros [?|[]]. discriminate.
      - intros []. }
    destruct Hpre_r as (Hp1 & Hp2 & Hp3).
    rewrite render_calls_app, failed_renditions_app, Hp1, Hp2. simpl.
    set (outs := map (fun kv : string * option Path =>
                        (fst kv, option_map Pathlib.to_string (snd kv)))
                     (omap recorded new)) in *.
    assert (Hout : output_files job' = outs).
    { subst r. simpl in Hjob. subst job'.
      destruct (failed_renditions new); reflexivity. }
    assert (Houtkeys : map fst outs = map fst (omap recorded new)).
    { unfold outs. rewrite map_map. reflexivity. }
    split; [exact Hcalls|]. split; [exact Hnd1|].
    split; [rewrite Hout, Houtkeys; exact Hkeys|]. split.
    + intros image audio out pc ar success Hin.
      apply in_app_or in Hin as [Hin|Hin]; [destruct (Hp3 _ _ _ _ _ _ Hin)|].
      rewrite Hout. apply dict_get_In.
      * rewrite Houtkeys, Hkeys. exact Hnd2.
      * unfold outs. apply in_map_iff.
        exists (rendition_key pc ar, if success then Some out else None).
        split; [destruct success; reflexivity|].
        apply list_elem_of_In, list_elem_of_omap.
        exists (CallRender image audio out pc ar (Returned success)).
        split; [apply list_elem_of_In; exact Hin|reflexivity].
    + subst r. simpl in Hjob. subst job'.
      destruct (failed_renditions new); simpl; auto.
Qed.

End PipelineFacts.

Section OrchestratorFacts.

Context {World : Type} `{RT : Runtime World}.
Implicit Types (o : Orchestrator (World := World)) (cfg : WorkflowConfig).

Lemma supported_iff (p : string) :
  supported p = true <-> In (Py.lower p) list_supported_platforms.
Proof.
  unfold supported. rewrite existsb_exists. split.
  - intros (x & Hx & E). apply String.eqb_eq in E. subst x. exact Hx.
  - intros H. exists (Py.lower p). split; [exact H|apply String.eqb_refl].
Qed.

Lemma unsupported_platforms_spec (ps : list string) (p : string) :
  In p (unsupported_platforms ps)
  <-> In p ps /\ ~ In (Py.lower p) list_supported_platforms.
Proof.
  unfold unsupported_platforms. rewrite filter_In, <- supported_iff.
  destruct (supported p); simpl; intuition congruence.
Qed.

(** ** C3: what [add_job] rejects *)

(** C3 (as amended). [add_job] tests the audio path, then the image path,
    then the platforms, and the first test that fails decides the error.
    When the existence test reports that the audio path, or with the audio
    path present the image path, does not exist, the call raises
    [FileNotFoundError] naming that path; an error that the existence test
    itself raises leaves the call as it is. With both paths present and a
    platform identifier whose lower-case form is not in the platform table,
    the call raises a [ValueError] whose message lists exactly the offending
    identifiers. A call with such an identifier fails in any case, a call
    returns only when both paths exist and every identifier is supported,
    and a call that raises leaves the orchestrator, and so its job list, as
    it was. *)
Theorem add_job_rejects_bad_input o audio image ps id :
  (path_exists (world (env o)) audio = Returned false ->
   add_job o audio image ps id
   = (Raised (FileNotFoundError ("Audio file not found: " +:+ Pathlib.to_string audio)),
      o))
  /\ (path_exists (world (env o)) audio = Returned true ->
      path_exists (world (env o)) image = Returned false ->
      add_job o audio image ps id
      = (Raised (FileNotFoundError
                   ("Image file not found: " +:+ Pathlib.to_string image)), o))
  /\ (forall x,
        path_exists (world (env o)) audio = Raised x
        \/ path_exists (world (env o)) audio = Returned true
           /\ path_exists (world (env o)) image = Raised x ->
        add_job o audio image ps id = (Raised x, o))
  /\ (path_exists (world (env o)) audio = Returned true ->
      path_exists (world (env o)) image = Returned true ->
      unsupported_platforms ps <> [] ->
      add_job o audio image ps id
      = (Raised (ValueError ("Unsupported platforms: "
                             +:+ repr_list (unsupported_platforms ps))), o))
  /\ (forall p, In p (unsupported_platforms ps)
                <-> In p ps /\ ~ In (Py.lower p) list_supported_platforms)
  /\ ((exists p, In p ps /\ ~ In (Py.lower p) list_supported_platforms) ->
      exists x, add_job o audio image ps id = (Raised x, o))
  /\ (forall l o', add_job o audio image ps id = (Returned l, o') ->
        path_exists (world (env o)) audio = Returned true
        /\ path_exists (world (env o)) image = Returned true
        /\ unsupported_platforms ps = [])
  /\ (forall x o', add_job o audio image ps id = (Raised x, o') ->
                   o' = o /\ jobs o' = jobs o).
Proof.
  unfold add_job. fold (unsupported_platforms ps).
  split; [|split; [|split; [|split; [|split; [|split; [|split]]]]]].
  - intros ->. reflexivity.
  - intros -> ->. reflexivity.
  - intros x [->|[-> ->]]; reflexivity.
  - intros -> -> Hbad.
    destruct (unsupported_platforms ps); [congruence|reflexivity].
  - apply unsupported_platforms_spec.
  - intros (p & Hp). apply unsupported_platforms_spec in Hp.
    destruct (path_exists _ audio) as [[|]|x]; [|eauto|eauto].
    destruct (path_exists _ image) as [[|]|x]; [|eauto|eauto].
    destruct (unsupported_platforms ps); [destruct Hp|eauto].
  - intros l o'.
    destruct (path_exists _ audio) as [[|]|x]; [|discriminate|discriminate].
    destruct (path_exists _ image) as [[|]|x]; [|discriminate|discriminate].
    destruct (unsupported_platforms ps); [auto|discriminate].
  - intros x o'.
    destruct (path_exists _ audio) as [[|]|y]; [|intros [= _ <-]; auto|intros [= _ <-]; auto].
    destruct (path_exists _ image) as [[|]|y]; [|intros [= _ <-]; auto|intros [= _ <-]; auto].
    destruct (unsupported_platforms ps); [discriminate|intros [= _ <-]; auto].
Qed.

(** The keys of the platform table are in lower case already. *)
Lemma lower_key (k : string) : In k list_supported_platforms -> Py.lower k = k.
Proof.
  simpl. intros H. repeat (destruct H as [<-|H]; [reflexivity|]). destruct H.
Qed.

(** On a character that does not start a Kelvin sign, and so on every
    ASCII character, [lower] works character by character. *)
Lemma lower_cons (c : ascii) (s : string) :
  c <> ascii_of_nat 226 ->
  Py.lower (String c s) = String (Py.lower_ascii c) (Py.lower s).
Proof.
  intros Hc. destruct s as [|c2 [|c3 s3]]; try reflexivity.
  cbn [Py.lower]. unfold Py.is_kelvin_sign.
  destruct (Ascii.eqb_spec c (ascii_of_nat 226)) as [E|_]; [contradiction|reflexivity].
Qed.

Lemma lower_kelvin_sign (s : string) :
  Py.lower (Py.kelvin_sign +:+ s) = String "k" (Py.lower s).
Proof. reflexivity. Qed.

(** What [add_job] stores: the job is pending, has no outputs and no error
    message, and its platforms are the lower-cased identifiers, each of them
    supported. *)
Lemma add_job_stores o audio image ps id l o' :
  add_job o audio image ps id = (Returned l, o') ->
  l = length (heap o)
  /\ jobs o' = jobs o ++ [l]
  /\ exists job,
      heap o' = heap o ++ [job]
      /\ audio_file job = audio /\ image_file job = image
      /\ platforms job = map Py.lower ps
      /\ Forall (fun p => supported p = true) (platforms job)
      /\ status job = Pending /\ output_files job = [] /\ error_message job = None.
Proof.
  unfold add_job.
  destruct (path_exists _ audio) as [[|]|x]; [|discriminate|discriminate].
  destruct (path_exists _ image) as [[|]|x]; [|discriminate|discriminate].
  destruct (List.filter _ ps) eqn:Hf; [|discriminate].
  intros [= <- <-]. simpl. split; [reflexivity|]. split; [reflexivity|].
  eexists. split; [reflexivity|]. simpl. repeat split.
  apply Forall_forall. intros p Hp. apply list_elem_of_In, in_map_iff in Hp as (p0 & <- & Hp0).
  destruct (supported p0) eqn:E.
  - apply supported_iff in E. apply supported_iff. rewrite (lower_key _ E). exact E.
  - assert (Hin : In p0 (List.filter (fun p => negb (supported p)) ps)).
    { apply filter_In. split; [exact Hp0|]. rewrite E. reflexivity. }
    rewrite Hf in Hin. destruct Hin.
Qed.

(** What [add_job] leaves behind when it raises. *)
Lemma add_job_raised_unchanged o audio image ps id x o' :
  add_job o audio image ps id = (Raised x, o') -> o' = o.
Proof.
  unfold add_job.
  destruct (path_exists _ audio) as [[|]|y]; [|congruence|congruence].
  destruct (path_exists _ image) as [[|]|y]; [|congruence|congruence].
  destruct (List.filter _ ps); [discriminate|congruence].
Qed.

(** ** C5: a second [process_all_jobs] after a clean run *)

Lemma status_counts_nil o : jobs o = [] -> status_counts o = no_counts.
Proof. unfold status_counts. intros ->. reflexivity. Qed.

(** A call that returns leaves no executor behind, and the counts it
    returns are those of the state it leaves. *)
Lemma process_all_jobs_returns cfg sched o h o' :
  process_all_jobs cfg sched o = Some (Returned h, o') ->
  executor o' = None /\ h = status_counts o'.
Proof.
  unfold process_all_jobs. destruct (executor o) eqn:Hex; [discriminate|].
  unfold begin_processing. destruct (jobs o) as [|l js] eqn:Hj.
  - destruct sched; [|discriminate]. intros [= <- <-]. split; [exact Hex|].
    symmetry. apply status_counts_nil. exact Hj.
  - destruct (jobs_to_process o) as [|t ts].
    + destruct sched; [|discriminate]. intros [= <- <-]. auto.
    + destruct (max_concurrent_jobs cfg <=? 0)%Z.
      * destruct sched; discriminate.
      * destruct (run_pool _ _ _) as [o2|]; [|discriminate].
        unfold end_processing. destruct (executor o2) as [[[|] [|] [|]]|]; try discriminate.
        intros [= <- <-]. auto.
Qed.

Lemma no_pending_nothing_to_process o :
  Forall (fun l => job_status o l = Some Completed) (jobs o) -> jobs_to_process o = [].
Proof.
  unfold jobs_to_process. induction 1 as [|l js Hl _ IH]; [reflexivity|]. simpl.
  unfold has_status at 1. rewrite Hl. simpl. exact IH.
Qed.

(** C5. If a call to [process_all_jobs] returned and left every job
    [Completed], then a second call, with no job added in between, returns
    the same counts for the empty interleaving, and whatever interleaving
    is offered it can only return these counts and the unchanged state: no
    job is dispatched and neither stage is invoked. *)
Theorem process_all_jobs_idempotent cfg sched1 o0 h1 o1 :
  process_all_jobs cfg sched1 o0 = Some (Returned h1, o1) ->
  Forall (fun l => job_status o1 l = Some Completed) (jobs o1) ->
  process_all_jobs cfg [] o1 = Some (Returned h1, o1)
  /\ forall sched2 r2 o2,
      process_all_jobs cfg sched2 o1 = Some (r2, o2) ->
      r2 = Returned h1
      /\ o2 = o1
      /\ worker_calls (new_calls (env o1) (env o2)) = []
      /\ master_calls (new_calls (env o1) (env o2)) = []
      /\ render_calls (new_calls (env o1) (env o2)) = [].
Proof.
  intros H1 Hall. apply process_all_jobs_returns in H1 as [Hex ->].
  assert (Hb : begin_processing cfg o1 = Done (Returned (status_counts o1))).
  { unfold begin_processing. destruct (jobs o1) eqn:Hj.
    - rewrite (status_counts_nil o1 Hj). reflexivity.
    - rewrite <- Hj in Hall. rewrite (no_pending_nothing_to_process o1 Hall). reflexivity. }
  unfold process_all_jobs. rewrite Hex, Hb. split; [reflexivity|].
  intros sched2 r2 o2. destruct sched2; [|discriminate]. intros [= <- <-].
  unfold new_calls. rewrite drop_all. auto.
Qed.

(** ** C4: retrying failed jobs *)

Lemma reset_job_idempotent (j : ProcessingJob) : reset_job (reset_job j) = reset_job j.
Proof. reflexivity. Qed.

Lemma fold_alter_lookup {A : Type} (f : A -> A) (ls : list nat) :
  (forall x, f (f x) = f x) ->
  forall (h : list A) (l : nat),
    fold_left (fun h l => alter f l h) ls h !! l
    = if bool_decide (l ∈ ls) then f <$> h !! l else h !! l.
Proof.
  intros Hf. induction ls as [|x ls IH]; intros h l; cbn [fold_left].
  - rewrite bool_decide_eq_false_2 by apply not_elem_of_nil. reflexivity.
  - rewrite IH. destruct (decide (x = l)) as [->|Hne].
    + rewrite list_lookup_alter_eq.
      rewrite (bool_decide_eq_true_2 (l ∈ l :: ls)) by apply list_elem_of_here.
      destruct (bool_decide (l ∈ ls)); [|reflexivity].
      destruct (h !! l); simpl; [rewrite Hf|]; reflexivity.
    + rewrite list_lookup_alter_ne by exact Hne.
      destruct (bool_decide_reflect (l ∈ ls)) as [Hin|Hin].
      * rewrite bool_decide_eq_true_2 by (apply list_elem_of_further; exact Hin).
        reflexivity.
      * rewrite bool_decide_eq_false_2; [reflexivity|].
        intros H. apply elem_of_cons in H as [?|?]; [congruence|tauto].
Qed.

Lemma reset_failed_lookup o l :
  heap (reset_failed o) !! l
  = if bool_decide (l ∈ get_failed_jobs o) then reset_job <$> heap o !! l
    else heap o !! l.
Proof. apply fold_alter_lookup. exact reset_job_idempotent. Qed.

Lemma has_status_true o st l :
  has_status o st l = true <-> exists j, heap o !! l = Some j /\ status j = st.
Proof.
  unfold has_status, job_status. rewrite bool_decide_eq_true.
  destruct (heap o !! l) as [j|]; simpl; split.
  - intros [= <-]. eauto.
  - intros (j' & [= <-] & ->). reflexivity.
  - discriminate.
  - intros (j' & E & _). discriminate.
Qed.

Lemma has_status_Some o st l j :
  heap o !! l = Some j -> has_status o st l = bool_decide (status j = st).
Proof.
  intros E. unfold has_status, job_status. rewrite E. simpl.
  apply bool_decide_ext. split; congruence.
Qed.

Lemma has_status_None o st l : heap o !! l = None -> has_status o st l = false.
Proof.
  intros E. unfold has_status, job_status. rewrite E. reflexivity.
Qed.

Lemma finish_worker_trace cfg i o o' :
  finish_worker cfg i o = Some o' ->
  exists ex ex' new,
    executor o = Some ex /\ executor o' = Some ex' /\ queue ex' = queue ex
    /\ trace (env o') = trace (env o) ++ new /\ worker_calls new = [].
Proof.
  unfold finish_worker. destruct (executor o) as [[q r f]|]; [|discriminate].
  destruct (r !! i) as [l|]; [|discriminate].
  destruct (heap o !! l) as [job|]; [|discriminate].
  destruct (finish_job cfg (env o) job) as [job' e'] eqn:Hf.
  destruct (finish_job_effect _ _ _ _ _ Hf) as (_ & _ & _ & _ & _ & new & Ht & Hw).
  intros [= <-]. simpl. eauto 10.
Qed.

(** The pool hands the submitted jobs to workers in submission order: what
    has been dispatched so far, followed by what still waits, is what was
    submitted. *)
Lemma run_pool_workers cfg evs :
  forall o o' ex,
    run_pool cfg evs o = Some o' -> executor o = Some ex ->
    exists ex' new,
      executor o' = Some ex'
      /\ trace (env o') = trace (env o) ++ new
      /\ worker_calls new ++ queue ex' = queue ex.
Proof.
  induction evs as [|ev evs IH]; intros o o' ex H Hex; simpl in H.
  - injection H as <-. exists ex, []. rewrite app_nil_r. auto.
  - destruct (pool_step cfg ev o) as [o1|] eqn:Hs; [|discriminate].
    assert (Hstep : exists ex1 new1, executor o1 = Some ex1
                      /\ trace (env o1) = trace (env o) ++ new1
                      /\ worker_calls new1 ++ queue ex1 = queue ex).
    { destruct ev as [|i|i]; simpl in Hs.
      - unfold start_worker in Hs. rewrite Hex in Hs. destruct ex as [[|l q] r f];
          [discriminate|].
        destruct (decide _); [|discriminate]. destruct (heap o !! l); [|discriminate].
        injection Hs as <-. simpl. exists (mkExecutor q (r ++ [l]) f), [CallWorker l]. auto.
      - destruct (finish_worker_trace _ _ _ _ Hs) as (ex0 & ex1 & new & H0 & H1 & Hq & Ht & Hw).
        rewrite Hex in H0. injection H0 as <-. exists ex1, new. rewrite Hw, Hq. auto.
      - unfold collect_result in Hs. rewrite Hex in Hs. destruct ex as [q r f].
        destruct (f !! i) as [l|]; [|discriminate].
        destruct (heap o !! l) as [job|]; [|discriminate].
        destruct (list_index _ _ _); injection Hs as <-; simpl;
          exists (mkExecutor q r (delete i f)), []; rewrite app_nil_r; auto. }
    destruct Hstep as (ex1 & new1 & Hex1 & Ht1 & Hq1).
    destruct (IH _ _ _ H Hex1) as (ex' & new & Hex' & Ht & Hq).
    exists ex', (new1 ++ new). split; [exact Hex'|]. split.
    + rewrite Ht, Ht1, <- app_assoc. reflexivity.
    + unfold worker_calls in *. rewrite omap_app, <- app_assoc, Hq. exact Hq1.
Qed.

(** A call to [process_all_jobs] that returns has run a worker on exactly
    the jobs that were pending when it was called, each once, in list
    order. *)
Lemma process_all_jobs_dispatches cfg sched o h o' :
  process_all_jobs cfg sched o = Some (Returned h, o') ->
  worker_calls (new_calls (env o) (env o')) = jobs_to_process o.
Proof.
  unfold process_all_jobs. destruct (executor o); [discriminate|].
  unfold begin_processing. destruct (jobs o) as [|l0 js] eqn:Hj.
  - destruct sched; [|discriminate]. intros [= _ <-].
    unfold new_calls, jobs_to_process. rewrite drop_all, Hj. reflexivity.
  - destruct (jobs_to_process o) as [|t ts] eqn:Htodo.
    + destruct sched; [|discriminate]. intros [= _ <-].
      unfold new_calls. rewrite drop_all. reflexivity.
    + destruct (max_concurrent_jobs cfg <=? 0)%Z; [destruct sched; discriminate|].
      destruct (run_pool _ _ _) as [o2|] eqn:Hrun; [|discriminate].
      destruct (run_pool_workers _ _ _ _ _ Hrun eq_refl) as (ex' & new & Hex' & Ht & Hq).
      unfold end_processing. rewrite Hex'. destruct ex' as [[|] [|] [|]]; try discriminate.
      intros [= _ <-]. simpl in *. rewrite app_nil_r in Hq.
      rewrite (new_calls_app _ _ _ Ht). exact Hq.
Qed.

(** ** C7: the exported report *)

Lemma status_counts_count o :
  pending (status_counts o) = count_status o Pending
  /\ processing (status_counts o) = count_status o Processing
  /\ completed (status_counts o) = count_status o Completed
  /\ failed (status_counts o) = count_status o Failed.
Proof.
  unfold status_counts, count_status.
  assert (H : forall js c,
    let r := fold_left (fun c l => match heap o !! l with
                                   | Some j => bump (status j) c
                                   | None => c
                                   end) js c in
    pending r = pending c + length (List.filter (has_status o Pending) js)
    /\ processing r = processing c + length (List.filter (has_status o Processing) js)
    /\ completed r = completed c + length (List.filter (has_status o Completed) js)
    /\ failed r = failed c + length (List.filter (has_status o Failed) js)).
  { induction js as [|l js IH]; intros c; [simpl; lia|].
    cbn [fold_left List.filter].
    specialize (IH (match heap o !! l with
                    | Some j => bump (status j) c
                    | None => c
                    end)).
    cbv zeta in IH. destruct IH as (I1 & I2 & I3 & I4). cbv zeta.
    rewrite I1, I2, I3, I4. clear I1 I2 I3 I4.
    destruct (heap o !! l) as [j|] eqn:E.
    - rewrite !(has_status_Some o _ l j E).
      destruct (status j);
        repeat first [rewrite bool_decide_eq_true_2 by reflexivity
                     |rewrite bool_decide_eq_false_2 by discriminate];
        simpl; lia.
    - rewrite !(has_status_None o _ l E). simpl. lia. }
  exact (H (jobs o) no_counts).
Qed.



(** ** Steps and transitions *)

Lemma enter_processing_transition cfg o o' :
  enter_processing cfg o = Some o' -> transition cfg o o'.
Proof.
  unfold enter_processing. destruct (executor o) eqn:Hex; [discriminate|].
  unfold begin_processing. destruct (jobs o) eqn:Hj; [intros [= <-]; constructor|].
  destruct (jobs_to_process o) as [|t ts] eqn:Ht; [intros [= <-]; constructor|].
  destruct (Z.leb_spec (max_concurrent_jobs cfg) 0); intros [= <-]; [constructor|].
  rewrite <- Ht, <- Hj. apply t_submit; [exact Hex| rewrite Ht; discriminate | lia].
Qed.

(** A step of the pool is one transition. *)
Lemma pool_step_transition cfg ev o o' :
  pool_step cfg ev o = Some o' -> transition cfg o o'.
Proof.
  intros H. destruct ev as [|i|i]; simpl in H.
  - unfold start_worker in H. destruct (executor o) as [[[|l q] r f]|] eqn:Hex;
      try discriminate.
    destruct (decide _) as [Hlt|]; [|discriminate].
    destruct (heap o !! l) eqn:Hl; [|discriminate]. injection H as <-.
    apply t_start; [exact Hex|exact Hlt|rewrite Hl; eauto].
  - unfold finish_worker in H. destruct (executor o) as [[q r f]|] eqn:Hex;
      [|discriminate].
    destruct (r !! i) as [l|] eqn:Hi; [|discriminate].
    destruct (heap o !! l) as [job|] eqn:Hl; [|discriminate].
    destruct (finish_job cfg (env o) job) as [job' e'] eqn:Hf. injection H as <-.
    eapply t_finish; eauto.
  - unfold collect_result in H. destruct (executor o) as [[q r f]|] eqn:Hex;
      [|discriminate].
    destruct (f !! i) as [l|] eqn:Hi; [|discriminate].
    destruct (heap o !! l) as [job|] eqn:Hl; [|discriminate].
    destruct (list_index _ _ _) as [k|] eqn:Hk; injection H as <-.
    + eapply t_collect; eauto.
    + eapply t_collect_error; eauto.
Qed.

Lemma pool_step_executor cfg ev o o' :
  pool_step cfg ev o = Some o' -> exists ex, executor o = Some ex.
Proof.
  destruct ev as [|i|i]; simpl;
    [unfold start_worker|unfold finish_worker|unfold collect_result];
    destruct (executor o) as [ex|]; eauto; discriminate.
Qed.

(** Every event is at most two transitions, and the first of them leaves
    the job list as it is. *)
Lemma step_transitions cfg ev o o' :
  step cfg ev o = Some o' ->
  exists o1, transition cfg o o1 /\ transition cfg o1 o' /\ jobs o1 = jobs o.
Proof.
  destruct ev as [a i ps id| | |path| |ev|]; simpl.
  - destruct (executor o) eqn:Hex; [discriminate|]. intros [= <-].
    exists o. split; [constructor|]. split; [|reflexivity]. unfold add_job.
    destruct (path_exists _ a) as [[|]|x]; [|constructor|constructor].
    destruct (path_exists _ i) as [[|]|x]; [|constructor|constructor].
    destruct (List.filter _ ps); [|constructor]. simpl.
    rewrite Hex. apply t_add. exact Hex.
  - intros H. exists o. split; [constructor|]. split; [|reflexivity].
    apply enter_processing_transition. exact H.
  - intros H. exists (reset_failed o).
    split; [|split; [apply enter_processing_transition; exact H|reflexivity]].
    apply t_reset. unfold enter_processing in H. simpl in H.
    destruct (executor o); [discriminate|reflexivity].
  - destruct (executor o) eqn:Hex; [discriminate|]. intros [= <-].
    exists o. split; [constructor|]. split; [|reflexivity]. unfold export_job_report.
    destruct (do_mkdir _ _) as [[u|x] e1]; simpl.
    + destruct (do_write _ _ _) as [r2 e2]. simpl. rewrite Hex.
      apply t_world. exact Hex.
    + rewrite Hex. apply t_world. exact Hex.
  - destruct (executor o) eqn:Hex; [discriminate|]. intros [= <-].
    exists o. split; [constructor|]. split; [|reflexivity]. apply t_clear. exact Hex.
  - intros H. exists o. split; [constructor|]. split; [|reflexivity].
    apply (pool_step_transition cfg ev). exact H.
  - unfold end_processing. destruct (executor o) as [[[|] [|] [|]]|] eqn:Hex;
      try discriminate.
    simpl. intros [= <-]. exists o. split; [constructor|]. split; [|reflexivity].
    apply t_return. exact Hex.
Qed.

(** A property of new orchestrators that every transition preserves holds
    in every reachable state. *)
Lemma reachable_invariant cfg (P : Orchestrator (World := World) -> Prop) :
  (forall w, P (new_orchestrator w)) ->
  (forall o o', P o -> transition cfg o o' -> P o') ->
  forall o, reachable cfg o -> P o.
Proof.
  intros Hinit Hstep o (w & evs & Hrun).
  assert (H : forall evs' o0, P o0 -> steps cfg evs' o0 = Some o -> P o).
  { clear Hrun. intros evs'.
    induction evs' as [|ev evs' IH]; intros o0 H0 Hrun; simpl in Hrun.
    - injection Hrun as <-. exact H0.
    - destruct (step cfg ev o0) as [o1|] eqn:Hs; [|discriminate].
      destruct (step_transitions _ _ _ _ Hs) as (o2 & T1 & T2 & _).
      apply (IH o1); [|exact Hrun]. apply (Hstep o2); [|exact T2].
      apply (Hstep o0); assumption. }
  exact (H evs _ (Hinit w) Hrun).
Qed.

(** ** References stay valid *)

Lemma length_fold_alter {A : Type} (f : A -> A) (ls : list nat) (h : list A) :
  length (fold_left (fun h l => alter f l h) ls h) = length h.
Proof.
  revert h. induction ls as [|x ls IH]; intros h; simpl; [reflexivity|].
  rewrite IH. apply length_alter.
Qed.

Lemma transition_valid cfg o o' :
  valid_refs o -> transition cfg o o' -> valid_refs o'.
Proof.
  unfold valid_refs. intros Hv T. destruct T; simpl.
  - exact Hv.
  - rewrite length_app. simpl. apply Forall_app. split.
    + eapply Forall_impl; [exact Hv|]. simpl. intros. lia.
    + constructor; [lia|constructor].
  - rewrite length_fold_alter. exact Hv.
  - constructor.
  - exact Hv.
  - exact Hv.
  - rewrite length_alter. exact Hv.
  - rewrite length_insert. exact Hv.
  - apply Forall_insert; [exact Hv|]. eapply lookup_lt_Some. eassumption.
  - rewrite length_alter. exact Hv.
  - exact Hv.
Qed.

Lemma reachable_valid_refs cfg o : reachable cfg o -> valid_refs o.
Proof.
  apply reachable_invariant.
  - intros w. constructor.
  - intros o1 o2. apply transition_valid.
Qed.

(** ** C9: the concurrency bound *)

Lemma in_delete_other {A : Type} (r : list A) (i : nat) (x y : A) :
  r !! i = Some x -> y <> x -> In y r -> In y (delete i r).
Proof.
  intros Hi Hne Hin. rewrite delete_take_drop.
  rewrite <- (take_drop_middle r i x Hi) in Hin.
  apply in_app_or in Hin as [Hin|[Heq|Hin]].
  - apply in_or_app. auto.
  - congruence.
  - apply in_or_app. auto.
Qed.

Lemma transition_bounded cfg o o' :
  bounded cfg o -> transition cfg o o' -> bounded cfg o'.
Proof.
  unfold bounded. intros Hb T. destruct T as
    [o|o audio image ps id Hex|o Hex|o Hex|o e0 Hex|o Hex Htodo Hmax
    |o l q r f Hex Hlt Hl|o q r f i l job job' e' Hex Hi Hl Hf
    |o q r f i l job k Hex Hi Hl Hk|o q r f i l job Hex Hi Hl Hk|o Hex]; simpl; try rewrite Hex in Hb; simpl in Hb.
  - exact Hb.
  - intros l j Hl. apply lookup_app_Some in Hl as [Hl|[_ Hl]]; [eauto|].
    apply list_lookup_singleton_Some in Hl as [_ <-]. discriminate.
  - rewrite Hex. intros l j.
    rewrite (fold_alter_lookup reset_job _ reset_job_idempotent).
    destruct (bool_decide _); [|apply Hb].
    destruct (heap o !! l); simpl; [|discriminate]. intros [= <-]. discriminate.
  - rewrite Hex. exact Hb.
  - exact Hb.
  - split; [|lia]. intros l j Hl Hst. exfalso. exact (Hb l j Hl Hst).
  - destruct Hb as [Hrun Hlen]. split; [|rewrite length_app; simpl; lia].
    intros l' j Hl'. rewrite list_lookup_alter in Hl'.
    destruct (decide (l = l')) as [<-|Hne].
    + intros _. apply in_or_app. right. left. reflexivity.
    + intros Hst. apply in_or_app. left. eauto.
  - destruct Hb as [Hrun Hlen]. split.
    + intros l' j Hl'. destruct (decide (l = l')) as [<-|Hne].
      * rewrite list_lookup_insert_eq in Hl' by (eapply lookup_lt_Some; eassumption).
        injection Hl' as <-.
        destruct (finish_job_effect _ _ _ _ _ Hf) as (_ & _ & _ & _ & Hst & _).
        destruct Hst as [[Hst _]|[Hst _]]; rewrite Hst; discriminate.
      * rewrite list_lookup_insert_ne in Hl' by exact Hne.
        intros Hst. apply (in_delete_other r i l); eauto.
    + rewrite length_delete by eauto. lia.
  - exact Hb.
  - destruct Hb as [Hrun Hlen]. split; [|exact Hlen].
    intros l' j Hl'. rewrite list_lookup_alter in Hl'.
    destruct (decide (l = l')) as [<-|Hne]; [|eauto].
    rewrite Hl in Hl'. simpl in Hl'. injection Hl' as <-. discriminate.
  - destruct Hb as [Hrun _]. intros l j Hl Hst. exact (Hrun l j Hl Hst).
Qed.

Lemma reachable_bounded cfg o : reachable cfg o -> bounded cfg o.
Proof.
  apply reachable_invariant.
  - intros w l j Hl. discriminate.
  - intros o1 o2. apply transition_bounded.
Qed.

Lemma processing_jobs_spec o l :
  In l (processing_jobs o) <-> exists j, heap o !! l = Some j /\ status j = Processing.
Proof.
  unfold processing_jobs. rewrite filter_In, has_status_true, in_seq. split.
  - tauto.
  - intros (j & Hl & Hst). split; [|eauto].
    split; [lia|]. simpl. eapply lookup_lt_Some. eassumption.
Qed.

Lemma bounded_length cfg o (ls : list nat) :
  bounded cfg o -> NoDup ls ->
  (forall l, In l ls -> exists j, heap o !! l = Some j /\ status j = Processing) ->
  length ls <= Z.to_nat (max_concurrent_jobs cfg).
Proof.
  unfold bounded. intros Hb Hnd Hls. destruct (executor o) as [ex|].
  - destruct Hb as [Hrun Hlen].
    transitivity (length (running ex)); [|exact Hlen].
    apply submseteq_length, NoDup_submseteq; [exact Hnd|].
    intros l Hl. apply list_elem_of_In. apply list_elem_of_In in Hl.
    destruct (Hls l Hl) as (j & Hj & Hst). eauto.
  - destruct ls as [|l ls]; [simpl; lia|].
    destruct (Hls l (or_introl eq_refl)) as (j & Hj & Hst). destruct (Hb l j Hj Hst).
Qed.

(** C9. In every state an orchestrator can reach, whatever calls of
    [add_job], [process_all_jobs], [retry_failed_jobs], [export_job_report]
    and [clear_jobs] the client has made before, and so at every instant
    of every interleaving of every [process_all_jobs] run, the jobs whose
    status is [Processing] are no more than the pool has workers: their
    number is at most [max_concurrent_jobs] (for a size that is not
    positive no pool is created and no job is ever processing). The same
    bound holds for the number of entries of the job list that are
    processing, as long as no job is listed twice. *)
Theorem processing_never_exceeds_pool_size cfg o :
  reachable cfg o ->
  length (processing_jobs o) <= Z.to_nat (max_concurrent_jobs cfg)
  /\ ((0 <= max_concurrent_jobs cfg)%Z ->
      (Z.of_nat (length (processing_jobs o)) <= max_concurrent_jobs cfg)%Z)
  /\ (NoDup (jobs o) ->
      count_status o Processing <= Z.to_nat (max_concurrent_jobs cfg)).
Proof.
  intros Hr. pose proof (reachable_bounded cfg o Hr) as Hb.
  assert (H : length (processing_jobs o) <= Z.to_nat (max_concurrent_jobs cfg)).
  { apply (bounded_length cfg o); [exact Hb| |].
    - unfold processing_jobs.
      apply NoDup_ListNoDup, List.NoDup_filter, NoDup_ListNoDup, NoDup_seq.
    - intros l Hl. apply processing_jobs_spec. exact Hl. }
  split; [exact H|]. split; [lia|].
  intros Hnd. unfold count_status. apply (bounded_length cfg o); [exact Hb| |].
  - apply NoDup_ListNoDup, List.NoDup_filter, NoDup_ListNoDup. exact Hnd.
  - intros l Hl. apply filter_In in Hl as [_ Hl]. apply has_status_true. exact Hl.
Qed.

(** ** C8: error messages and failure *)

Lemma job_eqb_job_id (a b : ProcessingJob) : job_eqb a b = true -> job_id a = job_id b.
Proof.
  unfold job_eqb. intros H. repeat (apply andb_true_iff in H as [H _]).
  apply bool_decide_eq_true in H. exact H.
Qed.

Lemma same_job_id (h : list ProcessingJob) (x l : nat) :
  same_job h x l = true -> job_id <$> h !! x = job_id <$> h !! l.
Proof.
  unfold same_job. intros H. apply orb_true_iff in H as [H|H].
  - apply Nat.eqb_eq in H. subst x. reflexivity.
  - destruct (h !! x), (h !! l); try discriminate. simpl. f_equal.
    apply job_eqb_job_id. exact H.
Qed.

Lemma list_index_Some (h : list ProcessingJob) (l : nat) (js : list nat) (k : nat) :
  list_index h l js = Some k -> exists x, js !! k = Some x /\ same_job h x l = true.
Proof.
  revert k. induction js as [|y js IH]; intros k; simpl; [discriminate|].
  destruct (same_job h y l) eqn:E.
  - intros [= <-]. exists y. auto.
  - destruct (list_index h l js) as [k'|]; [|discriminate]. simpl. intros [= <-].
    destruct (IH k' eq_refl) as (x & Hx & Hs). exists x. auto.
Qed.

Lemma list_index_None (h : list ProcessingJob) (l : nat) (js : list nat) :
  list_index h l js = None -> ~ In l js.
Proof.
  induction js as [|y js IH]; simpl; [tauto|].
  destruct (same_job h y l) eqn:E; [discriminate|].
  destruct (list_index h l js); [discriminate|]. intros _ [->|Hin]; [|tauto].
  unfold same_job in E. rewrite Nat.eqb_refl in E. discriminate.
Qed.

Lemma listed_ids_ext (h h' : list ProcessingJob) (js : list nat) :
  (forall l, In l js -> job_id <$> h' !! l = job_id <$> h !! l) ->
  map (fun l => job_id <$> h' !! l) js = map (fun l => job_id <$> h !! l) js.
Proof. intros H. apply map_ext_in. exact H. Qed.

(** No transition changes the id behind an entry of the job list; the list
    of ids only grows at its end. *)
Lemma transition_ids cfg o o' :
  valid_refs o -> transition cfg o o' ->
  (exists k, listed_ids o' = listed_ids o ++ k)
  \/ o' = clear_jobs o /\ executor o = None.
Proof.
  unfold listed_ids, valid_refs. intros Hv T.
  destruct T as
    [o|o audio image ps id Hex|o Hex|o Hex|o e0 Hex|o Hex Htodo Hmax
    |o l q r f Hex Hlt Hl|o q r f i l job job' e' Hex Hi Hl Hf
    |o q r f i l job k Hex Hi Hl Hk|o q r f i l job Hex Hi Hl Hk|o Hex]; simpl;
    [left|left|left|right; auto|left|left|left|left|left|left|left].
  - exists []. rewrite app_nil_r. reflexivity.
  - eexists. rewrite map_app. f_equal. apply listed_ids_ext.
    intros l Hin. rewrite lookup_app_l; [reflexivity|].
    exact (proj1 (Forall_forall _ _) Hv l (proj2 (list_elem_of_In _ _) Hin)).
  - exists []. rewrite app_nil_r. apply listed_ids_ext. intros l _.
    rewrite (fold_alter_lookup reset_job _ reset_job_idempotent).
    destruct (bool_decide _); [|reflexivity]. destruct (heap o !! l); reflexivity.
  - exists []. rewrite app_nil_r. reflexivity.
  - exists []. rewrite app_nil_r. reflexivity.
  - exists []. rewrite app_nil_r. apply listed_ids_ext. intros l' _.
    rewrite list_lookup_alter. destruct (decide (l = l')) as [<-|]; [|reflexivity].
    destruct (heap o !! l); reflexivity.
  - exists []. rewrite app_nil_r. apply listed_ids_ext. intros l' _.
    destruct (decide (l = l')) as [<-|Hne].
    + rewrite list_lookup_insert_eq by (eapply lookup_lt_Some; eassumption).
      rewrite Hl. simpl. f_equal.
      destruct (finish_job_effect _ _ _ _ _ Hf) as (Hid & _). exact Hid.
    + rewrite list_lookup_insert_ne by exact Hne. reflexivity.
  - exists []. rewrite app_nil_r.
    destruct (list_index_Some _ _ _ _ Hk) as (x & Hx & Hs).
    apply same_job_id in Hs.
    change (map (fun l0 => job_id <$> heap o !! l0) (<[k:=l]> (jobs o)))
      with ((fun l0 => job_id <$> heap o !! l0) <$> <[k:=l]> (jobs o)).
    rewrite list_fmap_insert. apply list_insert_id.
    rewrite list_lookup_fmap, Hx. simpl. f_equal. exact Hs.
  - exists []. rewrite app_nil_r. apply listed_ids_ext. intros l' _.
    rewrite list_lookup_alter. destruct (decide (l = l')) as [<-|]; [|reflexivity].
    destruct (heap o !! l); reflexivity.
  - exists []. rewrite app_nil_r. reflexivity.
Qed.

Lemma listed_ids_inj o (x l : nat) :
  NoDup (listed_ids o) -> In x (jobs o) -> In l (jobs o) ->
  job_id <$> heap o !! x = job_id <$> heap o !! l -> x = l.
Proof.
  unfold listed_ids. generalize (jobs o) as js. intros js.
  induction js as [|y js IH]; simpl; [tauto|]. intros Hnd.
  apply NoDup_cons in Hnd as [Hy Hnd].
  assert (Hno : forall z, In z js -> job_id <$> heap o !! y = job_id <$> heap o !! z -> False).
  { intros z Hz E. apply Hy. rewrite E. apply list_elem_of_In.
    apply (in_map (fun l0 => job_id <$> heap o !! l0)). exact Hz. }
  intros [->|Hx] [->|Hl] E; auto.
  - exfalso. eauto.
  - exfalso. eauto.
Qed.

Lemma listed_ids_nodup_jobs o : NoDup (listed_ids o) -> NoDup (jobs o).
Proof. unfold listed_ids. apply (NoDup_fmap_1 (fun l => job_id <$> heap o !! l)). Qed.

Lemma consistent_not_failed (j : ProcessingJob) :
  consistent j -> status j <> Failed -> error_message j = None.
Proof.
  unfold consistent. intros [H _] Hst. destruct (error_message j); [|reflexivity].
  exfalso. apply Hst, H. discriminate.
Qed.

Lemma consistent_fail_with (m : string) (j : ProcessingJob) : consistent (fail_with m j).
Proof. unfold consistent. simpl. split; [reflexivity|discriminate]. Qed.

Lemma not_in_delete {A : Type} (r : list A) (i : nat) (x : A) :
  NoDup r -> r !! i = Some x -> ~ In x (delete i r).
Proof.
  intros Hnd Hi. rewrite delete_take_drop.
  rewrite <- (take_drop_middle r i x Hi) in Hnd.
  apply NoDup_app in Hnd as (_ & Hdis & Hnd). apply NoDup_cons in Hnd as [Hx _].
  intros Hin. apply in_app_or in Hin as [Hin|Hin].
  - apply (Hdis x); [apply list_elem_of_In; exact Hin|apply list_elem_of_here].
  - apply Hx, list_elem_of_In. exact Hin.
Qed.

Lemma in_delete_inv {A : Type} (r : list A) (i : nat) (x : A) :
  In x (delete i r) -> In x r.
Proof.
  intros H. apply list_elem_of_In. apply list_elem_of_In in H.
  eapply list_elem_of_delete_inv. exact H.
Qed.

(** As long as the listed ids are pairwise different, every transition
    keeps the jobs and the pool coherent. *)
Lemma transition_coherent cfg o o' :
  valid_refs o -> NoDup (listed_ids o) -> coherent o -> transition cfg o o' ->
  coherent o'.
Proof.
  intros Hv Hids [HC HE] T.
  destruct T as
    [o|o audio image ps id Hex|o Hex|o Hex|o e0 Hex|o Hex Htodo Hmax
    |o l q r f Hex Hlt Hl|o q r f i l job job' e' Hex Hi Hl Hf
    |o q r f i l job k Hex Hi Hl Hk|o q r f i l job Hex Hi Hl Hk|o Hex]; try rewrite Hex in HE.
  - split; assumption.
  - split; [|exact I]. simpl. intros l j Hin Hl.
    apply in_app_or in Hin as [Hin|[<-|[]]].
    + rewrite lookup_app_l in Hl; [eauto|].
      exact (proj1 (Forall_forall _ _) Hv l (proj2 (list_elem_of_In _ _) Hin)).
    + rewrite lookup_app_r, Nat.sub_diag in Hl by lia. injection Hl as <-.
      unfold consistent. simpl. split; [congruence|discriminate].
  - split.
    + intros l j Hin. rewrite reset_failed_lookup.
      destruct (bool_decide _); [|eauto].
      destruct (heap o !! l); simpl; [|discriminate]. intros [= <-].
      unfold consistent. simpl. split; [congruence|discriminate].
    + simpl. rewrite Hex. exact I.
  - split; [intros l j []|]. simpl. rewrite Hex. exact I.
  - split; [exact HC|exact I].
  - split; [exact HC|]. simpl. rewrite app_nil_r. split; [|split; [|split]].
    + unfold jobs_to_process. apply NoDup_ListNoDup, List.NoDup_filter, NoDup_ListNoDup.
      apply listed_ids_nodup_jobs. exact Hids.
    + intros l Hin. unfold jobs_to_process in Hin. apply filter_In in Hin as [Hin Hst].
      split; [exact Hin|]. unfold has_status in Hst. apply bool_decide_eq_true in Hst.
      exact Hst.
    + intros l [].
    + intros l [].
  - simpl in HE. destruct HE as (Hnd & HQ & HR & HF).
    apply NoDup_cons in Hnd as [Hl_out Hnd].
    assert (Hother : forall l', In l' (q ++ r) -> l <> l').
    { intros l' Hin ->. apply Hl_out, list_elem_of_In. exact Hin. }
    destruct Hl as [j0 Hl].
    destruct (HQ l (or_introl eq_refl)) as [Hjobs Hst].
    unfold job_status in Hst. rewrite Hl in Hst. injection Hst as Hst.
    assert (Herr : error_message j0 = None).
    { apply consistent_not_failed; [eauto|congruence]. }
    split; simpl.
    + intros l' j Hin. rewrite list_lookup_alter.
      destruct (decide (l = l')) as [<-|Hne]; [|eauto].
      rewrite Hl. simpl. intros [= <-]. unfold consistent. simpl. rewrite Herr.
      split; [congruence|discriminate].
    + split; [|split; [|split]].
      * rewrite app_assoc. apply NoDup_app. split; [exact Hnd|].
        split; [|apply NoDup_singleton].
        intros x Hx Hx'. apply list_elem_of_singleton in Hx'. subst x. contradiction.
      * intros l' Hin. destruct (HQ l' (or_intror Hin)) as [Hj Hs]. split; [exact Hj|].
        unfold job_status in *. simpl. rewrite list_lookup_alter_ne; [exact Hs|].
        apply Hother, in_or_app. auto.
      * intros l' Hin. apply in_app_or in Hin as [Hin|[<-|[]]].
        -- destruct (HR l' Hin) as [Hj Hs]. split; [exact Hj|].
           unfold job_status in *. simpl. rewrite list_lookup_alter_ne; [exact Hs|].
           apply Hother, in_or_app. auto.
        -- split; [exact Hjobs|]. unfold job_status. simpl.
           rewrite list_lookup_alter_eq, Hl. reflexivity.
      * exact HF.
  - simpl in HE. destruct HE as (Hnd & HQ & HR & HF).
    assert (Hlr : In l r) by (apply list_elem_of_In; eapply list_elem_of_lookup_2; eauto).
    destruct (HR l Hlr) as [Hjobs Hst].
    unfold job_status in Hst. rewrite Hl in Hst. injection Hst as Hst.
    assert (Herr : error_message job = None).
    { apply consistent_not_failed; [eauto|congruence]. }
    destruct (finish_job_effect _ _ _ _ _ Hf) as (_ & _ & _ & _ & Hres & _).
    assert (Hcons : consistent job').
    { unfold consistent. destruct Hres as [[Hs He]|[Hs He]]; rewrite Hs.
      - rewrite He, Herr. split; [congruence|discriminate].
      - split; [reflexivity|intros _; exact He]. }
    apply NoDup_app in Hnd as (Hndq & Hdis & Hndr).
    assert (Hq_other : forall l', In l' q -> l <> l').
    { intros l' Hin ->. apply (Hdis l'); apply list_elem_of_In; assumption. }
    assert (Hr_other : forall l', In l' (delete i r) -> l <> l').
    { intros l' Hin ->. exact (not_in_delete r i l' Hndr Hi Hin). }
    split; simpl.
    + intros l' j Hin. destruct (decide (l = l')) as [<-|Hne].
      * rewrite list_lookup_insert_eq by (eapply lookup_lt_Some; eassumption).
        intros [= <-]. exact Hcons.
      * rewrite list_lookup_insert_ne by exact Hne. eauto.
    + split; [|split; [|split]].
      * apply NoDup_app. split; [exact Hndq|]. split.
        -- intros x Hx Hx'. apply (Hdis x Hx). eapply list_elem_of_delete_inv. exact Hx'.
        -- apply (sublist_NoDup (delete i r) r); [exact Hndr|apply sublist_delete].
      * intros l' Hin. destruct (HQ l' Hin) as [Hj Hs]. split; [exact Hj|].
        unfold job_status in *. simpl. rewrite list_lookup_insert_ne; [exact Hs|]. auto.
      * intros l' Hin. destruct (HR l' (in_delete_inv _ _ _ Hin)) as [Hj Hs].
        split; [exact Hj|].
        unfold job_status in *. simpl. rewrite list_lookup_insert_ne; [exact Hs|]. auto.
      * intros l' Hin. apply in_app_or in Hin as [Hin|[<-|[]]]; auto.
  - simpl in HE. destruct HE as (Hnd & HQ & HR & HF).
    assert (Hlf : In l f) by (apply list_elem_of_In; eapply list_elem_of_lookup_2; eauto).
    pose proof (HF l Hlf) as Hjobs.
    destruct (list_index_Some _ _ _ _ Hk) as (x & Hx & Hs).
    assert (Hxj : In x (jobs o)).
    { apply list_elem_of_In. eapply list_elem_of_lookup_2. exact Hx. }
    assert (x = l) by (apply (listed_ids_inj o); auto using same_job_id). subst x.
    rewrite (list_insert_id _ _ _ Hx).
    split; [exact HC|]. simpl. split; [exact Hnd|]. split; [exact HQ|]. split; [exact HR|].
    intros l' Hin. apply HF. eapply in_delete_inv. exact Hin.
  - simpl in HE. destruct HE as (_ & _ & _ & HF). exfalso.
    apply (list_index_None _ _ _ Hk), HF, list_elem_of_In.
    eapply list_elem_of_lookup_2. exact Hi.
  - split; [exact HC|exact I].
Qed.

Lemma reachable_coherent cfg o :
  reachable cfg o -> NoDup (listed_ids o) -> coherent o.
Proof.
  intros Hr.
  enough (H : valid_refs o /\ (NoDup (listed_ids o) -> coherent o)) by tauto.
  revert o Hr. apply reachable_invariant.
  - intros w. split; [constructor|]. intros _. split; [|exact I]. intros l j [].
  - intros o o' [Hv Hc] T. split; [exact (transition_valid _ _ _ Hv T)|].
    intros Hids. destruct (transition_ids _ _ _ Hv T) as [(k & Hk)|[Hclear Hex]].
    + rewrite Hk in Hids. apply NoDup_app in Hids as (Hids & _).
      exact (transition_coherent _ _ _ Hv Hids (Hc Hids) T).
    + rewrite Hclear. split; [intros l j []|]. simpl. rewrite Hex. exact I.
Qed.

Lemma listed_ids_job_ids o : valid_refs o -> listed_ids o = map Some (job_ids o).
Proof.
  unfold listed_ids, job_ids, job_list, valid_refs.
  induction 1 as [|l js Hl _ IH]; simpl; [reflexivity|].
  destruct (lookup_lt_is_Some_2 _ _ Hl) as [j Hj]. rewrite Hj. simpl. f_equal. exact IH.
Qed.

(** C8 (as amended). In every state an orchestrator can reach in which
    the ids of its jobs are pairwise different, every job of the list has
    an error message exactly when its status is [Failed]. *)
Theorem error_message_iff_failed cfg o :
  reachable cfg o ->
  NoDup (job_ids o) ->
  forall l j, In l (jobs o) -> heap o !! l = Some j ->
              (error_message j <> None <-> status j = Failed).
Proof.
  intros Hr Hids. pose proof (reachable_valid_refs cfg o Hr) as Hv.
  assert (Hl : NoDup (listed_ids o)).
  { rewrite (listed_ids_job_ids o Hv). apply (NoDup_fmap_2 Some). exact Hids. }
  destruct (reachable_coherent cfg o Hr Hl) as [HC _]. exact HC.
Qed.

(** ** [process_all_jobs] returns *)

Lemma run_pool_sequential cfg :
  (0 < max_concurrent_jobs cfg)%Z ->
  forall q o,
    executor o = Some (mkExecutor q [] []) ->
    Forall (fun l => l < length (heap o)) q ->
    exists o', run_pool cfg (sequential_schedule (length q)) o = Some o'
               /\ executor o' = Some (mkExecutor [] [] []).
Proof.
  intros Hmax q. induction q as [|l q IH]; intros o Hex Hq.
  - exists o. split; [reflexivity|exact Hex].
  - apply Forall_cons in Hq as [Hl Hq].
    destruct (lookup_lt_is_Some_2 _ _ Hl) as [j Hj].
    destruct (finish_job cfg (mkEnv (world (env o)) (trace (env o) ++ [CallWorker l]))
                         (set_status Processing j)) as [job' e'] eqn:Hf.
    set (h1 := alter (set_status Processing) l (heap o)).
    set (h2 := <[l := job']> h1).
    assert (Hlen : length h2 = length (heap o)).
    { unfold h2, h1. rewrite length_insert, length_alter. reflexivity. }
    assert (Hh2 : h2 !! l = Some job').
    { unfold h2, h1. apply list_lookup_insert_eq. rewrite length_alter. exact Hl. }
    assert (Hnext : forall js,
              exists o', run_pool cfg (sequential_schedule (length q))
                           (mkOrch h2 js e' (Some (mkExecutor q [] []))) = Some o'
                         /\ executor o' = Some (mkExecutor [] [] [])).
    { intros js. apply IH; [reflexivity|]. simpl. rewrite Hlen. exact Hq. }
    cbn [length sequential_schedule run_pool pool_step].
    unfold start_worker. rewrite Hex, Hj.
    destruct (decide (length (@nil nat) < Z.to_nat (max_concurrent_jobs cfg)))
      as [_|Hn]; [|simpl in Hn; lia].
    unfold finish_worker. cbn [executor heap env jobs app].
    change ([l] !! 0) with (Some l). cbn iota beta.
    fold h1. assert (Hh1 : h1 !! l = Some (set_status Processing j)).
    { unfold h1. rewrite list_lookup_alter_eq, Hj. reflexivity. }
    rewrite Hh1, Hf. fold h2.
    unfold collect_result. cbn [executor heap env jobs app delete].
    change ([l] !! 0) with (Some l). cbn iota beta. rewrite Hh2.
    destruct (list_index h2 l (jobs o)) as [k|].
    + apply Hnext.
    + apply IH; [reflexivity|]. simpl. rewrite length_alter, Hlen. exact Hq.
Qed.

(** With a pool of at least one worker, [process_all_jobs] returns for
    some interleaving of its pool. *)
Lemma process_all_jobs_total cfg o :
  valid_refs o -> executor o = None -> (0 < max_concurrent_jobs cfg)%Z ->
  exists sched h o', process_all_jobs cfg sched o = Some (Returned h, o').
Proof.
  intros Hv Hex Hmax. unfold process_all_jobs. rewrite Hex.
  unfold begin_processing. destruct (jobs o) as [|l0 js] eqn:Hj.
  - exists [], no_counts, o. reflexivity.
  - destruct (jobs_to_process o) as [|t ts] eqn:Ht.
    + exists [], (status_counts o), o. reflexivity.
    + destruct (Z.leb_spec (max_concurrent_jobs cfg) 0) as [|_]; [lia|].
      destruct (run_pool_sequential cfg Hmax (t :: ts)
                  (mkOrch (heap o) (l0 :: js) (env o) (Some (mkExecutor (t :: ts) [] []))))
        as (o' & Hrun & Hex'); [reflexivity| |].
      * simpl. rewrite <- Ht. unfold jobs_to_process.
        apply Forall_forall. intros l Hl. apply list_elem_of_In, filter_In in Hl as [Hl _].
        exact (proj1 (Forall_forall _ _) Hv l (proj2 (list_elem_of_In _ _) Hl)).
      * exists (sequential_schedule (length (t :: ts))). rewrite Hrun.
        unfold end_processing. rewrite Hex'. eauto.
Qed.

Lemma reset_failed_valid o : valid_refs o -> valid_refs (reset_failed o).
Proof. unfold valid_refs. simpl. rewrite length_fold_alter. auto. Qed.

(** ** What a run of the pool keeps and what it changes *)

Lemma in_insert_inv {A : Type} (ls : list A) (i : nat) (x y : A) :
  In y (<[i := x]> ls) -> y = x \/ In y ls.
Proof.
  revert i. induction ls as [|z ls IH]; intros [|i]; simpl; auto.
  - intros [<-|H]; auto.
  - intros [<-|H]; auto. destruct (IH i H); auto.
Qed.

(** Every step of the orchestrator keeps [pool_progress]. *)
Lemma transition_progress cfg o o' :
  pool_progress o -> transition cfg o o' -> pool_progress o'.
Proof.
  unfold pool_progress. intros Hp T. destruct T as
    [o|o audio image ps id Hex|o Hex|o Hex|o e0 Hex|o Hex Htodo Hmax
    |o l q r f Hex Hlt Hl|o q r f i l job job' e' Hex Hi Hl Hf
    |o q r f i l job k Hex Hi Hl Hk|o q r f i l job Hex Hi Hl Hk|o Hex]; simpl; try rewrite Hex in Hp; simpl in Hp.
  - exact Hp.
  - exact I.
  - rewrite Hex. exact I.
  - rewrite Hex. exact I.
  - exact I.
  - split; [|intros l []].
    intros l Hin Hs. apply filter_In. split; [exact Hin|].
    apply bool_decide_eq_true. exact Hs.
  - destruct Hp as [Hq Hr]. destruct Hl as [j Hj]. split.
    + intros l' Hin Hs. unfold job_status in Hs. simpl in Hs.
      destruct (decide (l = l')) as [<-|Hne].
      * rewrite list_lookup_alter_eq, Hj in Hs. discriminate.
      * rewrite list_lookup_alter_ne in Hs by exact Hne.
        destruct (Hq l' Hin Hs) as [->|H]; [contradiction|exact H].
    + intros l' Hin Hs. unfold job_status in Hs. simpl in Hs.
      destruct (decide (l = l')) as [<-|Hne].
      * rewrite list_lookup_alter_eq, Hj in Hs. discriminate.
      * rewrite list_lookup_alter_ne in Hs by exact Hne.
        apply (Hr l'); [|exact Hs].
        rewrite !in_app_iff in Hin. simpl in Hin. rewrite in_app_iff.
        destruct Hin as [[H|[H|[]]]|H]; auto. contradiction.
  - destruct Hp as [Hq Hr].
    assert (Hterm : status job' <> Pending).
    { destruct (finish_job_effect _ _ _ _ _ Hf) as (_ & _ & _ & _ & Hst & _).
      destruct Hst as [[Hst _]|[Hst _]]; rewrite Hst; discriminate. }
    assert (Hlr : In l r) by (apply list_elem_of_In; eapply list_elem_of_lookup_2; eauto).
    assert (Hlt : l < length (heap o)) by (eapply lookup_lt_Some; eassumption).
    split.
    + intros l' Hin Hs. unfold job_status in Hs. simpl in Hs.
      destruct (decide (l = l')) as [<-|Hne].
      * rewrite list_lookup_insert_eq in Hs by exact Hlt. simpl in Hs. congruence.
      * rewrite list_lookup_insert_ne in Hs by exact Hne. exact (Hq l' Hin Hs).
    + intros l' Hin Hs. unfold job_status in Hs. simpl in Hs.
      destruct (decide (l = l')) as [<-|Hne].
      * rewrite list_lookup_insert_eq in Hs by exact Hlt. simpl in Hs. congruence.
      * rewrite list_lookup_insert_ne in Hs by exact Hne.
        apply (Hr l'); [|exact Hs].
        rewrite !in_app_iff in Hin. simpl in Hin. rewrite in_app_iff.
        destruct Hin as [H|[H|[H|[]]]]; auto; [|contradiction].
        left. eapply in_delete_inv. exact H.
  - destruct Hp as [Hq Hr].
    assert (Hlf : In l f) by (apply list_elem_of_In; eapply list_elem_of_lookup_2; eauto).
    split.
    + intros l' Hin Hs.
      assert (Hs' : job_status o l' = Some Pending) by exact Hs.
      apply in_insert_inv in Hin as [->|Hin].
      * exfalso. apply (Hr l); [apply in_or_app; auto|exact Hs'].
      * apply Hq; [exact Hin|exact Hs'].
    + intros l' Hin Hs. apply (Hr l'); [|exact Hs].
      rewrite in_app_iff in Hin. rewrite in_app_iff.
      destruct Hin as [H|H]; auto. right. eapply in_delete_inv. exact H.
  - destruct Hp as [Hq Hr].
    split.
    + intros l' Hin Hs. unfold job_status in Hs. simpl in Hs.
      destruct (decide (l = l')) as [<-|Hne].
      * rewrite list_lookup_alter_eq, Hl in Hs. discriminate.
      * rewrite list_lookup_alter_ne in Hs by exact Hne. exact (Hq l' Hin Hs).
    + intros l' Hin Hs. unfold job_status in Hs. simpl in Hs.
      destruct (decide (l = l')) as [<-|Hne].
      * rewrite list_lookup_alter_eq, Hl in Hs. discriminate.
      * rewrite list_lookup_alter_ne in Hs by exact Hne.
        apply (Hr l'); [|exact Hs].
        rewrite in_app_iff in Hin. rewrite in_app_iff.
        destruct Hin as [H|H]; auto. right. eapply in_delete_inv. exact H.
  - exact I.
Qed.

(** A property that every step keeps holds throughout a run of the pool. *)
Lemma run_pool_invariant cfg (P : Orchestrator (World := World) -> Prop) :
  (forall o o', P o -> transition cfg o o' -> P o') ->
  forall evs o o', P o -> run_pool cfg evs o = Some o' -> P o'.
Proof.
  intros Hstep. induction evs as [|ev evs IH]; intros o o' HP H; simpl in H.
  - injection H as <-. exact HP.
  - destruct (pool_step cfg ev o) as [o1|] eqn:E; [|discriminate].
    apply (IH o1); [|exact H].
    eapply Hstep; [exact HP|]. apply (pool_step_transition cfg ev). exact E.
Qed.

(** The state in which [process_all_jobs] leaves its [with] block. *)
Lemma process_all_jobs_invariant cfg (P : Orchestrator (World := World) -> Prop) :
  (forall o o', P o -> transition cfg o o' -> P o') ->
  forall sched o r o',
    P o -> process_all_jobs cfg sched o = Some (r, o') ->
    P o'
    /\ match begin_processing cfg o with
       | Done r0 => o' = o /\ r = r0
       | Started _ =>
           exists o2, P o2 /\ executor o2 = Some (mkExecutor [] [] [])
                      /\ o' = mkOrch (heap o2) (jobs o2) (env o2) None
                      /\ r = Returned (status_counts o2)
       end.
Proof.
  intros Hstep sched o r o' HP H. unfold process_all_jobs in H.
  destruct (executor o) eqn:Hex; [discriminate|].
  destruct (begin_processing cfg o) as [r0|o1] eqn:Hb.
  - destruct sched; [|discriminate]. injection H as <- <-. auto.
  - assert (HP1 : P o1).
    { apply (Hstep o); [exact HP|]. apply enter_processing_transition.
      unfold enter_processing. rewrite Hex, Hb. reflexivity. }
    destruct (run_pool cfg sched o1) as [o2|] eqn:Hrun; [|discriminate].
    pose proof (run_pool_invariant cfg P Hstep _ _ _ HP1 Hrun) as HP2.
    unfold end_processing in H.
    destruct (executor o2) as [[[|] [|] [|]]|] eqn:Hex2; try discriminate.
    injection H as <- <-.
    assert (T : transition cfg o2 (mkOrch (heap o2) (jobs o2) (env o2) None))
      by (apply t_return; exact Hex2).
    split; [eauto|]. exists o2. auto.
Qed.

Lemma count_status_sum (o : Orchestrator (World := World)) (js : list loc) :
  Forall (fun l => l < length (heap o)) js ->
  length (List.filter (has_status o Pending) js)
  + length (List.filter (has_status o Processing) js)
  + length (List.filter (has_status o Completed) js)
  + length (List.filter (has_status o Failed) js) = length js.
Proof.
  induction 1 as [|l js Hl _ IH]; [reflexivity|].
  apply lookup_lt_is_Some_2 in Hl as [j Hj]. simpl.
  rewrite !(has_status_Some o _ l j Hj).
  destruct (status j); simpl; lia.
Qed.

Lemma filter_nil_length {A : Type} (p : A -> bool) (ls : list A) :
  (forall x, In x ls -> p x = false) -> length (List.filter p ls) = 0.
Proof.
  induction ls as [|x ls IH]; [reflexivity|]. intros H. simpl.
  rewrite (H x) by (left; reflexivity). apply IH. intros y Hy. apply H. right. exact Hy.
Qed.

(** The state of the jobs after a run that started in a state in which
    the list holds allocated jobs and no job is processing. *)
Lemma process_all_jobs_settled cfg sched (o : Orchestrator (World := World)) h o' :
  valid_refs o -> bounded cfg o -> pool_progress o ->
  process_all_jobs cfg sched o = Some (Returned h, o') ->
  pending h = 0 /\ processing h = 0
  /\ completed h + failed h = length (jobs o')
  /\ Forall (fun l => job_status o' l = Some Completed \/ job_status o' l = Some Failed)
            (jobs o').
Proof.
  intros Hv0 Hb0 Hp0' H.
  set (P := fun o : Orchestrator (World := World) =>
              valid_refs o /\ bounded cfg o /\ pool_progress o).
  assert (Hstep : forall o1 o2, P o1 -> transition cfg o1 o2 -> P o2).
  { intros o1 o2 (Hv & Hb & Hp) T. split; [|split].
    - eapply transition_valid; eauto.
    - eapply transition_bounded; eauto.
    - eapply transition_progress; eauto. }
  assert (HP : P o) by (split; [|split]; assumption).
  destruct (process_all_jobs_returns _ _ _ _ _ H) as [Hex' ->].
  destruct (process_all_jobs_invariant cfg P Hstep _ _ _ _ HP H) as [(Hv & Hb & _) Hcase].
  assert (Hnp : forall l, In l (jobs o') -> job_status o' l <> Some Pending).
  { unfold begin_processing in Hcase.
    destruct (jobs o) as [|l0 js] eqn:Hj.
    - destruct Hcase as [-> _]. rewrite Hj. intros l [].
    - destruct (jobs_to_process o) as [|t0 todo] eqn:Htodo.
      + destruct Hcase as [-> _]. intros l Hin Hs.
        assert (Hl : In l (jobs_to_process o)).
        { apply filter_In. split; [exact Hin|]. apply bool_decide_eq_true. exact Hs. }
        rewrite Htodo in Hl. exact Hl.
      + destruct (max_concurrent_jobs cfg <=? 0)%Z.
        * destruct Hcase as [_ [=]].
        * destruct Hcase as (o2 & (_ & _ & Hp2) & Hex2 & -> & _).
          unfold pool_progress in Hp2. rewrite Hex2 in Hp2. destruct Hp2 as [Hq _].
          intros l Hin Hs. exact (Hq l Hin Hs). }
  assert (Hnr : forall l j, heap o' !! l = Some j -> status j <> Processing).
  { unfold bounded in Hb. rewrite Hex' in Hb. exact Hb. }
  assert (Hall : Forall (fun l => job_status o' l = Some Completed
                                  \/ job_status o' l = Some Failed) (jobs o')).
  { apply Forall_forall. intros l Hin. apply list_elem_of_In in Hin.
    pose proof (proj1 (Forall_forall _ _) Hv l (proj2 (list_elem_of_In _ _) Hin)) as Hlt.
    apply lookup_lt_is_Some_2 in Hlt as [j Hj].
    pose proof (Hnp l Hin) as H1. pose proof (Hnr l j Hj) as H2.
    unfold job_status in *. rewrite Hj in *. simpl in *.
    destruct (status j); auto; congruence. }
  destruct (status_counts_count o') as (H1 & H2 & H3 & H4).
  pose proof (count_status_sum o' (jobs o') Hv) as Hsum.
  fold (count_status o' Pending) (count_status o' Processing)
       (count_status o' Completed) (count_status o' Failed) in Hsum.
  assert (Hp0 : pending (status_counts o') = 0).
  { rewrite H1. apply filter_nil_length. intros l Hin.
    apply bool_decide_eq_false. exact (Hnp l Hin). }
  assert (Hr0 : processing (status_counts o') = 0).
  { rewrite H2. apply filter_nil_length. intros l Hin.
    apply bool_decide_eq_false. intros Hs. unfold job_status in Hs.
    destruct (heap o' !! l) as [j|] eqn:Hj; [|discriminate].
    injection Hs as Hs. exact (Hnr l j Hj Hs). }
  repeat split; auto. lia.
Qed.

(** What one step of the pool touches: only jobs that are in the pool; it
    allocates no job, keeps the length of the job list, and puts into the
    list only jobs of the pool. *)
Lemma pool_step_frame cfg ev o o' (S : list loc) :
  pool_step cfg ev o = Some o' ->
  (forall l, In l (in_pool o) -> In l S) ->
  (forall l, In l (in_pool o') -> In l S)
  /\ length (heap o') = length (heap o)
  /\ length (jobs o') = length (jobs o)
  /\ (forall l, ~ In l S -> heap o' !! l = heap o !! l)
  /\ (forall l, In l (jobs o') -> In l (jobs o) \/ In l S).
Proof.
  unfold in_pool. intros H HS.
  destruct ev as [|i|i]; simpl in H.
  - unfold start_worker in H.
    destruct (executor o) as [[[|l q] r f]|]; try discriminate.
    destruct (decide _); [|discriminate].
    destruct (heap o !! l) eqn:Hl; [|discriminate]. injection H as <-. simpl.
    split; [|split; [apply length_alter|split; [reflexivity|split; [|auto]]]].
    + intros l' Hin. apply HS. simpl. rewrite !in_app_iff in *. simpl in Hin.
      destruct Hin as [H|[[H|[H|[]]]|H]]; auto.
    + intros l' Hout. apply list_lookup_alter_ne. intros ->. apply Hout, HS. left.
      reflexivity.
  - unfold finish_worker in H.
    destruct (executor o) as [[q r f]|]; [|discriminate].
    destruct (r !! i) as [l|] eqn:Hi; [|discriminate].
    destruct (heap o !! l) as [job|] eqn:Hl; [|discriminate].
    destruct (finish_job cfg (env o) job) as [job' e']. injection H as <-. simpl.
    assert (Hlr : In l r) by (apply list_elem_of_In; eapply list_elem_of_lookup_2; eauto).
    split; [|split; [apply length_insert|split; [reflexivity|split; [|auto]]]].
    + intros l' Hin. apply HS. simpl. rewrite !in_app_iff in *. simpl in Hin.
      destruct Hin as [H|[H|[H|[H|[]]]]]; auto.
      * right. left. eapply in_delete_inv. exact H.
      * subst l'. auto.
    + intros l' Hout. apply list_lookup_insert_ne. intros ->. apply Hout, HS.
      simpl. rewrite !in_app_iff. auto.
  - unfold collect_result in H.
    destruct (executor o) as [[q r f]|]; [|discriminate].
    destruct (f !! i) as [l|] eqn:Hi; [|discriminate].
    destruct (heap o !! l) as [job|] eqn:Hl; [|discriminate].
    assert (Hlf : In l f) by (apply list_elem_of_In; eapply list_elem_of_lookup_2; eauto).
    assert (HlS : In l S) by (apply HS; rewrite !in_app_iff; auto).
    assert (Hsub : forall l', In l' (q ++ r ++ delete i f) -> In l' S).
    { intros l' Hin. apply HS. simpl. rewrite !in_app_iff in *.
      destruct Hin as [H0|[H0|H0]]; auto. right. right. eapply in_delete_inv. exact H0. }
    destruct (list_index (heap o) l (jobs o)) as [k|]; injection H as <-; simpl.
    + split; [exact Hsub|]. split; [reflexivity|]. split; [apply length_insert|].
      split; [reflexivity|]. intros l' Hin.
      apply in_insert_inv in Hin as [->|Hin]; auto.
    + split; [exact Hsub|]. split; [apply length_alter|]. split; [reflexivity|].
      split; [|auto].
      intros l' Hout. apply list_lookup_alter_ne. intros ->. apply Hout, HS.
      simpl. rewrite !in_app_iff. auto.
Qed.

Lemma run_pool_frame cfg (S : list loc) (evs : list PoolEvent) :
  forall o o',
    run_pool cfg evs o = Some o' ->
    (forall l, In l (in_pool o) -> In l S) ->
    length (heap o') = length (heap o)
    /\ length (jobs o') = length (jobs o)
    /\ (forall l, ~ In l S -> heap o' !! l = heap o !! l)
    /\ (forall l, In l (jobs o') -> In l (jobs o) \/ In l S).
Proof.
  induction evs as [|ev evs IH]; intros o o' H HS; simpl in H.
  - injection H as <-. auto.
  - destruct (pool_step cfg ev o) as [o1|] eqn:E; [|discriminate].
    destruct (pool_step_frame _ _ _ _ S E HS) as (HS1 & Hh & Hj & Hf & Hin).
    destruct (IH _ _ H HS1) as (Hh' & Hj' & Hf' & Hin').
    split; [congruence|]. split; [congruence|]. split.
    + intros l Hout. rewrite (Hf' l Hout). auto.
    + intros l Hl. destruct (Hin' l Hl) as [H1|H1]; auto.
Qed.

Lemma begin_processing_started cfg (o o1 : Orchestrator (World := World)) :
  begin_processing cfg o = Started o1 ->
  o1 = mkOrch (heap o) (jobs o) (env o) (Some (mkExecutor (jobs_to_process o) [] []))
  /\ (0 < max_concurrent_jobs cfg)%Z.
Proof.
  unfold begin_processing. destruct (jobs o); [discriminate|].
  destruct (jobs_to_process o); [discriminate|].
  destruct (Z.leb_spec (max_concurrent_jobs cfg) 0); [discriminate|].
  intros [= <-]. auto.
Qed.

Lemma jobs_to_process_listed (o : Orchestrator (World := World)) (l : loc) :
  In l (jobs_to_process o) -> In l (jobs o).
Proof. unfold jobs_to_process. intros H. apply filter_In in H as [H _]. exact H. Qed.

Lemma process_all_jobs_untouched cfg sched (o : Orchestrator (World := World)) r o' :
  process_all_jobs cfg sched o = Some (r, o') ->
  length (heap o') = length (heap o)
  /\ length (jobs o') = length (jobs o)
  /\ (forall l, ~ In l (jobs_to_process o) -> heap o' !! l = heap o !! l)
  /\ (forall l, In l (jobs o') -> In l (jobs o)).
Proof.
  intros H. unfold process_all_jobs in H.
  destruct (executor o) eqn:Hex; [discriminate|].
  destruct (begin_processing cfg o) as [r0|o1] eqn:Hb.
  - destruct sched; [|discriminate]. injection H as <- <-. auto.
  - apply begin_processing_started in Hb as [Ho1 _].
    destruct (run_pool cfg sched o1) as [o2|] eqn:Hrun; [|discriminate].
    apply (run_pool_frame cfg (jobs_to_process o)) in Hrun as (Hh & Hj & Hf & Hin).
    + unfold end_processing in H.
      destruct (executor o2) as [[[|] [|] [|]]|]; try discriminate.
      injection H as <- <-. simpl. rewrite Ho1 in *. simpl in *.
      split; [exact Hh|]. split; [exact Hj|]. split; [exact Hf|].
      intros l Hl. destruct (Hin l Hl) as [H1|H1]; [exact H1|].
      apply jobs_to_process_listed. exact H1.
    + rewrite Ho1. unfold in_pool. simpl. intros l. rewrite app_nil_r. auto.
Qed.

Lemma pool_step_ids cfg ev o o' :
  valid_refs o -> pool_step cfg ev o = Some o' ->
  valid_refs o' /\ listed_ids o' = listed_ids o.
Proof.
  intros Hv H. pose proof (pool_step_transition cfg ev o o' H) as T.
  split; [exact (transition_valid _ _ _ Hv T)|].
  destruct (transition_ids _ _ _ Hv T) as [[k Hk]|[_ Hex]].
  - destruct (pool_step_frame cfg ev o o' (in_pool o) H (fun l Hl => Hl))
      as (_ & _ & Hlen & _).
    assert (Hl : length (listed_ids o') = length (listed_ids o)).
    { unfold listed_ids. rewrite !length_map. exact Hlen. }
    rewrite Hk in Hl |- *. rewrite length_app in Hl.
    destruct k; [apply app_nil_r|simpl in Hl; lia].
  - destruct (pool_step_executor cfg ev o o' H) as [ex Hex']. congruence.
Qed.

Lemma run_pool_ids cfg (evs : list PoolEvent) :
  forall o o',
    valid_refs o -> run_pool cfg evs o = Some o' ->
    valid_refs o' /\ listed_ids o' = listed_ids o.
Proof.
  induction evs as [|ev evs IH]; intros o o' Hv H; simpl in H.
  - injection H as <-. auto.
  - destruct (pool_step cfg ev o) as [o1|] eqn:E; [|discriminate].
    destruct (pool_step_ids _ _ _ _ Hv E) as [Hv1 H1].
    destruct (IH _ _ Hv1 H) as [Hv' H']. split; [exact Hv'|congruence].
Qed.

(** ** A run under pairwise different job ids *)

(** With pairwise different ids [list.index] finds every job at its own
    position: as long as the jobs in the pool are listed, a step of the
    pool leaves the job list as it is, and collecting a result changes no
    job. *)
Lemma pool_step_keeps_list cfg ev o o' :
  valid_refs o -> NoDup (listed_ids o) ->
  (forall l, In l (in_pool o) -> In l (jobs o)) ->
  pool_step cfg ev o = Some o' ->
  jobs o' = jobs o
  /\ (forall l, In l (in_pool o') -> In l (jobs o'))
  /\ (forall i, ev = Collect i -> heap o' = heap o).
Proof.
  intros Hv Hnd Hin H.
  assert (Hj : jobs o' = jobs o /\ (forall i, ev = Collect i -> heap o' = heap o)).
  { destruct ev as [|i|i]; simpl in H.
    - unfold start_worker in H.
      destruct (executor o) as [[[|l q] r f]|]; try discriminate.
      destruct (decide _); [|discriminate]. destruct (heap o !! l); [|discriminate].
      injection H as <-. split; [reflexivity|discriminate].
    - unfold finish_worker in H. destruct (executor o) as [[q r f]|]; [|discriminate].
      destruct (r !! i) as [l|]; [|discriminate].
      destruct (heap o !! l) as [job|]; [|discriminate].
      destruct (finish_job _ _ _) as [job' e']. injection H as <-.
      split; [reflexivity|discriminate].
    - unfold collect_result in H. unfold in_pool in Hin.
      destruct (executor o) as [[q r f]|]; [|discriminate].
      destruct (f !! i) as [l|] eqn:Hi; [|discriminate].
      destruct (heap o !! l) as [job|]; [|discriminate].
      assert (Hl : In l (jobs o)).
      { apply Hin. rewrite !in_app_iff. right. right.
        apply list_elem_of_In. eapply list_elem_of_lookup_2. exact Hi. }
      destruct (list_index (heap o) l (jobs o)) as [k|] eqn:Hk.
      + injection H as <-. simpl.
        destruct (list_index_Some _ _ _ _ Hk) as (x & Hx & Hs).
        assert (x = l).
        { apply (listed_ids_inj o); auto using same_job_id.
          apply list_elem_of_In. eapply list_elem_of_lookup_2. exact Hx. }
        subst x. split; [apply list_insert_id; exact Hx|auto].
      + exfalso. exact (list_index_None _ _ _ Hk Hl). }
  destruct Hj as [Hj Hc]. split; [exact Hj|]. split; [|exact Hc].
  destruct (pool_step_frame cfg ev o o' (in_pool o) H (fun l Hl => Hl)) as (Hsub & _).
  intros l Hl. rewrite Hj. apply Hin, Hsub. exact Hl.
Qed.

Lemma worker_ran_later cfg (e0 e1 e2 : Env (World := World)) j j' more :
  trace e2 = trace e1 ++ more -> worker_ran cfg e0 e1 j j' -> worker_ran cfg e0 e2 j j'.
Proof.
  intros Ht (e & pre & post & Hj & He & H1). exists e, pre, (post ++ more).
  split; [exact Hj|]. split; [exact He|]. rewrite Ht, H1, <- !app_assoc. reflexivity.
Qed.

(** A step of the pool keeps [carrying]. *)
Lemma pool_step_carrying cfg h0 todo e0 ev o o' :
  valid_refs o -> NoDup (listed_ids o) ->
  (forall l, In l (in_pool o) -> In l (jobs o)) ->
  carrying cfg h0 todo e0 o ->
  pool_step cfg ev o = Some o' ->
  carrying cfg h0 todo e0 o'.
Proof.
  intros Hv Hids Hin HC H.
  destruct (pool_step_keeps_list cfg ev o o' Hv Hids Hin H) as (_ & _ & Hcol).
  unfold carrying in *. destruct ev as [|i|i]; simpl in H.
  - unfold start_worker in H.
    destruct (executor o) as [[[|l q] r f]|]; try discriminate.
    destruct (decide _); [|discriminate].
    destruct (heap o !! l) as [job|] eqn:Hl; [|discriminate].
    injection H as <-. simpl in *.
    destruct HC as (Hnd & Hlen & (seen & Hseen) & Hjobs).
    apply NoDup_cons in Hnd as [Hl_out Hnd].
    assert (Hother : forall l', In l' (q ++ r) -> l <> l').
    { intros l' Hl' ->. apply Hl_out, list_elem_of_In. exact Hl'. }
    split; [|split; [|split]].
    + rewrite app_assoc. apply NoDup_app. split; [exact Hnd|].
      split; [|apply NoDup_singleton].
      intros x Hx Hx'. apply list_elem_of_singleton in Hx'. subst x. contradiction.
    + rewrite length_alter. exact Hlen.
    + exists (seen ++ [CallWorker l]). rewrite Hseen, <- app_assoc. reflexivity.
    + intros lx j Hj. destruct (Hjobs lx j Hj) as (HQ & HR & HD). split; [|split].
      * intros Hq. rewrite list_lookup_alter_ne; [auto|].
        apply Hother, in_or_app. auto.
      * intros Hr. apply in_app_or in Hr as [Hr|[<-|[]]].
        -- rewrite list_lookup_alter_ne; [auto|]. apply Hother, in_or_app. auto.
        -- rewrite list_lookup_alter_eq, (HQ (or_introl eq_refl)). reflexivity.
      * intros Ht Hnq Hnr.
        assert (Hne : l <> lx).
        { intros ->. apply Hnr, in_or_app. right. left. reflexivity. }
        destruct HD as (j' & Hj' & Hran); [exact Ht| | |].
        -- intros [E|Hq]; [exact (Hne E)|exact (Hnq Hq)].
        -- intros Hr. apply Hnr, in_or_app. auto.
        -- exists j'. split; [rewrite list_lookup_alter_ne by exact Hne; exact Hj'|].
           eapply worker_ran_later; [|exact Hran]. reflexivity.
  - unfold finish_worker in H. destruct (executor o) as [[q r f]|]; [|discriminate].
    destruct (r !! i) as [l|] eqn:Hi; [|discriminate].
    destruct (heap o !! l) as [job|] eqn:Hl; [|discriminate].
    destruct (finish_job cfg (env o) job) as [job' e'] eqn:Hf.
    injection H as <-. simpl in *.
    destruct HC as (Hnd & Hlen & (seen & Hseen) & Hjobs).
    assert (Hlr : In l r) by (apply list_elem_of_In; eapply list_elem_of_lookup_2; eauto).
    assert (Hlt : l < length (heap o)) by (eapply lookup_lt_Some; eassumption).
    destruct (finish_job_effect _ _ _ _ _ Hf) as (_ & _ & _ & _ & _ & new & Hnew & _).
    apply NoDup_app in Hnd as (Hndq & Hdis & Hndr).
    assert (Hq_other : forall l', In l' q -> l <> l').
    { intros l' Hl' ->. apply (Hdis l'); apply list_elem_of_In; assumption. }
    assert (Hr_other : forall l', In l' (delete i r) -> l <> l').
    { intros l' Hl' ->. exact (not_in_delete r i l' Hndr Hi Hl'). }
    split; [|split; [|split]].
    + apply NoDup_app. split; [exact Hndq|]. split.
      * intros x Hx Hx'. apply (Hdis x Hx). eapply list_elem_of_delete_inv. exact Hx'.
      * apply (sublist_NoDup (delete i r) r); [exact Hndr|apply sublist_delete].
    + rewrite length_insert. exact Hlen.
    + exists (seen ++ new). rewrite Hnew, Hseen, <- app_assoc. reflexivity.
    + intros lx j Hj. destruct (Hjobs lx j Hj) as (HQ & HR & HD). split; [|split].
      * intros Hq. rewrite list_lookup_insert_ne; [auto|]. auto.
      * intros Hr. rewrite list_lookup_insert_ne; [|auto].
        apply HR. eapply in_delete_inv. exact Hr.
      * intros Ht Hnq Hnr. destruct (decide (l = lx)) as [<-|Hne].
        -- exists job'. split; [apply list_lookup_insert_eq; exact Hlt|].
           rewrite (HR Hlr) in Hl. injection Hl as <-.
           exists (env o), seen, []. unfold _process_single_job. rewrite Hf. simpl.
           split; [reflexivity|]. split; [exact Hseen|].
           rewrite (new_calls_app _ _ _ Hnew), app_nil_r, Hnew, Hseen, <- app_assoc.
           reflexivity.
        -- assert (Hnr0 : ~ In lx r).
           { intros Hr. apply Hnr. apply (in_delete_other r i l); auto. }
           destruct (HD Ht Hnq Hnr0) as (j' & Hj' & Hran).
           exists j'. split; [rewrite list_lookup_insert_ne by exact Hne; exact Hj'|].
           eapply worker_ran_later; [exact Hnew|exact Hran].
  - pose proof (Hcol i eq_refl) as Hheap.
    unfold collect_result in H. destruct (executor o) as [[q r f]|]; [|discriminate].
    destruct (f !! i) as [l|]; [|discriminate].
    destruct (heap o !! l) as [job|]; [|discriminate].
    assert (Hshape : executor o' = Some (mkExecutor q r (delete i f)) /\ env o' = env o).
    { destruct (list_index _ _ _); injection H as <-; auto. }
    destruct Hshape as [Hex' Henv']. rewrite Hex', Henv', Hheap. simpl in *. exact HC.
Qed.

Lemma run_pool_carrying cfg h0 todo e0 (evs : list PoolEvent) :
  forall o o',
    valid_refs o -> NoDup (listed_ids o) ->
    (forall l, In l (in_pool o) -> In l (jobs o)) ->
    carrying cfg h0 todo e0 o ->
    run_pool cfg evs o = Some o' ->
    carrying cfg h0 todo e0 o' /\ jobs o' = jobs o.
Proof.
  induction evs as [|ev evs IH]; intros o o' Hv Hids Hin HC H; simpl in H.
  - injection H as <-. auto.
  - destruct (pool_step cfg ev o) as [o1|] eqn:E; [|discriminate].
    destruct (pool_step_ids _ _ _ _ Hv E) as [Hv1 Hids1].
    destruct (pool_step_keeps_list _ _ _ _ Hv Hids Hin E) as (Hj1 & Hin1 & _).
    pose proof (pool_step_carrying _ _ _ _ _ _ _ Hv Hids Hin HC E) as HC1.
    rewrite <- Hids1 in Hids.
    destruct (IH _ _ Hv1 Hids Hin1 HC1 H) as [HC' Hj']. split; [exact HC'|congruence].
Qed.

(** With pairwise different job ids, [process_all_jobs] leaves the job
    list as it is, and when it returns its summary a worker has carried
    each job that was pending through [_process_single_job]. *)
Lemma process_all_jobs_runs_workers cfg sched (o : Orchestrator (World := World)) r o' :
  valid_refs o -> NoDup (job_ids o) ->
  process_all_jobs cfg sched o = Some (r, o') ->
  jobs o' = jobs o
  /\ forall h, r = Returned h ->
       forall l j, In l (jobs_to_process o) -> heap o !! l = Some j ->
                   exists j', heap o' !! l = Some j' /\ worker_ran cfg (env o) (env o') j j'.
Proof.
  intros Hv Hnd H.
  assert (Hids : NoDup (listed_ids o)).
  { rewrite (listed_ids_job_ids o Hv). apply (NoDup_fmap_2 Some). exact Hnd. }
  unfold process_all_jobs in H. destruct (executor o) eqn:Hex; [discriminate|].
  destruct (begin_processing cfg o) as [r0|o1] eqn:Hb.
  - destruct sched; [|discriminate]. injection H as <- <-. split; [reflexivity|].
    intros h -> l j Hl. exfalso. unfold begin_processing in Hb.
    destruct (jobs o) as [|lx js] eqn:Hj.
    + unfold jobs_to_process in Hl. rewrite Hj in Hl. exact Hl.
    + destruct (jobs_to_process o); [exact Hl|].
      destruct (max_concurrent_jobs cfg <=? 0)%Z; discriminate.
  - apply begin_processing_started in Hb as [-> _].
    destruct (run_pool cfg sched _) as [o2|] eqn:Hrun; [|discriminate].
    apply (run_pool_carrying cfg (heap o) (jobs_to_process o) (env o)) in Hrun
      as [HC Hj]; simpl.
    + unfold end_processing in H. unfold carrying in HC.
      destruct (executor o2) as [[[|] [|] [|]]|]; try discriminate.
      injection H as <- <-. simpl in *. split; [exact Hj|].
      destruct HC as (_ & _ & _ & Hjobs).
      intros h _ l j Hl Hlj. destruct (Hjobs l j Hlj) as (_ & _ & HD).
      apply HD; [exact Hl|intros []|intros []].
    + exact Hv.
    + exact Hids.
    + unfold in_pool. simpl. intros l Hl. rewrite app_nil_r in Hl.
      apply jobs_to_process_listed. exact Hl.
    + unfold carrying. simpl. rewrite app_nil_r. split; [|split; [|split]].
      * unfold jobs_to_process. apply NoDup_ListNoDup, List.NoDup_filter, NoDup_ListNoDup.
        apply listed_ids_nodup_jobs. exact Hids.
      * reflexivity.
      * exists []. rewrite app_nil_r. reflexivity.
      * intros l j Hlj. split; [auto|]. split; [intros []|]. intros Ht Hnq. contradiction.
Qed.

(** A worker either invokes the mastering stage for its job, or finds the
    mastered file under [resume_on_failure], or fails in the existence test
    itself. *)
Lemma worker_masters_or_resumes cfg (e : Env (World := World)) job :
  let r := _process_single_job cfg e job in
  (exists res, In (CallMaster (audio_file job) (mastered_audio_path cfg job) res)
                  (new_calls e (snd r)))
  \/ path_exists (world e) (mastered_audio_path cfg job) = Returned true
     /\ resume_on_failure cfg = true
  \/ exists x, path_exists (world e) (mastered_audio_path cfg job) = Raised x.
Proof.
  intros r.
  destruct (process_single_job_cases cfg e job (fst r) (snd r) (surjective_pairing r))
    as [(x & Hn & _)|[(Hn & _)|[(pre & new & e1 & r2 & Hn & Hpre & _)|(x & Hx & _)]]].
  - left. exists (Raised x). rewrite Hn. left. reflexivity.
  - left. exists (Returned false). rewrite Hn. left. reflexivity.
  - destruct Hpre as [->|(-> & Hex & Hres)].
    + left. exists (Returned true). rewrite Hn. left. reflexivity.
    + right. left. auto.
  - right. right. exists x. exact Hx.
Qed.

(** ** C4: the retry as a whole *)

(** C4. [retry_failed_jobs] turns every failed job of the list into a
    pending job without error message, changing no other field; it leaves
    every job that is not failed, in particular every completed and every
    pending one, as it is; it then is [process_all_jobs] on that state. That
    call hands to a worker exactly the jobs pending at that point, that is
    the jobs of the list that were pending or failed before, and changes no
    other job. When it returns its summary, no listed job is pending or
    processing any more; and with pairwise different job ids the job list is
    as before and each of these jobs has been carried through
    [_process_single_job] by a worker during the run: it is now what the
    worker made of the reset job, completed or failed, and the worker
    invoked the mastering stage for it, unless it found the mastered file
    under [resume_on_failure] or the existence test itself raised. With a
    pool of at least one worker the call returns for some interleaving. *)
Theorem retry_failed_jobs_resets_then_processes cfg sched o :
  (forall l j, In l (jobs o) -> heap o !! l = Some j -> status j = Failed ->
     heap (reset_failed o) !! l
     = Some (mkJob (job_id j) (audio_file j) (image_file j) (platforms j)
                   Pending (output_files j) None))
  /\ (forall l j, heap o !! l = Some j -> status j <> Failed ->
        heap (reset_failed o) !! l = Some j)
  /\ jobs (reset_failed o) = jobs o
  /\ retry_failed_jobs cfg sched o = process_all_jobs cfg sched (reset_failed o)
  /\ (forall h o', retry_failed_jobs cfg sched o = Some (Returned h, o') ->
        worker_calls (new_calls (env o) (env o')) = jobs_to_process (reset_failed o))
  /\ (forall l, In l (jobs_to_process (reset_failed o))
                <-> In l (jobs o)
                    /\ (job_status o l = Some Pending \/ job_status o l = Some Failed))
  /\ (forall r o', retry_failed_jobs cfg sched o = Some (r, o') ->
        forall l, ~ In l (jobs_to_process (reset_failed o)) ->
                  heap o' !! l = heap (reset_failed o) !! l)
  /\ (forall h o', retry_failed_jobs cfg sched o = Some (Returned h, o') ->
        valid_refs o ->
        (forall l j, heap o !! l = Some j -> status j <> Processing) ->
        pending h = 0 /\ processing h = 0
        /\ Forall (fun l => job_status o' l = Some Completed
                            \/ job_status o' l = Some Failed) (jobs o'))
  /\ (forall h o', retry_failed_jobs cfg sched o = Some (Returned h, o') ->
        valid_refs o -> NoDup (job_ids o) ->
        jobs o' = jobs o
        /\ forall l j,
            In l (jobs_to_process (reset_failed o)) ->
            heap (reset_failed o) !! l = Some j ->
            exists e pre post,
              let r := _process_single_job cfg e j in
              heap o' !! l = Some (fst r)
              /\ trace e = trace (env o) ++ pre
              /\ trace (env o')
                 = trace (env o) ++ pre ++ new_calls e (snd r) ++ post
              /\ (status (fst r) = Completed \/ status (fst r) = Failed)
              /\ ((exists res,
                     In (CallMaster (audio_file j) (mastered_audio_path cfg j) res)
                        (new_calls e (snd r)))
                  \/ path_exists (world e) (mastered_audio_path cfg j) = Returned true
                     /\ resume_on_failure cfg = true
                  \/ exists x,
                      path_exists (world e) (mastered_audio_path cfg j) = Raised x))
  /\ (valid_refs o -> executor o = None -> (0 < max_concurrent_jobs cfg)%Z ->
      exists sched' h o', retry_failed_jobs cfg sched' o = Some (Returned h, o')).
Proof.
  assert (Hfailed : forall l, In l (get_failed_jobs o)
                      <-> In l (jobs o) /\ job_status o l = Some Failed).
  { intros l. unfold get_failed_jobs. rewrite filter_In. unfold has_status.
    rewrite bool_decide_eq_true. reflexivity. }
  assert (Hidle : forall r o', retry_failed_jobs cfg sched o = Some (r, o') ->
                               executor o = None).
  { intros r o'. unfold retry_failed_jobs, process_all_jobs. simpl.
    destruct (executor o); [discriminate|reflexivity]. }
  split; [|split; [|split; [|split; [|split; [|split; [|split; [|split; [|split]]]]]]]].
  - intros l j Hin Hl Hst. rewrite reset_failed_lookup.
    rewrite bool_decide_eq_true_2.
    + rewrite Hl. reflexivity.
    + apply list_elem_of_In, Hfailed. split; [exact Hin|].
      unfold job_status. rewrite Hl, <- Hst. reflexivity.
  - intros l j Hl Hst. rewrite reset_failed_lookup.
    rewrite bool_decide_eq_false_2; [exact Hl|].
    intros Hin. apply list_elem_of_In, Hfailed in Hin as [_ Hin]. unfold job_status in Hin.
    rewrite Hl in Hin. simpl in Hin. congruence.
  - reflexivity.
  - reflexivity.
  - intros h o' H. exact (process_all_jobs_dispatches cfg sched (reset_failed o) h o' H).
  - intros l. unfold jobs_to_process. rewrite filter_In. simpl.
    unfold has_status. rewrite bool_decide_eq_true. unfold job_status at 1.
    rewrite reset_failed_lookup.
    destruct (bool_decide_reflect (l ∈ get_failed_jobs o)) as [Hin|Hin].
    + apply list_elem_of_In, Hfailed in Hin as [Hin Hst]. unfold job_status in *.
      destruct (heap o !! l); simpl in *; [|discriminate]. intuition.
    + split.
      * intros [Hin' Hst]. split; [exact Hin'|]. left. exact Hst.
      * intros [Hin' [Hst|Hst]]; [auto|]. exfalso. apply Hin, list_elem_of_In, Hfailed. auto.
  - intros r o' H.
    exact (proj1 (proj2 (proj2 (process_all_jobs_untouched cfg sched _ r o' H)))).
  - intros h o' H Hv Hnp. pose proof (Hidle _ _ H) as Hex.
    assert (Hb : bounded cfg (reset_failed o)).
    { apply (transition_bounded cfg o); [|apply t_reset; exact Hex].
      unfold bounded. rewrite Hex. exact Hnp. }
    assert (Hpp : pool_progress (reset_failed o)).
    { unfold pool_progress. simpl. rewrite Hex. exact I. }
    destruct (process_all_jobs_settled cfg sched (reset_failed o) h o'
                (reset_failed_valid o Hv) Hb Hpp H) as (H1 & H2 & _ & H4).
    auto.
  - intros h o' H Hv Hnd. pose proof (Hidle _ _ H) as Hex.
    assert (Hnd' : NoDup (job_ids (reset_failed o))).
    { assert (E : listed_ids (reset_failed o) = listed_ids o).
      { unfold listed_ids. simpl. apply listed_ids_ext. intros l _.
        rewrite (fold_alter_lookup reset_job _ reset_job_idempotent).
        destruct (bool_decide _); [|reflexivity]. destruct (heap o !! l); reflexivity. }
      rewrite (listed_ids_job_ids o Hv),
        (listed_ids_job_ids _ (reset_failed_valid o Hv)) in E.
      apply (inj (fmap Some)) in E. rewrite E. exact Hnd. }
    destruct (process_all_jobs_runs_workers cfg sched (reset_failed o) _ o'
                (reset_failed_valid o Hv) Hnd' H) as [Hj Hran].
    split; [exact Hj|]. intros l j Hl Hlj.
    destruct (Hran h eq_refl l j Hl Hlj) as (j' & Hj' & e & pre & post & -> & He & Ht).
    exists e, pre, post. cbv zeta. split; [exact Hj'|]. split; [exact He|].
    split; [exact Ht|]. split; [|apply worker_masters_or_resumes].
    destruct (finish_job_effect cfg e (set_status Processing j) _ _
                (surjective_pairing (_process_single_job cfg e j)))
      as (_ & _ & _ & _ & [[Hs _]|[Hs _]] & _); auto.
  - intros Hv Hex Hmax. unfold retry_failed_jobs.
    apply process_all_jobs_total; [apply reset_failed_valid; exact Hv|exact Hex|exact Hmax].
Qed.

End OrchestratorFacts.

(** ** C6: where two jobs write *)

Lemma split_no_slash (s : string) : no_slash s = true -> Py.split "/" s = [s].
Proof.
  induction s as [|c s IH]; simpl; [reflexivity|].
  intros H. apply andb_true_iff in H as [Hc Hs]. apply negb_true_iff in Hc.
  rewrite Hc, (IH Hs). reflexivity.
Qed.

Lemma of_string_plain (s : string) :
  plain s = true -> Pathlib.of_string s = mkPath EmptyString [s].
Proof.
  unfold plain. intros H. apply andb_true_iff in H as [Hs Hc].
  unfold Pathlib.of_string, Pathlib.parse_root, Pathlib.parse_parts.
  rewrite (split_no_slash s Hs). simpl. rewrite Hc. f_equal.
  destruct s as [|c s]; [reflexivity|]. simpl in *.
  apply andb_true_iff in Hs as [Hs _]. apply negb_true_iff in Hs. rewrite Hs. reflexivity.
Qed.

Lemma joinpath_plain (p : Path) (s : string) :
  plain s = true -> p // s = mkPath (root p) (parts p ++ [s]).
Proof. intros H. unfold Pathlib.joinpath. rewrite (of_string_plain s H). reflexivity. Qed.

Lemma joinpath_plain_inj (p : Path) (s1 s2 : string) :
  plain s1 = true -> plain s2 = true -> p // s1 = p // s2 -> s1 = s2.
Proof.
  intros H1 H2. rewrite (joinpath_plain p s1 H1), (joinpath_plain p s2 H2).
  intros [= E]. apply app_inv_head in E. congruence.
Qed.

Lemma no_slash_append (a b : string) : no_slash (a +:+ b) = no_slash a && no_slash b.
Proof.
  induction a as [|c a IH]; simpl; [reflexivity|]. rewrite IH. apply andb_assoc.
Qed.

Lemma string_length_append (a b : string) :
  String.length (a +:+ b) = String.length a + String.length b.
Proof. induction a as [|c a IH]; simpl; [reflexivity|]. rewrite IH. reflexivity. Qed.

Lemma append_inj_r (s a b : string) : a +:+ s = b +:+ s -> a = b.
Proof.
  revert b. induction a as [|c a IH]; intros [|d b] E.
  - reflexivity.
  - exfalso. apply (f_equal String.length) in E. rewrite !string_length_append in E.
    simpl in E. lia.
  - exfalso. apply (f_equal String.length) in E. rewrite !string_length_append in E.
    simpl in E. lia.
  - change (String c (a +:+ s) = String d (b +:+ s)) in E.
    injection E as -> E. f_equal. apply IH. exact E.
Qed.

Lemma mastered_name_plain (x : string) :
  no_slash x = true -> plain (x +:+ "_mastered.wav") = true.
Proof.
  intros H. unfold plain, Pathlib.is_component. rewrite no_slash_append, H. simpl.
  destruct x as [|c [|d x]]; try reflexivity; simpl.
  - destruct (Ascii.eqb c "."); reflexivity.
  - destruct (Ascii.eqb c "."); reflexivity.
Qed.

Lemma no_slash_substring (n : string) (i : nat) :
  no_slash n = true -> no_slash (String.substring 0 i n) = true.
Proof.
  revert i. induction n as [|c n IH]; intros [|i] H; simpl in *; try reflexivity.
  apply andb_true_iff in H as [Hc Hn]. rewrite Hc. simpl. apply IH. exact Hn.
Qed.

Lemma stem_no_slash (p : Path) : well_formed p -> no_slash (Pathlib.stem p) = true.
Proof.
  unfold well_formed. intros Hwf.
  assert (Hn : no_slash (Pathlib.name p) = true).
  { unfold Pathlib.name. induction (parts p) as [|x xs IH]; [reflexivity|].
    apply Forall_cons in Hwf as [Hx Hxs]. destruct xs as [|y ys].
    - simpl. unfold plain in Hx. apply andb_true_iff in Hx as [Hx _]. exact Hx.
    - exact (IH Hxs). }
  unfold Pathlib.stem. destruct (Py.rfind "." (Pathlib.name p)) as [i|]; [|exact Hn].
  destruct (_ && _); [|exact Hn]. apply no_slash_substring. exact Hn.
Qed.

Lemma split_pieces_no_slash (s : string) :
  Forall (fun x => no_slash x = true) (Py.split "/" s).
Proof.
  induction s as [|c s IH]; simpl; [repeat constructor|].
  destruct (Ascii.eqb c "/") eqn:E.
  - constructor; [reflexivity|exact IH].
  - destruct (Py.split "/" s) as [|x xs].
    + constructor; [simpl; rewrite E; reflexivity|constructor].
    + apply Forall_cons in IH as [Hx Hxs]. constructor; [|exact Hxs].
      simpl. rewrite E, Hx. reflexivity.
Qed.

(** Every path that comes from a string is well formed, and stays so when
    a string is joined to it. *)
Lemma of_string_well_formed (s : string) : well_formed (Pathlib.of_string s).
Proof.
  unfold well_formed, Pathlib.of_string, Pathlib.parse_parts. simpl.
  pose proof (split_pieces_no_slash s) as H.
  induction H as [|x xs Hx _ IH]; simpl; [constructor|].
  destruct (Pathlib.is_component x) eqn:E; [|exact IH].
  constructor; [|exact IH]. unfold plain. rewrite Hx, E. reflexivity.
Qed.

Lemma digits_no_slash (d : Decimal.uint) : no_slash (NilEmpty.string_of_uint d) = true.
Proof. induction d; simpl; auto. Qed.

Lemma str_of_nat_no_slash (n : nat) : no_slash (Py.str_of_nat n) = true.
Proof.
  unfold Py.str_of_nat, NilZero.string_of_uint.
  destruct (Nat.to_uint n); try reflexivity; apply digits_no_slash.
Qed.

(** The ids [add_job] generates are single path components. *)
Lemma generated_id_plain (p : Path) (n : nat) :
  well_formed p -> plain (Pathlib.stem p +:+ "_" +:+ Py.str_of_nat n) = true.
Proof.
  intros W. unfold plain, Pathlib.is_component.
  rewrite !no_slash_append, (stem_no_slash p W), str_of_nat_no_slash. simpl.
  destruct (Pathlib.stem p) as [|c [|d x]]; try reflexivity; simpl.
  - destruct (Ascii.eqb c "."); reflexivity.
  - destruct (Ascii.eqb c "."); reflexivity.
Qed.

(** C6 (as amended). Two jobs have the same mastered-audio artifact path
    exactly when their audio files have the same stem, so jobs with
    different stems never share it; and two jobs whose ids are different
    single path components have different video output directories. *)
Theorem output_paths_by_stem_and_id cfg (j1 j2 : ProcessingJob) :
  well_formed (audio_file j1) ->
  well_formed (audio_file j2) ->
  (mastered_audio_path cfg j1 = mastered_audio_path cfg j2
   <-> Pathlib.stem (audio_file j1) = Pathlib.stem (audio_file j2))
  /\ (plain (job_id j1) = true -> plain (job_id j2) = true ->
      job_id j1 <> job_id j2 ->
      video_output_dir cfg j1 <> video_output_dir cfg j2).
Proof.
  intros W1 W2. split.
  - unfold mastered_audio_path. split.
    + intros E. apply joinpath_plain_inj in E.
      * eapply append_inj_r. exact E.
      * apply mastered_name_plain, stem_no_slash. exact W1.
      * apply mastered_name_plain, stem_no_slash. exact W2.
    + intros ->. reflexivity.
  - unfold video_output_dir. intros P1 P2 Hne E. apply Hne.
    exact (joinpath_plain_inj _ _ _ P1 P2 E).
Qed.

(** ** The properties on concrete runs *)

Import Demo.

Lemma after_reachable cfg w evs :
  steps cfg evs (new_orchestrator w) <> None -> reachable cfg (after cfg w evs).
Proof.
  intros H. exists w, evs. unfold after.
  destruct (steps cfg evs (new_orchestrator w)); [reflexivity|congruence].
Qed.

(** C1, the claim as stated fails: a job added with the same platform
    twice has every rendition of that platform rendered twice; the first
    render of "YouTube_16:9" fails, the second overwrites its entry, and the
    job ends [Completed] although an invocation of the render stage
    failed. *)
Lemma repeated_platform_rendered_twice :
  let o := after default_config (studio [] [false]) twice_youtube in
  reachable default_config o
  /\ heap o !! 0
     = Some (mkJob "song_0" song cover ["youtube"; "youtube"] Completed
               [("YouTube_16:9", Some "output/videos/song_0/youtube/song_0_youtube_16x9.mp4");
                ("YouTube_9:16", Some "output/videos/song_0/youtube/song_0_youtube_9x16.mp4")]
               None)
  /\ master_calls (trace (env o))
     = [(song, Pathlib.of_string "output/mastered_audio/song_mastered.wav")]
  /\ existsb raised (trace (env o)) = false
  /\ render_calls (trace (env o))
     = [(youtube_config, LANDSCAPE); (youtube_config, PORTRAIT);
        (youtube_config, LANDSCAPE); (youtube_config, PORTRAIT)]
  /\ failed_renditions (trace (env o)) = ["YouTube_16:9"].
Proof.
  split; [apply after_reachable; vm_compute; discriminate|].
  vm_compute. repeat split; reflexivity.
Qed.

Lemma process_single_job_renders_witness :
  let e := mkEnv (studio [] [true; false; true]) [] in
  let r := _process_single_job default_config e two_platform_job in
  NoDup (map Py.lower (platforms two_platform_job))
  /\ Forall (fun p => supported p = true) (platforms two_platform_job)
  /\ (exists a m, In (CallMaster a m (Returned true)) (new_calls e (snd r)))
  /\ existsb raised (new_calls e (snd r)) = false
  /\ status (fst r) = Failed
  /\ error_message (fst r) = Some "Failed to create videos: ['YouTube_9:16']".
Proof.
  intros e r.
  assert (H1 : NoDup (map Py.lower (platforms two_platform_job))).
  { apply (bool_decide_unpack _). vm_compute. exact I. }
  assert (H2 : Forall (fun p => supported p = true) (platforms two_platform_job)).
  { repeat constructor. }
  assert (H3 : exists a m, In (CallMaster a m (Returned true)) (new_calls e (snd r))).
  { eexists _, _. vm_compute. left. reflexivity. }
  assert (H4 : existsb raised (new_calls e (snd r)) = false).
  { vm_compute. reflexivity. }
  split; [exact H1|]. split; [exact H2|]. split; [exact H3|]. split; [exact H4|].
  pose proof (process_single_job_renders default_config e two_platform_job (fst r) (snd r)
                H1 H2 (surjective_pairing _) H3 H4) as (_ & _ & _ & _ & Hst).
  vm_compute in Hst. exact Hst.
Defined.

(** C2, the claim as stated fails: a job whose render failed keeps the
    outputs of that run when it is retried; if the retry fails in mastering,
    the job is failed with non-empty outputs. *)
Lemma mastering_failure_with_outputs :
  let o := after no_resume (studio [true; false] [false]) retried in
  let job := mkJob "song_0" song cover ["tiktok"] Pending [("TikTok_9:16", None)] None in
  let r := _process_single_job no_resume (env o) job in
  reachable no_resume o
  /\ executor o = Some (mkExecutor [0] [] [])
  /\ heap o !! 0 = Some job
  /\ new_calls (env o) (snd r)
     = [CallMaster song (mastered_audio_path no_resume job) (Returned false)]
  /\ status (fst r) = Failed
  /\ error_message (fst r) = Some "Audio mastering failed"
  /\ output_files (fst r) = [("TikTok_9:16", None)].
Proof.
  split; [apply after_reachable; vm_compute; discriminate|].
  vm_compute. repeat split; reflexivity.
Qed.

Lemma mastering_failure_stops_job_witness :
  let e := mkEnv (studio [false] []) [] in
  let r := _process_single_job default_config e tiktok_job in
  In (CallMaster song (mastered_audio_path default_config tiktok_job) (Returned false))
     (new_calls e (snd r))
  /\ status (fst r) = Failed
  /\ error_message (fst r) = Some "Audio mastering failed"
  /\ output_files (fst r) = []
  /\ render_calls (new_calls e (snd r)) = [].
Proof.
  intros e r.
  assert (H : In (CallMaster song (mastered_audio_path default_config tiktok_job)
                             (Returned false)) (new_calls e (snd r))).
  { vm_compute. left. reflexivity. }
  split; [exact H|].
  destruct (mastering_failure_stops_job default_config e tiktok_job (fst r) (snd r) _ _
              (surjective_pairing _) H) as (H1 & H2 & _ & H4 & H5 & _).
  repeat split; auto.
Defined.

Lemma resume_enabled_by_default_witness :
  let e := mkEnv (mkSim [mastered_audio_path default_config tiktok_job; song; cover] [] []
                        [] [])
                 [] in
  path_exists (world e) (mastered_audio_path default_config tiktok_job) = Returned true
  /\ master_calls (new_calls e (snd (_process_single_job default_config e tiktok_job))) = [].
Proof.
  intros e.
  assert (H : path_exists (world e) (mastered_audio_path default_config tiktok_job)
              = Returned true).
  { vm_compute. reflexivity. }
  split; [exact H|]. exact (proj2 resume_enabled_by_default e tiktok_job H).
Defined.

(** C3, the claim as stated fails, in both of its halves. A call with a
    platform that is not in the table does not raise the [ValueError] that
    lists it when the audio file is missing as well: the path is tested
    first, and the call raises [FileNotFoundError]. And a call for an audio
    path that is not among the files does not raise [FileNotFoundError]
    when the path cannot be examined: the error of the existence test
    leaves the call as it is. *)
Lemma unsupported_platform_with_missing_file :
  let o := new_orchestrator (studio [] []) in
  let r := add_job o (Pathlib.of_string "missing.wav") cover ["vimeo"] None in
  let locked := new_orchestrator (Bench.locked_lab [] [(Bench.ghost, Bench.name_too_long)]) in
  let r' := add_job locked Bench.ghost cover ["tiktok"] None in
  unsupported_platforms ["vimeo"] = ["vimeo"]
  /\ r = (Raised (FileNotFoundError "Audio file not found: missing.wav"), o)
  /\ ~ (exists msg, fst r = Raised (ValueError msg))
  /\ ~ In Bench.ghost (sim_files (lab_sim (world (env locked))))
  /\ r' = (Raised (OtherError "[Errno 36] File name too long"), locked)
  /\ ~ (exists msg, fst r' = Raised (FileNotFoundError msg)).
Proof.
  split; [vm_compute; reflexivity|]. split; [vm_compute; reflexivity|].
  split; [intros [msg H]; vm_compute in H; discriminate|].
  split; [intros H; repeat (destruct H as [H|H]; [vm_compute in H; discriminate|]);
          destruct H|].
  split; [vm_compute; reflexivity|].
  intros [msg H]. vm_compute in H. discriminate.
Qed.

Lemma add_job_rejects_bad_input_witness :
  let o := new_orchestrator (studio [] []) in
  let missing := Pathlib.of_string "missing.wav" in
  path_exists (world (env o)) song = Returned true
  /\ path_exists (world (env o)) cover = Returned true
  /\ path_exists (world (env o)) missing = Returned false
  /\ unsupported_platforms ["YouTube"; "vimeo"; "Vine"] = ["vimeo"; "Vine"]
  /\ add_job o song cover ["YouTube"; "vimeo"; "Vine"] None
     = (Raised (ValueError "Unsupported platforms: ['vimeo', 'Vine']"), o)
  /\ add_job o missing cover ["youtube"] None
     = (Raised (FileNotFoundError "Audio file not found: missing.wav"), o)
  /\ add_job o song missing ["youtube"] None
     = (Raised (FileNotFoundError "Image file not found: missing.wav"), o).
Proof.
  intros o missing.
  assert (Ha : path_exists (world (env o)) song = Returned true)
    by (vm_compute; reflexivity).
  assert (Hi : path_exists (world (env o)) cover = Returned true)
    by (vm_compute; reflexivity).
  assert (Hm : path_exists (world (env o)) missing = Returned false)
    by (vm_compute; reflexivity).
  assert (Hu : unsupported_platforms ["YouTube"; "vimeo"; "Vine"] = ["vimeo"; "Vine"])
    by (vm_compute; reflexivity).
  split; [exact Ha|]. split; [exact Hi|]. split; [exact Hm|]. split; [exact Hu|].
  split; [|split].
  - destruct (add_job_rejects_bad_input o song cover ["YouTube"; "vimeo"; "Vine"] None)
      as (_ & _ & _ & H & _).
    rewrite (H Ha Hi); [|rewrite Hu; discriminate]. rewrite Hu. reflexivity.
  - destruct (add_job_rejects_bad_input o missing cover ["youtube"] None) as (H & _).
    exact (H Hm).
  - destruct (add_job_rejects_bad_input o song missing ["youtube"] None) as (_ & H & _).
    exact (H Ha Hm).
Defined.

Lemma process_all_jobs_idempotent_witness :
  let o0 := after default_config (studio [] []) [EvAddJob song cover ["YouTube"; "tiktok"] None] in
  let sched := sequential_schedule 1 in
  exists h1 o1,
    process_all_jobs default_config sched o0 = Some (Returned h1, o1)
    /\ Forall (fun l => job_status o1 l = Some Completed) (jobs o1)
    /\ h1 = mkCounts 0 0 1 0
    /\ process_all_jobs default_config [] o1 = Some (Returned h1, o1).
Proof.
  intros o0 sched.
  destruct (process_all_jobs default_config sched o0) as [[[h1|x] o1]|] eqn:E;
    [|vm_compute in E; discriminate|vm_compute in E; discriminate].
  exists h1, o1.
  assert (Hh : h1 = mkCounts 0 0 1 0) by (vm_compute in E; congruence).
  assert (Hall : Forall (fun l => job_status o1 l = Some Completed) (jobs o1)).
  { vm_compute in E. injection E as _ <-. repeat constructor. }
  split; [reflexivity|]. split; [exact Hall|]. split; [exact Hh|].
  exact (proj1 (process_all_jobs_idempotent default_config sched o0 h1 o1 E Hall)).
Defined.

(** C6, the claim as stated fails: two jobs for the same audio file get
    different ids and the same mastered-audio artifact path. *)
Lemma two_jobs_one_mastered_path :
  let o := after default_config (studio [] []) two_jobs in
  let j1 := mkJob "song_0" song cover ["youtube"] Pending [] None in
  let j2 := mkJob "song_1" song cover ["tiktok"] Pending [] None in
  reachable default_config o
  /\ heap o = [j1; j2]
  /\ jobs o = [0; 1]
  /\ job_id j1 <> job_id j2
  /\ mastered_audio_path default_config j1 = mastered_audio_path default_config j2.
Proof.
  split; [apply after_reachable; vm_compute; discriminate|].
  split; [vm_compute; reflexivity|]. split; [vm_compute; reflexivity|].
  split; [discriminate|reflexivity].
Qed.

Lemma retry_failed_jobs_resets_then_processes_witness :
  let o := after no_resume (studio [true; true] [false]) (removelast retried) in
  valid_refs o
  /\ NoDup (job_ids o)
  /\ executor o = None
  /\ (forall l j, heap o !! l = Some j -> status j <> Processing)
  /\ job_status o 0 = Some Failed
  /\ jobs_to_process (reset_failed o) = [0]
  /\ exists h o',
      retry_failed_jobs no_resume (sequential_schedule 1) o = Some (Returned h, o')
      /\ h = mkCounts 0 0 1 0
      /\ worker_calls (new_calls (env o) (env o')) = [0]
      /\ master_calls (new_calls (env o) (env o'))
         = [(song, mastered_audio_path no_resume tiktok_job)]
      /\ render_calls (new_calls (env o) (env o')) = [(tiktok_config, PORTRAIT)]
      /\ heap o' !! 0
         = Some (mkJob "song_0" song cover ["tiktok"] Completed
                   [("TikTok_9:16",
                     Some "output/videos/song_0/tiktok/song_0_tiktok_9x16.mp4")] None)
      /\ jobs o' = jobs o
      /\ pending h = 0 /\ processing h = 0.
Proof.
  intros o.
  assert (Hr : reachable no_resume o) by (apply after_reachable; vm_compute; discriminate).
  assert (Hv : valid_refs o) by (repeat constructor).
  assert (Hn : NoDup (job_ids o)) by (apply (bool_decide_unpack _); vm_compute; exact I).
  assert (Hex : executor o = None) by (vm_compute; reflexivity).
  assert (Hnp : forall l j, heap o !! l = Some j -> status j <> Processing).
  { pose proof (reachable_bounded no_resume o Hr) as Hb. unfold bounded in Hb.
    rewrite Hex in Hb. exact Hb. }
  assert (Hq : jobs_to_process (reset_failed o) = [0]) by (vm_compute; reflexivity).
  destruct (retry_failed_jobs_resets_then_processes no_resume (sequential_schedule 1) o)
    as (_ & _ & _ & _ & Hd & _ & _ & Hs & Hw & _).
  split; [exact Hv|]. split; [exact Hn|]. split; [exact Hex|]. split; [exact Hnp|].
  split; [vm_compute; reflexivity|]. split; [exact Hq|].
  destruct (retry_failed_jobs no_resume (sequential_schedule 1) o)
    as [[[h|x] o']|] eqn:E;
    [|vm_compute in E; discriminate|vm_compute in E; discriminate].
  exists h, o'. split; [reflexivity|].
  destruct (Hs h o' eq_refl Hv Hnp) as (Hp0 & Hr0 & _).
  destruct (Hw h o' eq_refl Hv Hn) as [Hj _].
  split; [vm_compute in E; congruence|].
  split; [rewrite (Hd h o' eq_refl); exact Hq|].
  split; [vm_compute in E; injection E as _ <-; reflexivity|].
  split; [vm_compute in E; injection E as _ <-; reflexivity|].
  split; [vm_compute in E; injection E as _ <-; reflexivity|].
  auto.
Defined.

Lemma output_paths_by_stem_and_id_witness :
  let j1 := mkJob "song_0" song cover ["youtube"] Pending [] None in
  let j2 := mkJob "tune_1" (Pathlib.of_string "albums/tune.wav") cover ["tiktok"]
                  Pending [] None in
  well_formed (audio_file j1) /\ well_formed (audio_file j2)
  /\ mastered_audio_path default_config j1 <> mastered_audio_path default_config j2
  /\ video_output_dir default_config j1 <> video_output_dir default_config j2.
Proof.
  intros j1 j2.
  assert (W1 : well_formed (audio_file j1)) by (repeat constructor).
  assert (W2 : well_formed (audio_file j2)) by (repeat constructor).
  destruct (output_paths_by_stem_and_id default_config j1 j2 W1 W2) as [Hm Hv].
  split; [exact W1|]. split; [exact W2|]. split.
  - intros E. apply Hm in E. vm_compute in E. discriminate.
  - apply Hv; [reflexivity|reflexivity|discriminate].
Defined.


(** C8, the claim as stated fails: two jobs added with the same id and
    the same files become equal once both have failed, [list.index] then
    finds the first for the second, and the list holds the second job
    twice; the retry runs it twice, and when the first run fails and the
    second succeeds the job is [Completed] and still carries the error
    message of the failure. *)
Lemma completed_job_with_error_message :
  let o := after single_worker (studio [false; false; false; true] []) same_id_twice in
  reachable single_worker o
  /\ executor o = None
  /\ jobs o = [1; 1]
  /\ heap o !! 1
     = Some (mkJob "x" song cover ["tiktok"] Completed
               [("TikTok_9:16", Some "output/videos/x/tiktok/x_tiktok_9x16.mp4")]
               (Some "Audio mastering failed")).
Proof.
  split; [apply after_reachable; vm_compute; discriminate|].
  vm_compute. repeat split; reflexivity.
Qed.

Lemma error_message_iff_failed_witness :
  let o := after no_resume (studio [true; false] [false]) (removelast retried) in
  reachable no_resume o
  /\ NoDup (job_ids o)
  /\ forall l j, In l (jobs o) -> heap o !! l = Some j ->
                 (error_message j <> None <-> status j = Failed).
Proof.
  intros o.
  assert (Hr : reachable no_resume o) by (apply after_reachable; vm_compute; discriminate).
  assert (Hn : NoDup (job_ids o)) by (apply (bool_decide_unpack _); vm_compute; exact I).
  split; [exact Hr|]. split; [exact Hn|].
  exact (error_message_iff_failed no_resume o Hr Hn).
Defined.

Lemma processing_never_exceeds_pool_size_witness :
  let o := after default_config (studio [] [])
             [EvAddJob song cover ["twitter"] None;
              EvExportJobReport (Pathlib.of_string "out/report.json");
              EvClearJobs;
              EvAddJob song cover ["youtube"] None; EvAddJob song cover ["tiktok"] None;
              EvProcessAllJobs; EvPool Start; EvPool Start] in
  reachable default_config o
  /\ jobs o = [1; 2]
  /\ processing_jobs o = [1; 2]
  /\ length (processing_jobs o) <= Z.to_nat (max_concurrent_jobs default_config).
Proof.
  intros o.
  assert (Hr : reachable default_config o)
    by (apply after_reachable; vm_compute; discriminate).
  split; [exact Hr|]. split; [vm_compute; reflexivity|]. split; [vm_compute; reflexivity|].
  exact (proj1 (processing_never_exceeds_pool_size default_config o Hr)).
Defined.

(** * Further properties of the worker *)

Section WorkerFacts.

Context {World : Type} `{RT : Runtime World}.

Lemma raised_call_exception (c : Call) :
  raised c = true <-> exists x, call_exception c = Some x.
Proof.
  destruct c as [p [u|x]|a m [b|x]|i a o pc ar [b|x]|p d [u|x]|l]; simpl;
    split; try discriminate; eauto; intros [y Hy]; discriminate.
Qed.

Lemma ends_with_app {A : Type} (r : Outcome A) (pre new : list Call) :
  existsb raised pre = false -> ends_with r new -> ends_with r (pre ++ new).
Proof.
  intros Hpre. destruct r as [a|x]; simpl.
  - intros Hnew. rewrite existsb_app, Hpre, Hnew. reflexivity.
  - intros (p & c & -> & Hp & Hc). exists (pre ++ p), c.
    split; [apply app_assoc|]. split; [|exact Hc].
    rewrite existsb_app, Hpre, Hp. reflexivity.
Qed.

Lemma ends_with_raise {A : Type} (c : Call) (x : Exception) :
  call_exception c = Some x -> ends_with (Raised x : Outcome A) [c].
Proof. intros H. exists [], c. auto. Qed.

(** The inner loop of [create_multi_platform_videos]: its calls and how it
    ends. *)
Lemma render_ratios_run cfg image audio out_dir base pcs pc ratios :
  In pc pcs -> (forall ar, In ar ratios -> In ar (aspect_ratios pc)) ->
  forall e results r e',
    render_ratios cfg e image audio out_dir base pc ratios results = (r, e') ->
    exists new, trace e' = trace e ++ new /\ ends_with r new
                /\ Forall (rendition_call cfg image audio out_dir base pcs) new.
Proof.
  intros Hpc. induction ratios as [|ar rest IH]; intros Hsub e results r e' H; simpl in H.
  - injection H as <- <-. exists []. rewrite app_nil_r. repeat split. constructor.
  - destruct (do_render _ _ _ _ _ _ _) as [r1 e1] eqn:Hr.
    pose proof (do_render_trace _ _ _ _ _ _ _ _ _ Hr) as Ht.
    assert (Hcall : forall r0, rendition_call cfg image audio out_dir base pcs
                      (CallRender image audio (rendition_path cfg out_dir base pc ar)
                                  pc ar r0)).
    { intros r0. simpl. repeat split; auto. apply Hsub. left. reflexivity. }
    destruct r1 as [success|x].
    + apply IH in H as (new & Hn & Hend & Hall); [|intros a Ha; apply Hsub; right; exact Ha].
      exists ([CallRender image audio (rendition_path cfg out_dir base pc ar) pc ar
                          (Returned success)] ++ new).
      split; [rewrite Hn, Ht, <- app_assoc; reflexivity|].
      split; [apply ends_with_app; [reflexivity|exact Hend]|].
      constructor; [apply Hcall|exact Hall].
    + injection H as <- <-. eexists. split; [exact Ht|].
      split; [apply ends_with_raise; reflexivity|]. constructor; [apply Hcall|constructor].
Qed.

(** The outer loop. *)
Lemma render_platforms_run cfg image audio out_dir base pcs0 pcs :
  (forall pc, In pc pcs -> In pc pcs0) ->
  forall e results r e',
    render_platforms cfg e image audio out_dir base pcs results = (r, e') ->
    exists new, trace e' = trace e ++ new /\ ends_with r new
                /\ Forall (rendition_call cfg image audio out_dir base pcs0) new.
Proof.
  induction pcs as [|pc rest IH]; intros Hsub e results r e' H; simpl in H.
  - injection H as <- <-. exists []. rewrite app_nil_r. repeat split. constructor.
  - destruct (do_mkdir e _) as [r1 e1] eqn:Hm.
    pose proof (do_mkdir_trace _ _ _ _ Hm) as Ht.
    assert (Hpc : In pc pcs0) by (apply Hsub; left; reflexivity).
    assert (Hcall : forall r0, rendition_call cfg image audio out_dir base pcs0
                      (CallMkdir (out_dir // platform_name pc) r0)).
    { intros r0. simpl. exists pc. auto. }
    destruct r1 as [u|x].
    + destruct (render_ratios _ _ _ _ _ _ _ _ _) as [r2 e2] eqn:Hr.
      apply (render_ratios_run _ _ _ _ _ pcs0) in Hr as (new1 & Hn1 & Hend1 & Hall1);
        [|exact Hpc|auto].
      destruct r2 as [results'|x].
      * apply IH in H as (new2 & Hn2 & Hend2 & Hall2);
          [|intros p Hp; apply Hsub; right; exact Hp].
        exists ([CallMkdir (out_dir // platform_name pc) (Returned u)] ++ new1 ++ new2).
        split; [rewrite Hn2, Hn1, Ht, <- !app_assoc; reflexivity|].
        split.
        -- apply ends_with_app; [reflexivity|]. apply ends_with_app; assumption.
        -- constructor; [apply Hcall|]. apply Forall_app. split; assumption.
      * injection H as <- <-.
        exists ([CallMkdir (out_dir // platform_name pc) (Returned u)] ++ new1).
        split; [rewrite Hn1, Ht, <- !app_assoc; reflexivity|].
        split; [apply ends_with_app; [reflexivity|exact Hend1]|].
        constructor; [apply Hcall|exact Hall1].
    + injection H as <- <-. eexists. split; [exact Ht|].
      split; [apply ends_with_raise; reflexivity|]. constructor; [apply Hcall|constructor].
Qed.

(** The render stage of a job: an exception comes from the last call, or
    from [get_platform_config] before any call is made. *)
Lemma render_stage_run cfg e job r e' :
  render_stage cfg e job = (r, e') ->
  exists new,
    trace e' = trace e ++ new
    /\ Forall (job_call cfg job) new
    /\ (ends_with r new
        \/ new = [] /\ exists x, r = Raised x /\ platform_configs (platforms job) = Raised x).
Proof.
  unfold render_stage, create_multi_platform_videos. intros H.
  destruct (platform_configs (platforms job)) as [pcs|x] eqn:Hp.
  - destruct (render_platforms _ _ _ _ _ _ _ _) as [r1 e1] eqn:E.
    apply (render_platforms_run _ _ _ _ _ pcs) in E as (new & Ht & Hend & Hall); [|auto].
    assert (Hjob : Forall (job_call cfg job) new).
    { eapply Forall_impl; [exact Hall|]. intros c Hc. unfold job_call, job_platforms.
      rewrite Hp. destruct c; simpl in Hc |- *; try contradiction; exact Hc. }
    exists new. destruct r1 as [results|x].
    + assert (e1 = e') by (destruct (failed_videos results); congruence). subst e1.
      split; [exact Ht|]. split; [exact Hjob|]. left.
      destruct (failed_videos results); injection H as <-; exact Hend.
    + injection H as <- <-. split; [exact Ht|]. split; [exact Hjob|]. left. exact Hend.
  - injection H as <- <-. exists []. rewrite app_nil_r. split; [reflexivity|].
    split; [constructor|]. right. split; [reflexivity|]. exists x. auto.
Qed.

(** The whole run of a worker on a job it has marked as processing. *)
Lemma finish_job_run cfg e job0 job' e' :
  finish_job cfg e job0 = (job', e') ->
  exists new,
    trace e' = trace e ++ new
    /\ Forall (job_call cfg job0) new
    /\ (existsb raised new = true ->
        exists pre c x,
          new = pre ++ [c] /\ existsb raised pre = false /\ call_exception c = Some x
          /\ job' = fail_with (exc_str x) job0)
    /\ (status job' = Completed -> existsb raised new = false).
Proof.
  intros H. unfold finish_job, pipeline in H.
  assert (Hstage : forall e1 r e2 pre,
             render_stage cfg e1 job0 = (r, e2) ->
             trace e1 = trace e ++ pre -> existsb raised pre = false ->
             Forall (job_call cfg job0) pre ->
             (job', e') = match r with
                          | Returned j => (j, e2)
                          | Raised x => (fail_with (exc_str x) job0, e2)
                          end ->
             exists new,
               trace e' = trace e ++ new
               /\ Forall (job_call cfg job0) new
               /\ (existsb raised new = true ->
                   exists pre c x,
                     new = pre ++ [c] /\ existsb raised pre = false
                     /\ call_exception c = Some x
                     /\ job' = fail_with (exc_str x) job0)
               /\ (status job' = Completed -> existsb raised new = false)).
  { intros e1 r e2 pre Er Hpre Hnr Hfp Heq.
    destruct (render_stage_run _ _ _ _ _ Er) as (new & Ht & Hall & Hend).
    assert (e2 = e') by (destruct r; congruence). subst e2.
    exists (pre ++ new). split; [rewrite Ht, Hpre, <- app_assoc; reflexivity|].
    split; [apply Forall_app; split; assumption|].
    destruct Hend as [Hend|(-> & x & -> & Hx)].
    - destruct r as [j|x]; simpl in Hend.
      + split; [|intros _; rewrite existsb_app, Hnr, Hend; reflexivity].
        rewrite existsb_app, Hnr, Hend. discriminate.
      + destruct Hend as (p & c & -> & Hp & Hc).
        injection Heq as ->. split; [|discriminate].
        intros _. exists (pre ++ p), c, x. split; [apply app_assoc|].
        split; [rewrite existsb_app, Hnr, Hp; reflexivity|]. split; [exact Hc|reflexivity].
    - injection Heq as ->. rewrite app_nil_r, Hnr.
      split; [discriminate|]. discriminate. }
  destruct (path_exists _ _) as [present|x].
  2:{ injection H as <- <-. exists []. rewrite app_nil_r.
      split; [reflexivity|]. split; [constructor|]. split; discriminate. }
  destruct (negb _ || negb _).
  - destruct (do_master _ _ _ _) as [r e1] eqn:Em. apply do_master_trace in Em.
    destruct r as [[|]|x].
    + destruct (render_stage cfg e1 job0) as [r2 e2] eqn:Er.
      apply (Hstage e1 r2 e2 _ Er Em); [reflexivity| |destruct r2; congruence].
      constructor; [simpl; auto|constructor].
    + injection H as <- <-. eexists. split; [exact Em|].
      split; [constructor; [simpl; auto|constructor]|]. split; discriminate.
    + injection H as <- <-. eexists. split; [exact Em|].
      split; [constructor; [simpl; auto|constructor]|]. split; [|discriminate].
      intros _. exists [], (CallMaster (audio_file job0) (mastered_audio_path cfg job0)
                                       (Raised x)), x. auto.
  - destruct (render_stage cfg e job0) as [r2 e2] eqn:Er.
    apply (Hstage e r2 e2 [] Er); [now rewrite app_nil_r|reflexivity|constructor|].
    destruct r2; congruence.
Qed.

(** X1. An exception inside a worker. When one of the external calls a
    worker makes for a job raises, be it the existence test of the mastered
    file or one of the calls of the two stages, nothing is attempted after
    it: the existence test comes before every other call, and a stage call
    that raises is the last call of the run. The [except] handler leaves
    the job [Failed] with the text of the exception as its error message
    and with the outputs it had before the run. *)
Theorem worker_exception_fails_job cfg e job job' e' :
  _process_single_job cfg e job = (job', e') ->
  (exists x, path_exists (world e) (mastered_audio_path cfg job) = Raised x)
  \/ existsb raised (new_calls e e') = true ->
  exists x,
    status job' = Failed
    /\ error_message job' = Some (exc_str x)
    /\ output_files job' = output_files job
    /\ (path_exists (world e) (mastered_audio_path cfg job) = Raised x
        /\ e' = e /\ new_calls e e' = []
        \/ (exists present,
              path_exists (world e) (mastered_audio_path cfg job) = Returned present)
           /\ exists pre c,
               new_calls e e' = pre ++ [c]
               /\ existsb raised pre = false
               /\ call_exception c = Some x).
Proof.
  intros H Hr.
  destruct (path_exists (world e) (mastered_audio_path cfg job)) as [present|x] eqn:Hex.
  - destruct Hr as [[x Hx]|Hr]; [discriminate|].
    unfold _process_single_job in H.
    destruct (finish_job_run _ _ _ _ _ H) as (new & Ht & _ & Hraise & _).
    rewrite (new_calls_app _ _ _ Ht) in *.
    destruct (Hraise Hr) as (pre & c & x & -> & Hpre & Hc & ->).
    exists x. repeat split; auto. right. split; [eauto|]. exists pre, c. auto.
  - unfold _process_single_job, finish_job, pipeline in H.
    change (mastered_audio_path cfg (set_status Processing job))
      with (mastered_audio_path cfg job) in H.
    rewrite Hex in H. injection H as <- <-.
    exists x. repeat split; auto. left. rewrite new_calls_same. auto.
Qed.

(** X2. The calls of a worker. Every call a worker makes for a job is made
    for that job: mastering reads the job's audio file and writes
    [<stem>_mastered.wav] in the mastered-audio directory; every directory
    created is the sub-directory of one of the job's platforms below the
    job's own video directory; and every rendition is rendered from the
    job's image and the mastered file, for one of the job's platforms and
    one of that platform's aspect ratios, into the path built from the job
    id, the platform and the ratio. Mastering happens at most once and
    before anything else. *)
Theorem worker_calls_are_for_its_job cfg e job job' e' :
  _process_single_job cfg e job = (job', e') ->
  Forall (job_call cfg job) (new_calls e e')
  /\ exists pre stage,
      new_calls e e' = pre ++ stage
      /\ (pre = [] \/ exists r, pre = [CallMaster (audio_file job)
                                                  (mastered_audio_path cfg job) r])
      /\ forallb stage_call stage = true.
Proof.
  intros H. split.
  - unfold _process_single_job in H.
    destruct (finish_job_run _ _ _ _ _ H) as (new & Ht & Hall & _).
    rewrite (new_calls_app _ _ _ Ht). exact Hall.
  - destruct (process_single_job_cases _ _ _ _ _ H)
      as [(x & -> & _)|[(-> & _)|[(pre & new & e1 & r & -> & Hpre & Er & Ht & _)
                                 |(x & _ & -> & _)]]].
    + eexists _, []. split; [symmetry; apply app_nil_r|].
      split; [right; eauto|reflexivity].
    + eexists _, []. split; [symmetry; apply app_nil_r|].
      split; [right; eauto|reflexivity].
    + exists pre, new. split; [reflexivity|]. split.
      * destruct Hpre as [->|[-> _]]; [right; eauto|left; reflexivity].
      * destruct (render_stage_spec _ _ _ _ _ Er) as (new' & Ht' & Hs & _).
        rewrite Ht in Ht'. apply app_inv_head in Ht'. subst new'. exact Hs.
    + exists [], []. rewrite new_calls_same. auto.
Qed.

Lemma dict_set_In {V : Type} (k : string) (v : V) (d : list (string * V))
      (kv : string * V) :
  In kv (dict_set k v d) -> kv = (k, v) \/ In kv d.
Proof.
  induction d as [|[k' v'] d IH]; simpl.
  - intros [<-|[]]. auto.
  - destruct (String.eqb k k'); intros [<-|H]; auto.
    destruct (IH H); auto.
Qed.

Lemma dict_set_keys {V : Type} (k : string) (v : V) (d : list (string * V)) (k' : string) :
  k' = k \/ In k' (map fst d) -> In k' (map fst (dict_set k v d)).
Proof.
  induction d as [|[k0 v0] d IH]; simpl.
  - intros [->|[]]. auto.
  - destruct (String.eqb k k0) eqn:E.
    + apply String.eqb_eq in E. subst k0. simpl. intros [->|[->|H]]; auto.
    + simpl. intros [->|[->|H]]; auto.
Qed.

Lemma dict_get_key {V : Type} (k : string) (d : list (string * V)) :
  In k (map fst d) -> exists v, dict_get k d = Some v.
Proof.
  induction d as [|[k0 v0] d IH]; simpl; [contradiction|].
  destruct (String.eqb k k0) eqn:E; [eauto|].
  intros [->|H]; [rewrite String.eqb_refl in E; discriminate|auto].
Qed.

Lemma record_all_In (t : list Call) :
  forall d kv, In kv (record_all t d) -> In kv d \/ In kv (omap recorded t).
Proof.
  unfold record_all. induction (omap recorded t) as [|x l IH]; simpl; intros d kv H; [auto|].
  apply IH in H as [H|H]; [|auto].
  apply dict_set_In in H as [->|H]; [|auto]. right. left. destruct x; reflexivity.
Qed.

Lemma record_all_keys (t : list Call) :
  forall d k, In k (map fst d) \/ In k (map fst (omap recorded t)) ->
              In k (map fst (record_all t d)).
Proof.
  unfold record_all. induction (omap recorded t) as [|x l IH]; simpl; intros d k H.
  - destruct H as [H|[]]. exact H.
  - apply IH. destruct H as [H|[H|H]]; auto; left; apply dict_set_keys; auto.
Qed.

Lemma failed_videos_nil (d : list (string * option Path)) :
  failed_videos d = [] -> forall k v, In (k, v) d -> v <> None.
Proof.
  unfold failed_videos. induction d as [|[k0 [p|]] d IH]; simpl; try discriminate.
  - intros _ k v [].
  - intros H k v [[= <- <-]|Hin]; [discriminate|eauto].
Qed.

(** What the render stage writes into [output_files] when it runs to its
    end: one entry for each rendition of the job, keyed by platform and
    ratio, holding the rendition's path or the absence marker. *)
Lemma render_stage_outputs cfg e job j e' :
  render_stage cfg e job = (Returned j, e') ->
  (forall k v, In (k, v) (output_files j) ->
     exists pc ar,
       In (pc, ar) (renditions job) /\ k = rendition_key pc ar
       /\ (v = None
           \/ v = Some (Pathlib.to_string
                          (rendition_path cfg (video_output_dir cfg job) (job_id job)
                                          pc ar))))
  /\ (forall pc ar, In (pc, ar) (renditions job) ->
                    In (rendition_key pc ar) (map fst (output_files j)))
  /\ (status j = Completed -> forall k, ~ In (k, None) (output_files j)).
Proof.
  intros H. pose proof H as H0. unfold render_stage, create_multi_platform_videos in H.
  destruct (platform_configs (platforms job)) as [pcs|x] eqn:Hp; [|discriminate].
  destruct (render_platforms _ _ _ _ _ _ _ _) as [[results|x] e1] eqn:E; [|discriminate].
  pose proof E as E2.
  apply (render_platforms_run _ _ _ _ _ pcs) in E as (new & Ht & Hend & Hall); [|auto].
  apply render_platforms_spec in E2 as (new' & Ht' & _ & Hok).
  rewrite Ht in Ht'. apply app_inv_head in Ht'. subst new'.
  simpl in Hend. destruct (Hok Hend) as [Hcalls [= ->]].
  assert (Hren : renditions job = flat_map (fun pc => map (pair pc) (aspect_ratios pc)) pcs).
  { unfold renditions. rewrite Hp. reflexivity. }
  set (results := record_all new []) in *.
  assert (Hout : output_files j
                 = map (fun kv => (fst kv, option_map Pathlib.to_string (snd kv))) results).
  { destruct (failed_videos results); injection H as <- _; reflexivity. }
  split; [|split].
  - intros k v Hin. rewrite Hout in Hin. apply in_map_iff in Hin as ([k0 pv] & [= <- <-] & Hin).
    apply record_all_In in Hin as [[]|Hin].
    apply list_elem_of_In, list_elem_of_omap in Hin as (c & Hc & Hrec).
    rewrite Forall_forall in Hall. specialize (Hall c Hc).
    destruct c as [| |i a out pc ar [success|]| |]; try discriminate.
    injection Hrec as <- <-. simpl in Hall. destruct Hall as (_ & _ & Hpc & Har & ->).
    exists pc, ar. split; [|split; [reflexivity|]].
    + rewrite Hren. apply in_flat_map. exists pc. split; [exact Hpc|].
      apply in_map. exact Har.
    + destruct success; simpl; auto.
  - intros pc ar Hin. rewrite Hout, map_map. simpl.
    change (map (fun x : string * option Path => fst x) results) with (map fst results).
    apply record_all_keys. right. rewrite (recorded_keys _ Hend), Hcalls, <- Hren.
    apply in_map_iff. exists (pc, ar). auto.
  - intros Hst k Hin. rewrite Hout in Hin.
    apply in_map_iff in Hin as ([k0 pv] & [= <- Hv] & Hin). simpl in Hv.
    destruct (failed_videos results) eqn:Hf.
    + destruct pv; [discriminate|]. exact (failed_videos_nil _ Hf _ _ Hin eq_refl).
    + injection H as <- _. discriminate.
Qed.

(** X3. The outputs of a completed job. When a worker leaves a job
    [Completed], no call of the run raised, the job keeps the error message
    it had, every entry of its [output_files] is the path of one of the
    job's renditions under the key of that rendition (no entry holds the
    absence marker), and every rendition of the job has an entry. *)
Theorem completed_job_outputs cfg e job job' e' :
  _process_single_job cfg e job = (job', e') ->
  status job' = Completed ->
  existsb raised (new_calls e e') = false
  /\ error_message job' = error_message job
  /\ (forall k v, In (k, v) (output_files job') ->
        exists pc ar,
          In (pc, ar) (renditions job) /\ k = rendition_key pc ar
          /\ v = Some (Pathlib.to_string
                         (rendition_path cfg (video_output_dir cfg job) (job_id job)
                                         pc ar)))
  /\ (forall pc ar, In (pc, ar) (renditions job) ->
        exists v, dict_get (rendition_key pc ar) (output_files job') = Some (Some v)).
Proof.
  intros H Hst.
  assert (Hnr : existsb raised (new_calls e e') = false).
  { unfold _process_single_job in H.
    destruct (finish_job_run _ _ _ _ _ H) as (new & Ht & _ & _ & Hc).
    rewrite (new_calls_app _ _ _ Ht). auto. }
  split; [exact Hnr|].
  destruct (process_single_job_cases _ _ _ _ _ H)
    as [(x & _ & ->)|[(_ & ->)|[(pre & new & e1 & r & _ & _ & Er & _ & ->)
                               |(x & _ & _ & ->)]]];
    try discriminate.
  destruct r as [j|x]; [|discriminate].
  destruct (render_stage_result _ _ _ _ _ Er) as (outs & [Hj|(msg & Hj)]);
    [|rewrite Hj in Hst; discriminate].
  destruct (render_stage_outputs _ _ _ _ _ Er) as (Hin & Hkeys & Hnone).
  assert (Hsome : forall k v, In (k, v) (output_files j) ->
            exists pc ar,
              In (pc, ar) (renditions job) /\ k = rendition_key pc ar
              /\ v = Some (Pathlib.to_string
                             (rendition_path cfg (video_output_dir cfg job) (job_id job)
                                             pc ar))).
  { intros k v Hkv. destruct (Hin k v Hkv) as (pc & ar & Hr & Hk & [->|Hv]).
    - destruct (Hnone Hst k Hkv).
    - exists pc, ar. auto. }
  split; [rewrite Hj; reflexivity|]. split; [exact Hsome|].
  intros pc ar Hr. destruct (dict_get_key _ _ (Hkeys pc ar Hr)) as [v Hv].
  destruct (Hsome _ _ (dict_get_Some_In _ _ _ Hv)) as (pc' & ar' & _ & _ & Hv').
  rewrite Hv' in Hv. eauto.
Qed.

End WorkerFacts.

(** * Further properties of the pool *)

Section PoolFacts.

Context {World : Type} `{RT : Runtime World}.

(** X4. The four counts. In a state whose job list holds only references
    to allocated jobs (every reachable state is one), the four counts of
    the status summary add up to the number of listed jobs, each one is
    the number of listed jobs with that status, and the failed count is the
    length of what [get_failed_jobs] returns. *)
Theorem status_counts_add_up (o : Orchestrator (World := World)) :
  valid_refs o ->
  pending (status_counts o) + processing (status_counts o)
  + completed (status_counts o) + failed (status_counts o) = length (jobs o)
  /\ pending (status_counts o) = count_status o Pending
  /\ processing (status_counts o) = count_status o Processing
  /\ completed (status_counts o) = count_status o Completed
  /\ failed (status_counts o) = count_status o Failed
  /\ failed (status_counts o) = length (get_failed_jobs o).
Proof.
  intros Hv. destruct (status_counts_count o) as (H1 & H2 & H3 & H4).
  split; [|repeat split; auto]. rewrite H1, H2, H3, H4. apply count_status_sum. exact Hv.
Qed.

(** Every state an orchestrator reaches holds only allocated jobs in its
    list, and while no run is in progress none of its job objects is
    processing. *)
Lemma reachable_idle cfg (o : Orchestrator (World := World)) :
  reachable cfg o -> executor o = None ->
  valid_refs o /\ forall l j, heap o !! l = Some j -> status j <> Processing.
Proof.
  intros Hr Hex. split; [exact (reachable_valid_refs cfg o Hr)|].
  pose proof (reachable_bounded cfg o Hr) as Hb. unfold bounded in Hb.
  rewrite Hex in Hb. exact Hb.
Qed.

(** X5. Every job is settled. Take a state whose job list holds only
    allocated jobs and in which no job object is processing, as it is in
    every state the operations of the orchestrator reach while no run is in
    progress. When [process_all_jobs] returns its summary there, no listed
    job is pending or processing any more: every one of them is completed
    or failed, the summary counts no pending and no processing job, and its
    completed and failed counts add up to the length of the job list. *)
Theorem process_all_jobs_settles_every_job cfg sched o h o' :
  valid_refs o ->
  (forall l j, heap o !! l = Some j -> status j <> Processing) ->
  process_all_jobs cfg sched o = Some (Returned h, o') ->
  pending h = 0 /\ processing h = 0
  /\ completed h + failed h = length (jobs o')
  /\ Forall (fun l => job_status o' l = Some Completed \/ job_status o' l = Some Failed)
            (jobs o').
Proof.
  intros Hv Hnp H.
  assert (Hex : executor o = None).
  { unfold process_all_jobs in H. destruct (executor o); [discriminate|reflexivity]. }
  apply (process_all_jobs_settled cfg sched o h o'); [exact Hv| | |exact H].
  - unfold bounded. rewrite Hex. exact Hnp.
  - unfold pool_progress. rewrite Hex. exact I.
Qed.

(** X6. What a run leaves alone. [process_all_jobs] changes no job object
    other than those that were listed as pending when it was called: a job
    that was completed or failed before the call, or is not in the list, is
    exactly as it was, whatever the call produces. The job list keeps its
    length and gets no new entry: every job listed afterwards was listed
    before. A job can lose its place in the list, to another job with the
    same id, when the result is written back with
    [self.jobs[self.jobs.index(job)] = updated_job]; with pairwise
    different job ids the list is exactly as before. *)
Theorem process_all_jobs_frame cfg sched (o : Orchestrator (World := World)) r o' :
  process_all_jobs cfg sched o = Some (r, o') ->
  (forall l, ~ In l (jobs_to_process o) -> heap o' !! l = heap o !! l)
  /\ length (jobs o') = length (jobs o)
  /\ (forall l, In l (jobs o') -> In l (jobs o))
  /\ (valid_refs o -> NoDup (job_ids o) -> jobs o' = jobs o).
Proof.
  intros H. destruct (process_all_jobs_untouched cfg sched o r o' H) as (_ & Hl & Hf & Hin).
  split; [exact Hf|]. split; [exact Hl|]. split; [exact Hin|].
  intros Hv Hnd. exact (proj1 (process_all_jobs_runs_workers cfg sched o r o' Hv Hnd H)).
Qed.

(** X7. Job ids keep their places. Whatever the interleaving of the pool
    and whatever it produces, [process_all_jobs] leaves the same job id at
    every position of the job list: writing a result back with
    [self.jobs[self.jobs.index(job)] = updated_job] may put another job
    object at a position, but never one with another id. *)
Theorem process_all_jobs_keeps_job_ids cfg sched o r o' :
  valid_refs o ->
  process_all_jobs cfg sched o = Some (r, o') ->
  valid_refs o' /\ job_ids o' = job_ids o.
Proof.
  intros Hv H.
  assert (Hl : valid_refs o' /\ listed_ids o' = listed_ids o).
  { unfold process_all_jobs in H.
    destruct (executor o) eqn:Hex; [discriminate|].
    destruct (begin_processing cfg o) as [r0|o1] eqn:Hb.
    - destruct sched; [|discriminate]. injection H as <- <-. auto.
    - assert (Ho1 : o1 = mkOrch (heap o) (jobs o) (env o)
                            (Some (mkExecutor (jobs_to_process o) [] []))).
      { unfold begin_processing in Hb. destruct (jobs o); [discriminate|].
        destruct (jobs_to_process o); [discriminate|].
        destruct (max_concurrent_jobs cfg <=? 0)%Z; [discriminate|].
        injection Hb as <-. reflexivity. }
      destruct (run_pool cfg sched o1) as [o2|] eqn:Hrun; [|discriminate].
      apply run_pool_ids in Hrun as [Hv2 H2]; [|rewrite Ho1; exact Hv].
      unfold end_processing in H.
      destruct (executor o2) as [[[|] [|] [|]]|]; try discriminate.
      injection H as <- <-. split; [exact Hv2|]. rewrite Ho1 in H2. exact H2. }
  destruct Hl as [Hv' Hl]. split; [exact Hv'|].
  rewrite (listed_ids_job_ids o Hv), (listed_ids_job_ids o' Hv') in Hl.
  revert Hl. generalize (job_ids o') (job_ids o).
  induction l as [|a l IH]; intros [|b l']; simpl; try discriminate; auto.
  intros [= -> Hl]. f_equal. auto.
Qed.

(** X8. A pool without workers. With [max_concurrent_jobs] at zero or
    below, [process_all_jobs] raises the [ValueError] of
    [ThreadPoolExecutor] as soon as one listed job is pending, and returns
    the summary as usual when none is; either way no worker is started and
    the orchestrator is left as it was. *)
Theorem nonpositive_pool_size cfg o :
  (max_concurrent_jobs cfg <= 0)%Z ->
  executor o = None ->
  process_all_jobs cfg [] o
  = Some (match jobs_to_process o with
          | [] => Returned (status_counts o)
          | _ :: _ => Raised (ValueError "max_workers must be greater than 0")
          end, o)
  /\ forall sched, sched <> [] -> process_all_jobs cfg sched o = None.
Proof.
  intros Hmax Hex. unfold process_all_jobs, begin_processing. rewrite Hex.
  apply Z.leb_le in Hmax. rewrite Hmax.
  destruct (jobs o) as [|l js] eqn:Hj.
  - unfold jobs_to_process. rewrite Hj. simpl. rewrite (status_counts_nil o Hj).
    split; [reflexivity|]. intros [|ev sched] Hs; [contradiction|reflexivity].
  - destruct (jobs_to_process o).
    + split; [reflexivity|]. intros [|ev sched] Hs; [contradiction|reflexivity].
    + split; [reflexivity|]. intros [|ev sched] Hs; [contradiction|reflexivity].
Qed.

End PoolFacts.

(** * Further properties of the platform table and of the output paths *)

Lemma dict_get_lower_name (k : string) (pc : PlatformConfig) :
  dict_get k PLATFORM_CONFIGS = Some pc -> k = Py.lower (name pc).
Proof.
  unfold PLATFORM_CONFIGS. simpl.
  repeat match goal with
         | |- context [String.eqb k ?s] =>
             destruct (String.eqb_spec k s) as [->|_]; [intros [= <-]; reflexivity|]
         end.
  discriminate.
Qed.

Lemma supported_dict_get (p : string) :
  supported p = true <-> exists pc, dict_get (Py.lower p) PLATFORM_CONFIGS = Some pc.
Proof.
  unfold supported, list_supported_platforms.
  generalize (Py.lower p) as k. intros k. generalize PLATFORM_CONFIGS as d.
  induction d as [|[k' v] d IH]; simpl.
  - split; [discriminate|intros [pc H]; discriminate].
  - destruct (String.eqb k k'); simpl; [split; eauto|exact IH].
Qed.

(** X9. Looking a platform up. [get_platform_config] accepts exactly the
    identifiers [add_job] accepts, without regard to case: it returns the
    table entry whose lower-cased name is the lower-cased identifier, the
    same entry for the identifier and for its lower-cased form, and raises
    [ValueError] naming the identifier as it was given for any other. Case
    is what [str.lower] makes of it: an identifier written with the Kelvin
    sign for the letter k is accepted like one written with the letter. *)
Theorem get_platform_config_spec (p : string) :
  (supported p = true <-> exists pc, get_platform_config p = Returned pc)
  /\ (supported p = false
      <-> get_platform_config p = Raised (ValueError ("Unsupported platform: " +:+ p)))
  /\ (forall pc, get_platform_config p = Returned pc ->
                 Py.lower (name pc) = Py.lower p
                 /\ In (Py.lower p, pc) PLATFORM_CONFIGS
                 /\ get_platform_config (Py.lower p) = Returned pc
                 /\ get_platform_config (name pc) = Returned pc)
  /\ get_platform_config ("Ti" +:+ Py.kelvin_sign +:+ "Tok") = Returned tiktok_config
  /\ supported ("ti" +:+ Py.kelvin_sign +:+ "tok") = true.
Proof.
  pose proof (supported_dict_get p) as Hs. unfold get_platform_config.
  split; [|split; [|split; [|split; reflexivity]]].
  - rewrite Hs. split; intros [pc H].
    + rewrite H. eauto.
    + destruct (dict_get (Py.lower p) PLATFORM_CONFIGS); [eauto|discriminate].
  - destruct (dict_get (Py.lower p) PLATFORM_CONFIGS) as [pc|] eqn:E.
    + assert (H : supported p = true) by (apply Hs; eauto). rewrite H.
      split; discriminate.
    + split; [reflexivity|]. intros _. destruct (supported p); [|reflexivity].
      destruct (proj1 Hs eq_refl) as [pc H]. discriminate.
  - intros pc H. destruct (dict_get (Py.lower p) PLATFORM_CONFIGS) as [pc'|] eqn:E;
      [|discriminate].
    injection H as ->. pose proof (dict_get_lower_name _ _ E) as Hn.
    assert (Hk : Py.lower (Py.lower p) = Py.lower p).
    { apply lower_key, supported_iff, Hs. eauto. }
    split; [auto|]. split; [apply dict_get_Some_In; exact E|].
    rewrite Hk, <- Hn, E. auto.
Qed.

Lemma platform_configs_from_table (ps : list string) :
  forall pcs, platform_configs ps = Returned pcs ->
              Forall2 (fun p pc => dict_get (Py.lower p) PLATFORM_CONFIGS = Some pc) ps pcs.
Proof.
  induction ps as [|p ps IH]; simpl; intros pcs H.
  - injection H as <-. constructor.
  - unfold get_platform_config in H.
    destruct (dict_get (Py.lower p) PLATFORM_CONFIGS) as [pc|] eqn:E; [|discriminate].
    destruct (platform_configs ps) as [pcs'|]; [|discriminate].
    injection H as <-. constructor; auto.
Qed.

Lemma renditions_in_catalog (job : ProcessingJob) (pc : PlatformConfig) (ar : AspectRatio) :
  In (pc, ar) (renditions job) ->
  In pc (map snd PLATFORM_CONFIGS) /\ In ar (aspect_ratios pc).
Proof.
  unfold renditions. destruct (platform_configs (platforms job)) as [pcs|] eqn:E; [|intros []].
  intros H. apply in_flat_map in H as (pc' & Hpc & H).
  apply in_map_iff in H as (ar' & [= <- <-] & Har). split; [|exact Har].
  apply platform_configs_from_table in E. clear -E Hpc.
  induction E as [|p pc0 ps pcs Hp _ IH]; [destruct Hpc|].
  destruct Hpc as [<-|Hpc]; [|auto].
  apply in_map_iff. exists (Py.lower p, pc0). split; [reflexivity|].
  apply dict_get_Some_In. exact Hp.
Qed.

(** X10. A resolution for every rendition. For every rendition of a job (a
    platform the table resolves and one of its aspect ratios) the
    subscript [recommended_resolutions[aspect_ratio]] finds a resolution,
    and its width and height are positive and in the proportion the ratio
    names. *)
Theorem rendition_has_resolution (job : ProcessingJob) (pc : PlatformConfig)
        (ar : AspectRatio) :
  In (pc, ar) (renditions job) ->
  exists r, recommended_resolution pc ar = Some r
            /\ (0 < width r)%Z /\ (0 < height r)%Z
            /\ (width r * snd (ratio_numbers ar) = height r * fst (ratio_numbers ar))%Z.
Proof.
  intros H. apply renditions_in_catalog in H as [Hpc Har].
  simpl in Hpc.
  repeat (destruct Hpc as [<-|Hpc];
          [simpl in Har;
           repeat (destruct Har as [<-|Har];
                   [eexists; split; [reflexivity|simpl; lia]|]);
           destruct Har|]).
  destruct Hpc.
Qed.

Lemma append_inj_l (s a b : string) : s +:+ a = s +:+ b -> a = b.
Proof. induction s as [|c s IH]; simpl; [auto|]. intros [= E]. auto. Qed.

Lemma rendition_filename_plain (base rest : string) :
  no_slash base = true -> no_slash rest = true -> plain (base +:+ "_" +:+ rest) = true.
Proof.
  intros Hb Hr. unfold plain, Pathlib.is_component.
  rewrite !no_slash_append, Hb, Hr. simpl.
  destruct base as [|c [|d base]]; try reflexivity; simpl.
  - destruct (Ascii.eqb c "."); reflexivity.
  - destruct (Ascii.eqb c "."); reflexivity.
Qed.

Lemma platform_name_plain (pc : PlatformConfig) :
  In pc (map snd PLATFORM_CONFIGS) -> plain (platform_name pc) = true.
Proof.
  simpl. intros H. repeat (destruct H as [<-|H]; [reflexivity|]). destruct H.
Qed.

Lemma platform_name_inj (pc1 pc2 : PlatformConfig) :
  In pc1 (map snd PLATFORM_CONFIGS) -> In pc2 (map snd PLATFORM_CONFIGS) ->
  platform_name pc1 = platform_name pc2 -> pc1 = pc2.
Proof.
  simpl. intros H1 H2.
  repeat (destruct H1 as [<-|H1];
          [repeat (destruct H2 as [<-|H2];
                   [first [reflexivity|vm_compute; discriminate]|]); destruct H2|]).
  destruct H1.
Qed.

Lemma ratio_suffix_no_slash (ar : AspectRatio) :
  no_slash (Py.replace ":" "x" (aspect_ratio_value ar)) = true.
Proof. destruct ar; reflexivity. Qed.

Lemma ratio_suffix_inj (a1 a2 : AspectRatio) :
  Py.replace ":" "x" (aspect_ratio_value a1) = Py.replace ":" "x" (aspect_ratio_value a2) ->
  a1 = a2.
Proof. destruct a1, a2; first [reflexivity|vm_compute; discriminate]. Qed.

(** The path of a rendition, part by part. *)
Lemma rendition_path_parts cfg (out_dir : Path) (base : string) (pc : PlatformConfig)
      (ar : AspectRatio) :
  no_slash base = true ->
  no_slash (Video.output_format (video_generation cfg)) = true ->
  In pc (map snd PLATFORM_CONFIGS) ->
  rendition_path cfg out_dir base pc ar
  = mkPath (root out_dir)
           (parts out_dir
            ++ [platform_name pc;
                base +:+ "_" +:+ platform_name pc +:+ "_"
                     +:+ Py.replace ":" "x" (aspect_ratio_value ar) +:+ "."
                     +:+ Video.output_format (video_generation cfg)]).
Proof.
  intros Hb Hf Hpc. unfold rendition_path.
  pose proof (platform_name_plain pc Hpc) as Hpn.
  rewrite (joinpath_plain out_dir _ Hpn).
  rewrite joinpath_plain.
  - simpl. rewrite <- app_assoc. reflexivity.
  - apply rendition_filename_plain; [exact Hb|].
    unfold plain in Hpn. apply andb_true_iff in Hpn as [Hpn _].
    rewrite !no_slash_append, Hpn, ratio_suffix_no_slash, Hf. reflexivity.
Qed.

(** X11. No two renditions of a job share a file. For a job whose id has
    no slash, and an output format without one, the paths of two
    renditions of the job are the same only when the renditions are: the
    render stage never writes one rendition over another of the same job.
    Each path lies two levels below the job's video directory, in the
    sub-directory named after the platform. *)
Theorem job_renditions_have_distinct_paths cfg (job : ProcessingJob)
        (r1 r2 : PlatformConfig * AspectRatio) :
  no_slash (job_id job) = true ->
  no_slash (Video.output_format (video_generation cfg)) = true ->
  In r1 (renditions job) -> In r2 (renditions job) ->
  (rendition_path cfg (video_output_dir cfg job) (job_id job) (fst r1) (snd r1)
   = rendition_path cfg (video_output_dir cfg job) (job_id job) (fst r2) (snd r2)
   -> r1 = r2)
  /\ Pathlib.parent (Pathlib.parent
       (rendition_path cfg (video_output_dir cfg job) (job_id job) (fst r1) (snd r1)))
     = video_output_dir cfg job.
Proof.
  destruct r1 as [pc1 ar1], r2 as [pc2 ar2]. simpl. intros Hb Hf H1 H2.
  apply renditions_in_catalog in H1 as [Hpc1 _].
  apply renditions_in_catalog in H2 as [Hpc2 _].
  rewrite !(rendition_path_parts cfg _ _ _ _ Hb Hf Hpc1).
  rewrite !(rendition_path_parts cfg _ _ _ _ Hb Hf Hpc2).
  split.
  - intros [= E]. apply app_inv_head in E. injection E as Hn E.
    apply (platform_name_inj _ _ Hpc1 Hpc2) in Hn. subst pc2.
    do 4 apply append_inj_l in E. apply append_inj_r in E.
    apply ratio_suffix_inj in E. congruence.
  - unfold Pathlib.parent. simpl.
    destruct (video_output_dir cfg job) as [rt ps]. simpl. f_equal.
    match goal with
    | |- context [[platform_name pc1; ?f]] =>
        change [platform_name pc1; f] with ([platform_name pc1] ++ [f])
    end.
    rewrite app_assoc, removelast_last, removelast_last. reflexivity.
Qed.

(** * Properties of the other operations on the job list *)

Section QueueFacts.

Context {World : Type} `{RT : Runtime World} `{FS : FileSystem World}.

Lemma find_ext_in {A : Type} (f g : A -> bool) (ls : list A) :
  (forall x, In x ls -> f x = g x) -> List.find f ls = List.find g ls.
Proof.
  induction ls as [|x ls IH]; intros H; simpl; [reflexivity|].
  rewrite (H x) by (left; reflexivity). destruct (g x); [reflexivity|].
  apply IH. intros y Hy. apply H. right. exact Hy.
Qed.

Lemma find_app_first {A : Type} (f : A -> bool) (l1 l2 : list A) :
  List.find f (l1 ++ l2)
  = match List.find f l1 with Some x => Some x | None => List.find f l2 end.
Proof.
  induction l1 as [|x l1 IH]; simpl; [reflexivity|]. destruct (f x); auto.
Qed.

(** The first match in a list of references, all of them allocated. *)
Lemma find_job_first (h : list ProcessingJob) (id : string) (js : list loc) :
  Forall (fun l => l < length h) js ->
  match List.find (fun l => match h !! l with
                            | Some job => String.eqb (job_id job) id
                            | None => false
                            end) js with
  | Some l =>
      exists k job,
        js !! k = Some l /\ h !! l = Some job /\ job_id job = id
        /\ forall k' l' job', k' < k -> js !! k' = Some l' -> h !! l' = Some job' ->
                              job_id job' <> id
  | None => ~ In id (map job_id (omap (fun l => h !! l) js))
  end.
Proof.
  induction 1 as [|a js Ha _ IH]; simpl; [tauto|].
  apply lookup_lt_is_Some_2 in Ha as [job Hjob]. rewrite Hjob.
  destruct (String.eqb_spec (job_id job) id) as [E|E].
  - exists 0, job. repeat split; auto. intros k' l' job' Hk. lia.
  - destruct (List.find _ js) as [l|].
    + destruct IH as (k & job1 & Hk & Hl & Hid & Hfirst).
      exists (S k), job1. repeat split; auto.
      intros [|k'] l' job' Hlt Hk' Hl'; simpl in Hk'.
      * injection Hk' as <-. rewrite Hjob in Hl'. injection Hl' as <-. exact E.
      * apply (Hfirst k' l' job'); auto. lia.
    + simpl. intros [H|H]; [exact (E H)|exact (IH H)].
Qed.

(** X12. Looking a job up by id. In a state whose job list holds only
    allocated jobs, [get_job_status] returns the job at the first position
    of the list whose id is the one asked for, and returns [None] exactly
    when no listed job has that id. *)
Theorem get_job_status_first_match (o : Orchestrator (World := World)) (id : string) :
  valid_refs o ->
  match get_job_status o id with
  | Some l =>
      exists k job,
        jobs o !! k = Some l /\ heap o !! l = Some job /\ job_id job = id
        /\ forall k' l' job', k' < k -> jobs o !! k' = Some l' ->
                              heap o !! l' = Some job' -> job_id job' <> id
  | None => ~ In id (job_ids o)
  end.
Proof. intros Hv. exact (find_job_first (heap o) id (jobs o) Hv). Qed.

(** What a successful [add_job] does to the orchestrator. *)
Lemma add_job_returned o audio image ps l o' :
  add_job o audio image ps None = (Returned l, o') ->
  l = length (heap o)
  /\ o' = mkOrch (heap o ++ [batch_job image ps (length (jobs o)) audio])
                 (jobs o ++ [l]) (env o) (executor o)
  /\ path_exists (world (env o)) audio = Returned true
  /\ path_exists (world (env o)) image = Returned true
  /\ unsupported_platforms ps = [].
Proof.
  unfold add_job, unsupported_platforms.
  destruct (path_exists (world (env o)) audio) as [[|]|x]; [|discriminate|discriminate].
  destruct (path_exists (world (env o)) image) as [[|]|x]; [|discriminate|discriminate].
  destruct (List.filter _ ps); [|discriminate].
  intros [= <- <-]. auto.
Qed.

(** X13. An id that is already taken. After a successful [add_job],
    [get_job_status] for the new job's id returns the new job only when no
    listed job had that id before; otherwise it keeps returning the older
    job, and the new one cannot be found by its id. Lookups of every other
    id are unaffected. *)
Theorem added_job_found_unless_id_taken o audio image ps id l o' :
  valid_refs o ->
  add_job o audio image ps id = (Returned l, o') ->
  exists job,
    heap o' !! l = Some job
    /\ get_job_status o' (job_id job)
       = match get_job_status o (job_id job) with
         | Some l0 => Some l0
         | None => Some l
         end
    /\ (In (job_id job) (job_ids o) -> get_job_status o' (job_id job) <> Some l)
    /\ forall id', id' <> job_id job -> get_job_status o' id' = get_job_status o id'.
Proof.
  intros Hv H.
  destruct (add_job_stores _ _ _ _ _ _ _ H) as (-> & Hj & job & Hh & _).
  exists job.
  assert (Hl : heap o' !! length (heap o) = Some job).
  { rewrite Hh. rewrite lookup_app_r by lia. rewrite Nat.sub_diag. reflexivity. }
  assert (Hfind : forall id0,
            get_job_status o' id0
            = match get_job_status o id0 with
              | Some l0 => Some l0
              | None => if String.eqb (job_id job) id0 then Some (length (heap o)) else None
              end).
  { intros id0. unfold get_job_status. rewrite Hj, find_app_first.
    rewrite (find_ext_in _ (fun l => match heap o !! l with
                                     | Some job => String.eqb (job_id job) id0
                                     | None => false
                                     end) (jobs o)).
    - destruct (List.find _ (jobs o)); [reflexivity|]. simpl. rewrite Hl.
      destruct (String.eqb (job_id job) id0); reflexivity.
    - intros x Hx. rewrite Hh.
      rewrite lookup_app_l; [reflexivity|].
      exact (proj1 (Forall_forall _ _) Hv x (proj2 (list_elem_of_In _ _) Hx)). }
  split; [exact Hl|]. split; [|split].
  - rewrite Hfind, String.eqb_refl. reflexivity.
  - intros Hin. rewrite Hfind.
    pose proof (find_job_first (heap o) (job_id job) (jobs o) Hv) as Hf.
    fold (get_job_status o (job_id job)) in Hf.
    destruct (get_job_status o (job_id job)) as [l0|]; [|contradiction].
    destruct Hf as (k & job0 & _ & Hl0 & _).
    apply lookup_lt_Some in Hl0. intros [= E]. lia.
  - intros id' Hne. rewrite Hfind.
    destruct (get_job_status o id'); [reflexivity|].
    destruct (String.eqb_spec (job_id job) id'); [congruence|reflexivity].
Qed.

(** X14. Clearing the list. [clear_jobs] empties the job list and
    leaves every job object as it is: afterwards no id is found,
    [process_all_jobs] reports four zeros without doing anything, and the
    ids [add_job] generates start again at [<stem>_0], so that an id given
    out before the clear can be given out a second time. *)
Theorem clear_jobs_restarts_numbering cfg (o : Orchestrator (World := World))
        audio image ps l o' :
  executor o = None ->
  add_job (clear_jobs o) audio image ps None = (Returned l, o') ->
  heap (clear_jobs o) = heap o
  /\ (forall id, get_job_status (clear_jobs o) id = None)
  /\ process_all_jobs cfg [] (clear_jobs o) = Some (Returned no_counts, clear_jobs o)
  /\ jobs o' = [l]
  /\ heap o' = heap o ++ [batch_job image ps 0 audio]
  /\ exists job, heap o' !! l = Some job
                 /\ job_id job = Pathlib.stem audio +:+ "_0".
Proof.
  intros Hex H. apply add_job_returned in H as (-> & -> & _). simpl.
  split; [reflexivity|]. split; [reflexivity|]. split.
  - unfold process_all_jobs. simpl. rewrite Hex. reflexivity.
  - split; [reflexivity|]. split; [reflexivity|].
    exists (batch_job image ps 0 audio). split; [|reflexivity].
    rewrite lookup_app_r by lia. rewrite Nat.sub_diag. reflexivity.
Qed.

(** The loop of [add_batch_jobs] when it runs to its end. *)
Lemma add_jobs_returned image ps (files : list Path) :
  forall o added ls o',
    add_jobs o files image ps added = (Returned ls, o') ->
    ls = added ++ seq (length (heap o)) (length files)
    /\ o' = mkOrch (heap o ++ imap (fun i f => batch_job image ps (length (jobs o) + i) f)
                                   files)
                   (jobs o ++ seq (length (heap o)) (length files)) (env o) (executor o)
    /\ (files <> [] ->
        unsupported_platforms ps = []
        /\ path_exists (world (env o)) image = Returned true
        /\ Forall (fun f => path_exists (world (env o)) f = Returned true) files).
Proof.
  induction files as [|f files IH]; intros o added ls o' H; simpl in H.
  - injection H as <- <-. destruct o as [h js e ex]. simpl. rewrite !app_nil_r.
    split; [reflexivity|]. split; [reflexivity|]. intros Hc. contradiction.
  - destruct (add_job o f image ps None) as [[l|x] o1] eqn:E; [|discriminate].
    apply add_job_returned in E as (-> & -> & Hf & Hi & Hu).
    apply IH in H as (-> & -> & Hrest). simpl.
    rewrite !length_app, <- !app_assoc. simpl.
    rewrite Nat.add_1_r, Nat.add_0_r. split; [reflexivity|]. split.
    + f_equal. f_equal. f_equal. apply imap_ext. intros i x _. simpl.
      f_equal. lia.
    + intros _. split; [exact Hu|]. split; [exact Hi|]. constructor; [exact Hf|].
      destruct files as [|f' files]; [constructor|]. apply Hrest. discriminate.
Qed.

Lemma add_batch_jobs_returned o dir image ps pat ls o' :
  add_batch_jobs o dir image ps pat = (Returned ls, o') ->
  exists files,
    glob (world (env o)) dir pat = Returned files
    /\ ls = seq (length (heap o)) (length files)
    /\ jobs o' = jobs o ++ ls
    /\ heap o' = heap o ++ imap (fun i f => batch_job image ps (length (jobs o) + i) f)
                                files
    /\ env o' = env o /\ executor o' = executor o
    /\ (files <> [] ->
        unsupported_platforms ps = []
        /\ Forall (fun f => path_exists (world (env o)) f = Returned true) files).
Proof.
  unfold add_batch_jobs. intros H.
  destruct (path_exists (world (env o)) dir) as [[|]|x]; [|discriminate|discriminate].
  destruct (path_exists (world (env o)) image) as [[|]|x]; [|discriminate|discriminate].
  destruct (glob (world (env o)) dir pat) as [files|x]; [|discriminate].
  exists files. split; [reflexivity|]. destruct files as [|f files].
  - injection H as <- <-. simpl. rewrite !app_nil_r.
    do 5 (split; [reflexivity|]). intros Hc. contradiction.
  - apply add_jobs_returned in H as (-> & -> & Hrest). simpl.
    do 5 (split; [reflexivity|]). intros Hc. destruct (Hrest Hc) as (Hu & _ & Hf). auto.
Qed.

(** X15. A batch that is added. When [add_batch_jobs] returns, it has
    added one pending job for each path the glob yielded, in the order of
    the glob, after the jobs already there: the job for the [i]-th path
    has that path as its audio file, the given image, the lower-cased
    platforms, and the id [<stem>_<n>] where [n] is its position in the
    whole job list. The returned list is exactly these jobs. *)
Theorem add_batch_jobs_adds_every_match o dir image ps pat ls o' :
  add_batch_jobs o dir image ps pat = (Returned ls, o') ->
  exists files,
    glob (world (env o)) dir pat = Returned files
    /\ ls = seq (length (heap o)) (length files)
    /\ jobs o' = jobs o ++ ls
    /\ heap o' = heap o ++ imap (fun i f => batch_job image ps (length (jobs o) + i) f)
                                files
    /\ env o' = env o /\ executor o' = executor o
    /\ (files <> [] ->
        unsupported_platforms ps = []
        /\ Forall (fun f => path_exists (world (env o)) f = Returned true) files).
Proof. exact (add_batch_jobs_returned o dir image ps pat ls o'). Qed.

(** The loop of [add_batch_jobs] when [add_job] raises. *)
Lemma add_jobs_raised image ps (files : list Path) :
  forall o added x o',
    add_jobs o files image ps added = (Raised x, o') ->
    exists n f,
      files !! n = Some f
      /\ o' = mkOrch (heap o ++ imap (fun i f => batch_job image ps (length (jobs o) + i) f)
                                     (take n files))
                     (jobs o ++ seq (length (heap o)) n) (env o) (executor o)
      /\ add_job o' f image ps None = (Raised x, o').
Proof.
  induction files as [|f files IH]; intros o added x o' H; simpl in H; [discriminate|].
  destruct (add_job o f image ps None) as [[l|y] o1] eqn:E.
  - apply add_job_returned in E as (-> & -> & _).
    apply IH in H as (n & f' & Hn & Ho' & Hraise). exists (S n), f'.
    split; [exact Hn|]. split; [|exact Hraise].
    rewrite Ho'. simpl.
    rewrite !length_app, <- !app_assoc. simpl. rewrite !Nat.add_1_r, Nat.add_0_r.
    f_equal. f_equal. f_equal. apply imap_ext. intros i y _. simpl. f_equal. lia.
  - injection H as <- <-. exists 0, f. simpl. rewrite !app_nil_r.
    pose proof (add_job_raised_unchanged _ _ _ _ _ _ _ E) as Ho.
    subst o1. split; [reflexivity|]. split; [destruct o; reflexivity|exact E].
Qed.

(** X16. A batch that fails half-way. When [add_batch_jobs] raises, the
    orchestrator is either unchanged, or it already holds a job for each
    of the first [n] paths of the glob, [n] at least one: the call failed
    at the next path, either because the existence test reported that this
    path does not exist, which raises [FileNotFoundError] for it, or
    because the existence test itself raised; and the call did not take
    back the jobs it had added. A missing directory or image, a refused
    pattern and an unsupported platform are all detected before anything
    is added. *)
Theorem add_batch_jobs_keeps_jobs_added_before_failure o dir image ps pat x o' :
  add_batch_jobs o dir image ps pat = (Raised x, o') ->
  o' = o
  \/ exists files n f,
      glob (world (env o)) dir pat = Returned files
      /\ 0 < n /\ files !! n = Some f
      /\ (path_exists (world (env o)) f = Returned false
          /\ x = FileNotFoundError ("Audio file not found: " +:+ Pathlib.to_string f)
          \/ path_exists (world (env o)) f = Raised x)
      /\ jobs o' = jobs o ++ seq (length (heap o)) n
      /\ heap o' = heap o ++ imap (fun i f => batch_job image ps (length (jobs o) + i) f)
                                  (take n files).
Proof.
  unfold add_batch_jobs. intros H.
  destruct (path_exists (world (env o)) dir) as [[|]|y];
    [|injection H as _ <-; auto|injection H as _ <-; auto].
  destruct (path_exists (world (env o)) image) as [[|]|y] eqn:Hi;
    [|injection H as _ <-; auto|injection H as _ <-; auto].
  destruct (glob (world (env o)) dir pat) as [files|y]; [|injection H as _ <-; auto].
  destruct files as [|f0 files]; [discriminate|].
  pose proof H as H0.
  apply add_jobs_raised in H as (n & f & Hn & Ho' & Hraise).
  destruct n as [|n].
  - left. rewrite Ho'. simpl. rewrite !app_nil_r. destruct o; reflexivity.
  - right. exists (f0 :: files), (S n), f. split; [reflexivity|].
    split; [lia|]. split; [exact Hn|].
    assert (Hfirst : unsupported_platforms ps = []).
    { simpl in H0. destruct (add_job o f0 image ps None) as [[l|z] o1] eqn:E.
      - apply add_job_returned in E. tauto.
      - injection H0 as _ <-. exfalso.
        pose proof (add_job_raised_unchanged _ _ _ _ _ _ _ E) as Ho1.
        rewrite Ho1 in Ho'. apply (f_equal jobs) in Ho'. simpl in Ho'.
        rewrite <- (app_nil_r (jobs o)) in Ho' at 1.
        apply app_inv_head in Ho'. discriminate. }
    assert (Henv : env o' = env o) by (rewrite Ho'; reflexivity).
    unfold add_job in Hraise. rewrite Henv in Hraise.
    split; [|rewrite Ho'; simpl; auto].
    destruct (path_exists (world (env o)) f) as [[|]|y].
    + rewrite Hi in Hraise. fold (unsupported_platforms ps) in Hraise.
      rewrite Hfirst in Hraise. discriminate.
    + injection Hraise as <-. left. auto.
    + injection Hraise as <-. right. reflexivity.
Qed.

(** [add_batch_jobs] is a sequence of [add_job] calls, so every state it
    leaves behind is one the transition system reaches. *)
Lemma steps_app cfg (evs1 evs2 : list Event) (o o1 : Orchestrator (World := World)) :
  steps cfg evs1 o = Some o1 -> steps cfg (evs1 ++ evs2) o = steps cfg evs2 o1.
Proof.
  revert o. induction evs1 as [|ev evs1 IH]; simpl; intros o H.
  - injection H as <-. reflexivity.
  - destruct (step cfg ev o) as [o2|]; [|discriminate]. exact (IH _ H).
Qed.

Lemma add_jobs_steps cfg image ps (files : list Path) :
  forall (o : Orchestrator (World := World)) added r o',
    executor o = None ->
    add_jobs o files image ps added = (r, o') ->
    exists n, steps cfg (map (fun a => EvAddJob a image ps None) (take n files)) o
              = Some o'.
Proof.
  induction files as [|a files IH]; simpl; intros o added r o' Hex H.
  - injection H as _ <-. exists 0. reflexivity.
  - destruct (add_job o a image ps None) as [[l|x] o1] eqn:E.
    + assert (Hex1 : executor o1 = None).
      { apply add_job_returned in E as (_ & -> & _). exact Hex. }
      destruct (IH o1 _ _ _ Hex1 H) as [n Hn]. exists (S n). simpl.
      rewrite Hex, E. exact Hn.
    + injection H as _ <-. exists 1. simpl.
      rewrite Hex, E. reflexivity.
Qed.

Lemma add_batch_jobs_reachable cfg o dir image ps pat r o' :
  reachable cfg o -> executor o = None ->
  add_batch_jobs o dir image ps pat = (r, o') -> reachable cfg o'.
Proof.
  intros (w & evs & Hevs) Hex H. unfold add_batch_jobs in H.
  assert (Hsame : o' = o -> reachable cfg o') by (intros ->; exists w, evs; exact Hevs).
  destruct (path_exists _ dir) as [[|]|x]; [|injection H as _ <-; auto ..].
  destruct (path_exists _ image) as [[|]|x]; [|injection H as _ <-; auto ..].
  destruct (glob _ dir pat) as [[|f files]|x]; [injection H as _ <-; auto| |injection H as _ <-; auto].
  destruct (add_jobs_steps cfg _ _ _ _ _ _ _ Hex H) as [n Hn].
  exists w, (evs ++ map (fun a => EvAddJob a image ps None) (take n (f :: files))).
  rewrite (steps_app _ _ _ _ _ Hevs). exact Hn.
Qed.

End QueueFacts.

(** * Properties of audio/mastering.py *)

Section MasteringFacts.

Context {World : Type} `{RT : Runtime World} `{FS : FileSystem World}
        `{TL : Mastering.Tools World}.

Import Mastering.

Lemma common_paths_truthy (p : string) : In p common_paths -> truthy (Some p) = true.
Proof. simpl. intros [<-|[<-|[<-|[]]]]; reflexivity. Qed.

(** X17. Finding the Ozone executable. What [_find_ozone_executable]
    returns exists and is not the empty string, so the later test
    [if self.ozone_path] is true exactly when an executable was found; it
    is the configured path when that is set, not empty and exists, and
    otherwise the first of the three usual installation paths that exists;
    it is [None] only if none of these candidates exists. *)
Theorem find_ozone_executable_spec (w : World) (cfg : Audio.AudioMasteringConfig) :
  match _find_ozone_executable w cfg with
  | Some p =>
      os_path_exists w p = true
      /\ truthy (Some p) = true
      /\ (Audio.ozone_path cfg = Some p \/ In p common_paths)
  | None =>
      (forall p, Audio.ozone_path cfg = Some p -> truthy (Some p) = true ->
                 os_path_exists w p = false)
      /\ Forall (fun p => os_path_exists w p = false) common_paths
  end
  /\ (forall p, Audio.ozone_path cfg = Some p -> truthy (Some p) = true ->
                os_path_exists w p = true -> _find_ozone_executable w cfg = Some p)
  /\ truthy (ozone_path (new w cfg))
     = bool_decide (_find_ozone_executable w cfg <> None).
Proof.
  assert (Hfind : match List.find (os_path_exists w) common_paths with
                  | Some p => os_path_exists w p = true /\ truthy (Some p) = true
                              /\ In p common_paths
                  | None => Forall (fun p => os_path_exists w p = false) common_paths
                  end).
  { destruct (List.find (os_path_exists w) common_paths) as [p|] eqn:E.
    - apply find_some in E as [Hin He]. split; [exact He|].
      split; [apply common_paths_truthy; exact Hin|exact Hin].
    - apply Forall_forall. intros p Hp. apply list_elem_of_In in Hp.
      exact (find_none _ _ E p Hp). }
  assert (Hmain : match _find_ozone_executable w cfg with
                  | Some p =>
                      os_path_exists w p = true
                      /\ truthy (Some p) = true
                      /\ (Audio.ozone_path cfg = Some p \/ In p common_paths)
                  | None =>
                      (forall p, Audio.ozone_path cfg = Some p -> truthy (Some p) = true ->
                                 os_path_exists w p = false)
                      /\ Forall (fun p => os_path_exists w p = false) common_paths
                  end).
  { unfold _find_ozone_executable.
    destruct (Audio.ozone_path cfg) as [p|].
    - destruct (truthy (Some p) && os_path_exists w p) eqn:E.
      + apply andb_true_iff in E as [Ht He]. auto.
      + destruct (List.find (os_path_exists w) common_paths) as [q|].
        * destruct Hfind as (H1 & H2 & H3). auto.
        * split; [|exact Hfind]. intros p' [= <-] Ht. rewrite Ht in E. exact E.
    - destruct (List.find (os_path_exists w) common_paths) as [q|].
      + destruct Hfind as (H1 & H2 & H3). auto.
      + split; [|exact Hfind]. intros p' [=]. }
  split; [exact Hmain|]. split.
  - intros p Hp Ht He. unfold _find_ozone_executable. rewrite Hp, Ht, He. reflexivity.
  - unfold new. simpl. destruct (_find_ozone_executable w cfg) as [p|].
    + destruct Hmain as (_ & -> & _). symmetry. apply bool_decide_eq_true. discriminate.
    + symmetry. apply bool_decide_eq_false. intros H. apply H. reflexivity.
Qed.

(** X18. What [master_audio_file] can produce. When the existence test
    reports that the input file is missing, it returns [False] without
    touching anything. It raises only when the existence test of the input
    raises, before anything is touched, or when creating the directory of
    the output file raises: once the directory is there it returns a
    boolean, since a tool that raises makes it return [False]. It returns
    [True] only when the input exists, the directory could be created, and
    the one tool that was selected at construction succeeded: the copy with
    an Ozone executable, FFmpeg with return code zero without one. *)
Theorem master_audio_file_outcomes (m : AudioMasterer) (w : World) (input output : Path) :
  (path_exists w input = Returned false ->
   master_audio_file m w input output = (Returned false, w))
  /\ (forall x, path_exists w input = Raised x ->
                master_audio_file m w input output = (Raised x, w))
  /\ (forall x w', master_audio_file m w input output = (Raised x, w') ->
        path_exists w input = Raised x /\ w' = w
        \/ path_exists w input = Returned true
           /\ mkdir w (Pathlib.parent output) = (Raised x, w'))
  /\ (forall u w1,
        path_exists w input = Returned true ->
        mkdir w (Pathlib.parent output) = (Returned u, w1) ->
        exists b w', master_audio_file m w input output = (Returned b, w'))
  /\ (forall w', master_audio_file m w input output = (Returned true, w') ->
        path_exists w input = Returned true
        /\ exists u w1,
            mkdir w (Pathlib.parent output) = (Returned u, w1)
            /\ if truthy (ozone_path m)
               then exists u', copy2 w1 input output = (Returned u', w')
               else run_ffmpeg w1 (config m) input output = (Returned 0%Z, w')).
Proof.
  unfold master_audio_file, _master_with_ozone, _master_with_ffmpeg.
  split; [intros ->; reflexivity|]. split; [intros x ->; reflexivity|].
  destruct (path_exists w input) as [[|]|y].
  - destruct (mkdir w (Pathlib.parent output)) as [[u|y] w1].
    + split; [|split].
      * intros x w' H. destruct (truthy (ozone_path m)).
        -- destruct (copy2 w1 input output) as [[?|?] ?]; discriminate.
        -- destruct (run_ffmpeg w1 (config m) input output) as [[?|?] ?]; discriminate.
      * intros u0 w0 _ [= <- <-]. destruct (truthy (ozone_path m)).
        -- destruct (copy2 w1 input output) as [[?|?] ?]; eauto.
        -- destruct (run_ffmpeg w1 (config m) input output) as [[?|?] ?]; eauto.
      * intros w' H. split; [reflexivity|]. exists u, w1. split; [reflexivity|].
        destruct (truthy (ozone_path m)).
        -- destruct (copy2 w1 input output) as [[u'|?] w2]; [|discriminate].
           injection H as <-. eauto.
        -- destruct (run_ffmpeg w1 (config m) input output) as [[code|?] w2];
             [|discriminate].
           injection H as Hc <-. apply Z.eqb_eq in Hc. subst code. reflexivity.
    + split; [|split; [intros; discriminate|intros; discriminate]].
      intros x w' [= <- <-]. auto.
  - split; [|split]; intros; discriminate.
  - split; [|split; [intros; discriminate|intros; discriminate]].
    intros x w' [= <- <-]. auto.
Qed.

(** The loop of [batch_master_directory]: the result lists, in the order
    of the input, outputs of input files. *)
Lemma master_files_sublist (m : AudioMasterer) (output_dir : Path) (files : list Path) :
  forall w mastered outs w',
    master_files m w files output_dir mastered = (Returned outs, w') ->
    exists rest, outs = mastered ++ rest
                 /\ rest `sublist_of` map (mastered_file output_dir) files.
Proof.
  induction files as [|f files IH]; intros w mastered outs w' H; simpl in H.
  - injection H as <- <-. exists []. rewrite app_nil_r. split; [reflexivity|constructor].
  - destruct (master_audio_file m w f (mastered_file output_dir f)) as [[[|]|x] w1];
      [| |discriminate].
    + apply IH in H as (rest & -> & Hsub).
      exists (mastered_file output_dir f :: rest). rewrite <- app_assoc.
      split; [reflexivity|]. simpl. apply sublist_skip. exact Hsub.
    + apply IH in H as (rest & -> & Hsub). exists rest.
      split; [reflexivity|]. simpl. apply sublist_cons. exact Hsub.
Qed.

(** X19. What [batch_master_directory] returns. The list it returns holds
    output files only of input files the glob yielded, each named
    [<stem>_mastered<suffix>] in the output directory, in the order of the
    glob and never more of them than there were input files; a file that
    fails to master is left out and does not stop the loop. Without the
    input directory the result is empty and nothing is touched, not even
    the output directory. *)
Theorem batch_master_directory_returns_outputs (m : AudioMasterer) (w : World)
        (input_dir output_dir : Path) (pattern : string) (outs : list Path) (w' : World) :
  batch_master_directory m w input_dir output_dir pattern = (Returned outs, w') ->
  (path_exists w input_dir = Returned false /\ outs = [] /\ w' = w)
  \/ (path_exists w input_dir = Returned true
      /\ exists u w1 files,
          mkdir w output_dir = (Returned u, w1)
          /\ glob w1 input_dir pattern = Returned files
          /\ outs `sublist_of` map (mastered_file output_dir) files
          /\ length outs <= length files).
Proof.
  unfold batch_master_directory. intros H.
  destruct (path_exists w input_dir) as [[|]|x];
    [|injection H as <- <-; auto|discriminate].
  right. split; [reflexivity|].
  destruct (mkdir w output_dir) as [[u|x] w1]; [|discriminate].
  destruct (glob w1 input_dir pattern) as [files|x] eqn:Hg; [|discriminate].
  exists u, w1, files. split; [reflexivity|]. split; [exact Hg|].
  assert (Hsub : outs `sublist_of` map (mastered_file output_dir) files).
  { destruct files as [|f files].
    - injection H as <- <-. constructor.
    - apply master_files_sublist in H as (rest & -> & Hsub). exact Hsub. }
  split; [exact Hsub|]. apply sublist_length in Hsub. rewrite length_map in Hsub. exact Hsub.
Qed.

End MasteringFacts.

(** * Properties of [create_video] *)

Section GenerationFacts.

Context {World : Type} `{RT : Runtime World} `{EN : Generation.Encoder World}.

Import Generation.

(** X20. The checks of [create_video]. When the existence test reports
    that the image or, with the image present, the audio file does not
    exist, or when both exist and the aspect ratio asked for is not one of
    the platform's, [create_video] returns [False] and touches nothing: no
    directory is created and the encoder is not run. An error that one of
    the two existence tests raises leaves the call, again with nothing
    touched. Given no ratio, the call behaves as for the platform's first
    ratio, whatever the files are; for a platform without ratios it then
    raises the [IndexError] of [aspect_ratios[0]] (an [OtherError] with
    Python's text for it) once both files have been found. *)
Theorem create_video_rejects_without_effect (cfg : Video.VideoGenerationConfig)
        (w : World) (image audio output : Path) (pc : PlatformConfig)
        (aspect_ratio : option AspectRatio) :
  (path_exists w image = Returned false
   \/ path_exists w image = Returned true /\ path_exists w audio = Returned false
   \/ path_exists w image = Returned true /\ path_exists w audio = Returned true
      /\ (exists ar, aspect_ratio = Some ar /\ ~ In ar (aspect_ratios pc)) ->
   create_video cfg w image audio output pc aspect_ratio = (Returned false, w))
  /\ (forall x,
        path_exists w image = Raised x
        \/ path_exists w image = Returned true /\ path_exists w audio = Raised x ->
        create_video cfg w image audio output pc aspect_ratio = (Raised x, w))
  /\ (forall ar rest,
        aspect_ratios pc = ar :: rest ->
        create_video cfg w image audio output pc None
        = create_video cfg w image audio output pc (Some ar))
  /\ (aspect_ratios pc = [] ->
      path_exists w image = Returned true -> path_exists w audio = Returned true ->
      create_video cfg w image audio output pc None
      = (Raised (OtherError "list index out of range"), w)).
Proof.
  unfold create_video. split; [|split; [|split]].
  - intros [->|[[-> ->]|(-> & -> & ar & -> & Hn)]]; try reflexivity.
    rewrite bool_decide_eq_false_2; [reflexivity|].
    intros Hin. apply Hn, list_elem_of_In. exact Hin.
  - intros x [->|[-> ->]]; reflexivity.
  - intros ar rest Hr. rewrite Hr. reflexivity.
  - intros -> -> ->. reflexivity.
Qed.

End GenerationFacts.

(** * Properties of utils/file_utils.py *)

Section FileUtilsFacts.

Context {World : Type} `{RT : Runtime World} `{FS : FileSystem World}
        `{FI : FileUtils.FileInfo World}.

Import FileUtils.

(** What a file that passes validation is like. *)
Lemma validate_file_true (extensions : list string) (mime_prefix : string)
      (w : World) (p : Path) :
  validate_file extensions mime_prefix w p = Returned true ->
  path_exists w p = Returned true
  /\ In (Py.lower (path_suffix p)) extensions
  /\ (exists n, st_size w p = Returned n /\ (1024 <= n)%Z)
  /\ (forall t, guess_type w (Pathlib.to_string p) = Some t -> t <> EmptyString ->
                String.prefix mime_prefix t = true).
Proof.
  unfold validate_file.
  destruct (path_exists w p) as [[|]|y]; [|discriminate|discriminate].
  destruct (existsb _ extensions) eqn:He; [|discriminate]. simpl.
  destruct (truthy _ && negb _) eqn:Hm; [discriminate|].
  destruct (st_size w p) as [n|x]; [|discriminate].
  intros [= Hn]. split; [reflexivity|]. split; [|split].
  - apply existsb_exists in He as (e & Hin & E). apply String.eqb_eq in E. subst e. exact Hin.
  - exists n. split; [reflexivity|]. apply negb_true_iff, Z.ltb_ge in Hn. exact Hn.
  - intros t Ht Hne. rewrite Ht in Hm. destruct t as [|c t]; [contradiction|].
    simpl in Hm. apply negb_false_iff in Hm. exact Hm.
Qed.

Lemma keep_valid_sublist (validate : World -> Path -> Outcome bool) (w : World)
      (files : list Path) :
  forall valid kept,
    keep_valid validate w files valid = Returned kept ->
    exists rest, kept = valid ++ rest
                 /\ rest `sublist_of` files
                 /\ Forall (fun p => validate w p = Returned true) rest.
Proof.
  induction files as [|f files IH]; intros valid kept H; simpl in H.
  - injection H as <-. exists []. rewrite app_nil_r. repeat constructor.
  - destruct (validate w f) as [[|]|x] eqn:E; [| |discriminate].
    + apply IH in H as (rest & -> & Hsub & Hall). exists (f :: rest).
      rewrite <- app_assoc. split; [reflexivity|].
      split; [apply sublist_skip; exact Hsub|]. constructor; assumption.
    + apply IH in H as (rest & -> & Hsub & Hall). exists rest.
      split; [reflexivity|]. split; [apply sublist_cons; exact Hsub|exact Hall].
Qed.

(** X21. What [find_audio_files] returns. Every path it returns was
    yielded by one of the globs and passed [validate_audio_file]: it
    exists, its lower-cased suffix is one of the six audio extensions, and
    it holds at least 1024 bytes. The paths come in the order of the globs,
    pattern by pattern. The result is empty when the directory does not
    exist or is not a directory. *)
Theorem find_audio_files_returns_valid_files (w : World) (directory : Path)
        (patterns : option (list string)) (files : list Path) :
  find_audio_files w directory patterns = Returned files ->
  Forall (fun p => validate_audio_file w p = Returned true
                   /\ path_exists w p = Returned true
                   /\ In (Py.lower (path_suffix p)) supported_audio_extensions
                   /\ exists n, st_size w p = Returned n /\ (1024 <= n)%Z) files
  /\ (files <> [] ->
      path_exists w directory = Returned true /\ is_dir w directory = Returned true
      /\ exists globbed,
          glob_all w directory
                   (match patterns with Some ps => ps | None => default_audio_patterns end)
                   [] = Returned globbed
          /\ files `sublist_of` globbed).
Proof.
  unfold find_audio_files, find_files. intros H.
  destruct (path_exists w directory) as [[|]|y];
    [|injection H as <-; split; [constructor|intros Hc; contradiction]|discriminate].
  destruct (is_dir w directory) as [[|]|y];
    [|injection H as <-; split; [constructor|intros Hc; contradiction]|discriminate].
  destruct (glob_all w directory _ []) as [globbed|x] eqn:Hg; [|discriminate].
  apply keep_valid_sublist in H as (rest & -> & Hsub & Hall). simpl.
  split.
  - eapply Forall_impl; [exact Hall|]. intros p Hp. split; [exact Hp|].
    destruct (validate_file_true _ _ _ _ Hp) as (H1 & H2 & H3 & _). auto.
  - intros _. split; [reflexivity|]. split; [reflexivity|]. exists globbed. auto.
Qed.

End FileUtilsFacts.

(** * Properties of [clean_filename] *)

Section CleanFilenameFacts.

Import FileUtils.

Lemma replace_invalid_valid (s : string) :
  all_chars (fun c => negb (invalid_char c)) (replace_invalid s) = true.
Proof.
  induction s as [|c s IH]; simpl; [reflexivity|].
  destruct (invalid_char c) eqn:E; simpl; [exact IH|rewrite E; exact IH].
Qed.

Lemma squeeze_cons (c : ascii) (s : string) :
  squeeze (String c s)
  = if Ascii.eqb c "_"
       && match first_char s with Some d => Ascii.eqb d "_" | None => false end
    then squeeze s else String c (squeeze s).
Proof. destruct s as [|d s]; simpl; destruct (Ascii.eqb c "_"); reflexivity. Qed.

Lemma no_double_underscore_cons (c : ascii) (s : string) :
  no_double_underscore (String c s)
  = negb (Ascii.eqb c "_"
          && match first_char s with Some d => Ascii.eqb d "_" | None => false end)
    && no_double_underscore s.
Proof. destruct s as [|d s]; simpl; [rewrite andb_false_r|]; reflexivity. Qed.

Lemma squeeze_first (s : string) : first_char (squeeze s) = first_char s.
Proof.
  induction s as [|c s IH]; [reflexivity|]. rewrite squeeze_cons.
  destruct (Ascii.eqb c "_") eqn:E; [|reflexivity]. simpl.
  destruct (first_char s) as [d|] eqn:Hd; [|reflexivity].
  destruct (Ascii.eqb d "_") eqn:E2; [|reflexivity].
  rewrite IH. apply Ascii.eqb_eq in E, E2. simpl. congruence.
Qed.

Lemma squeeze_all (p : ascii -> bool) (s : string) :
  all_chars p s = true -> all_chars p (squeeze s) = true.
Proof.
  induction s as [|c s IH]; [auto|]. rewrite squeeze_cons. simpl.
  intros H. apply andb_true_iff in H as [Hc Hs].
  destruct (_ && _); [auto|]. simpl. rewrite Hc. auto.
Qed.

Lemma squeeze_no_double (s : string) : no_double_underscore (squeeze s) = true.
Proof.
  induction s as [|c s IH]; [reflexivity|]. rewrite squeeze_cons.
  destruct (Ascii.eqb c "_" && _) eqn:E; [exact IH|].
  rewrite no_double_underscore_cons, squeeze_first, E, IH. reflexivity.
Qed.

Lemma lstrip_all (p : ascii -> bool) (s : string) :
  all_chars p s = true -> all_chars p (lstrip s) = true.
Proof.
  induction s as [|c s IH]; [auto|]. simpl. intros H.
  destruct (strip_char c); [|exact H]. apply andb_true_iff in H as [_ H]. auto.
Qed.

Lemma lstrip_no_double (s : string) :
  no_double_underscore s = true -> no_double_underscore (lstrip s) = true.
Proof.
  induction s as [|c s IH]; [auto|]. intros H. simpl lstrip.
  destruct (strip_char c); [|exact H].
  rewrite no_double_underscore_cons in H. apply andb_true_iff in H as [_ H]. auto.
Qed.

Lemma lstrip_first (s : string) :
  match first_char (lstrip s) with
  | Some c => strip_char c = false
  | None => lstrip s = EmptyString
  end.
Proof.
  induction s as [|c s IH]; [reflexivity|]. simpl.
  destruct (strip_char c) eqn:E; [exact IH|exact E].
Qed.

Lemma rstrip_all (p : ascii -> bool) (s : string) :
  all_chars p s = true -> all_chars p (rstrip s) = true.
Proof.
  induction s as [|c s IH]; [auto|]. simpl. intros H.
  apply andb_true_iff in H as [Hc Hs]. specialize (IH Hs).
  destruct (rstrip s) as [|d r].
  - destruct (strip_char c); simpl; [reflexivity|rewrite Hc; reflexivity].
  - change (p c && all_chars p (String d r) = true). rewrite Hc. exact IH.
Qed.

Lemma rstrip_first (s : string) :
  rstrip s <> EmptyString -> first_char (rstrip s) = first_char s.
Proof.
  destruct s as [|c s]; [reflexivity|]. simpl.
  destruct (rstrip s); [|reflexivity].
  destruct (strip_char c); [contradiction|reflexivity].
Qed.

Lemma rstrip_no_double (s : string) :
  no_double_underscore s = true -> no_double_underscore (rstrip s) = true.
Proof.
  induction s as [|c s IH]; [auto|]. intros H.
  rewrite no_double_underscore_cons in H. apply andb_true_iff in H as [Hc Hs].
  specialize (IH Hs). simpl rstrip.
  destruct (rstrip s) as [|d r] eqn:Hr.
  - destruct (strip_char c); reflexivity.
  - rewrite no_double_underscore_cons, IH, andb_true_r.
    rewrite <- Hr, rstrip_first by (rewrite Hr; discriminate). exact Hc.
Qed.

Lemma rstrip_last (s : string) :
  match last_char (rstrip s) with
  | Some c => strip_char c = false
  | None => rstrip s = EmptyString
  end.
Proof.
  induction s as [|c s IH]; [reflexivity|]. simpl rstrip.
  destruct (rstrip s) as [|d r].
  - destruct (strip_char c) eqn:E; simpl; auto.
  - change (last_char (String c (String d r))) with (last_char (String d r)).
    destruct (last_char (String d r)); [exact IH|discriminate].
Qed.

Lemma untitled_clean : clean "untitled" = true.
Proof. reflexivity. Qed.

(** The name left after the three passes is clean, unless it is empty. *)
Lemma stripped_clean (s : string) :
  let t := rstrip (lstrip (squeeze (replace_invalid s))) in
  t <> EmptyString -> clean t = true.
Proof.
  intros t Ht. unfold clean.
  assert (H1 : all_chars (fun c => negb (invalid_char c)) t = true).
  { apply rstrip_all, lstrip_all, squeeze_all, replace_invalid_valid. }
  assert (H2 : no_double_underscore t = true).
  { apply rstrip_no_double, lstrip_no_double, squeeze_no_double. }
  rewrite H1, H2. simpl.
  assert (H3 : match first_char t with Some c => negb (strip_char c) | None => false end
               = true).
  { unfold t. rewrite rstrip_first by exact Ht.
    pose proof (lstrip_first (squeeze (replace_invalid s))) as Hf.
    destruct (first_char (lstrip (squeeze (replace_invalid s)))) as [c|].
    - rewrite Hf. reflexivity.
    - exfalso. apply Ht. unfold t. rewrite Hf. reflexivity. }
  rewrite H3. simpl.
  pose proof (rstrip_last (lstrip (squeeze (replace_invalid s)))) as Hl.
  fold t in Hl. destruct (last_char t) as [c|]; [rewrite Hl; reflexivity|contradiction].
Qed.

Lemma clean_filename_clean (s : string) : clean (clean_filename s) = true.
Proof.
  unfold clean_filename.
  pose proof (stripped_clean s) as H. simpl in H.
  destruct (rstrip (lstrip (squeeze (replace_invalid s)))) as [|c t];
    [reflexivity|]. apply H. discriminate.
Qed.

Lemma replace_invalid_id (s : string) :
  all_chars (fun c => negb (invalid_char c)) s = true -> replace_invalid s = s.
Proof.
  induction s as [|c s IH]; [reflexivity|]. simpl. intros H.
  apply andb_true_iff in H as [Hc Hs]. apply negb_true_iff in Hc.
  rewrite Hc, (IH Hs). reflexivity.
Qed.

Lemma squeeze_id (s : string) : no_double_underscore s = true -> squeeze s = s.
Proof.
  induction s as [|c s IH]; [reflexivity|]. rewrite squeeze_cons, no_double_underscore_cons.
  intros H. apply andb_true_iff in H as [Hc Hs]. apply negb_true_iff in Hc.
  rewrite Hc, (IH Hs). reflexivity.
Qed.

Lemma lstrip_id (s : string) :
  match first_char s with Some c => negb (strip_char c) | None => false end = true ->
  lstrip s = s.
Proof.
  destruct s as [|c s]; simpl; [discriminate|]. intros H.
  apply negb_true_iff in H. rewrite H. reflexivity.
Qed.

Lemma rstrip_id (s : string) :
  match last_char s with Some c => negb (strip_char c) | None => false end = true ->
  rstrip s = s.
Proof.
  induction s as [|c s IH]; [discriminate|]. destruct s as [|d s].
  - simpl. intros H. apply negb_true_iff in H. rewrite H. reflexivity.
  - change (last_char (String c (String d s))) with (last_char (String d s)).
    intros H. specialize (IH H). simpl rstrip in *. rewrite IH. reflexivity.
Qed.

Lemma clean_fixed (s : string) : clean s = true -> clean_filename s = s.
Proof.
  unfold clean. intros H.
  apply andb_true_iff in H as [H H4]. apply andb_true_iff in H as [H H3].
  apply andb_true_iff in H as [H1 H2].
  unfold clean_filename.
  rewrite (replace_invalid_id s H1), (squeeze_id s H2), (lstrip_id s H3), (rstrip_id s H4).
  destruct s; [discriminate|reflexivity].
Qed.

Lemma clean_plain (s : string) : clean s = true -> plain s = true.
Proof.
  unfold clean. intros H.
  apply andb_true_iff in H as [H _]. apply andb_true_iff in H as [H H3].
  apply andb_true_iff in H as [H1 _].
  unfold plain. apply andb_true_iff. split.
  - clear H3. induction s as [|c s IH]; [reflexivity|]. simpl in *.
    apply andb_true_iff in H1 as [Hc Hs]. rewrite (IH Hs), andb_true_r.
    destruct (Ascii.eqb_spec c "/") as [->|]; [discriminate|reflexivity].
  - destruct s as [|c s]; [discriminate|]. simpl in H3.
    unfold strip_char in H3. apply negb_true_iff, orb_false_iff in H3 as [_ H3].
    unfold Pathlib.is_component. simpl. rewrite H3. reflexivity.
Qed.

(** X22. A cleaned name is safe. Whatever the input, [clean_filename]
    returns a name that is not empty, holds none of the characters the
    regular expression names, has no two underscores in a row and neither
    begins nor ends with an underscore or a dot; it is a single path
    component, so joining it to a directory stays inside that directory;
    and cleaning it again gives the same name. *)
Theorem clean_filename_safe (filename : string) :
  clean (clean_filename filename) = true
  /\ clean_filename filename <> EmptyString
  /\ all_chars (fun c => negb (invalid_char c)) (clean_filename filename) = true
  /\ no_double_underscore (clean_filename filename) = true
  /\ plain (clean_filename filename) = true
  /\ (forall directory, Pathlib.parent (directory // clean_filename filename) = directory)
  /\ clean_filename (clean_filename filename) = clean_filename filename.
Proof.
  pose proof (clean_filename_clean filename) as H.
  pose proof (clean_plain _ H) as Hp.
  split; [exact H|]. split; [|split; [|split; [|split; [exact Hp|split]]]].
  - intros E. rewrite E in H. discriminate.
  - unfold clean in H. apply andb_true_iff in H as [H _].
    apply andb_true_iff in H as [H _]. apply andb_true_iff in H as [H _]. exact H.
  - unfold clean in H. apply andb_true_iff in H as [H _].
    apply andb_true_iff in H as [H _]. apply andb_true_iff in H as [_ H]. exact H.
  - intros [r ps]. rewrite (joinpath_plain _ _ Hp). unfold Pathlib.parent. simpl.
    rewrite removelast_last. reflexivity.
  - apply clean_fixed. exact H.
Qed.

(** X23. A clean name is kept. A name that is not empty, holds none of the
    characters the regular expression names, has no two underscores in a
    row and neither begins nor ends with an underscore or a dot comes out
    of [clean_filename] unchanged. *)
Theorem clean_filename_keeps_clean_names (filename : string) :
  clean filename = true -> clean_filename filename = filename.
Proof. exact (clean_fixed filename). Qed.

End CleanFilenameFacts.

(** * Generated job ids and the report *)

Section IdFacts.

Context {World : Type} `{RT : Runtime World}.

Lemma to_uint_nonnil (n : nat) : Nat.to_uint n <> Decimal.Nil.
Proof.
  rewrite <- (DecimalNat.Unsigned.of_to n), DecimalNat.Unsigned.to_of.
  apply DecimalFacts.unorm_nonnil.
Qed.

Lemma str_of_nat_inj (n m : nat) : Py.str_of_nat n = Py.str_of_nat m -> n = m.
Proof.
  unfold Py.str_of_nat. intros E. apply DecimalNat.Unsigned.to_uint_inj.
  pose proof (NilZero.usu _ (to_uint_nonnil n)) as Hn.
  pose proof (NilZero.usu _ (to_uint_nonnil m)) as Hm.
  rewrite E in Hn. congruence.
Qed.

Lemma rfind_digits (d : Decimal.uint) : Py.rfind "_" (NilEmpty.string_of_uint d) = None.
Proof. induction d; simpl; try rewrite IHd; reflexivity. Qed.

Lemma rfind_str_of_nat (n : nat) : Py.rfind "_" (Py.str_of_nat n) = None.
Proof.
  unfold Py.str_of_nat, NilZero.string_of_uint.
  destruct (Nat.to_uint n); try reflexivity; apply rfind_digits.
Qed.

Lemma rfind_append (c : ascii) (s t : string) (i : nat) :
  Py.rfind c t = Some i -> Py.rfind c (s +:+ t) = Some (String.length s + i).
Proof. intros H. induction s as [|d s IH]; simpl; [exact H|]. rewrite IH. reflexivity. Qed.

Lemma append_eq_length (a b x y : string) :
  String.length a = String.length b -> a +:+ x = b +:+ y -> a = b /\ x = y.
Proof.
  revert b. induction a as [|c a IH]; intros [|d b] Hl E; simpl in Hl; try discriminate.
  - auto.
  - simpl in E. injection E as -> E. injection Hl as Hl.
    destruct (IH b Hl E) as [-> ->]. auto.
Qed.

(** Two generated ids are the same only for the same position. *)
Lemma generated_id_inj (s1 s2 : string) (n1 n2 : nat) :
  s1 +:+ "_" +:+ Py.str_of_nat n1 = s2 +:+ "_" +:+ Py.str_of_nat n2 ->
  s1 = s2 /\ n1 = n2.
Proof.
  intros E.
  assert (Hr : forall s n, Py.rfind "_" (s +:+ "_" +:+ Py.str_of_nat n)
                           = Some (String.length s + 0)).
  { intros s n. apply rfind_append.
    change ("_" +:+ Py.str_of_nat n) with (String "_" (Py.str_of_nat n)).
    cbn [Py.rfind]. rewrite rfind_str_of_nat. reflexivity. }
  pose proof (Hr s1 n1) as H1. rewrite E, Hr in H1. injection H1 as H1.
  destruct (append_eq_length s1 s2 _ _ ltac:(lia) E) as [-> E'].
  split; [reflexivity|]. apply str_of_nat_inj.
  change (String "_" (Py.str_of_nat n1) = String "_" (Py.str_of_nat n2)) in E'.
  injection E' as E'. exact E'.
Qed.

(** A transition that keeps the length of the job list keeps the listed
    ids. *)
Lemma transition_keeps_ids cfg (o o' : Orchestrator (World := World)) :
  valid_refs o -> transition cfg o o' ->
  length (jobs o') = length (jobs o) ->
  listed_ids o' = listed_ids o.
Proof.
  intros Hv T Hlen.
  destruct (transition_ids _ _ _ Hv T) as [[k Hk]|[-> _]].
  - assert (Hl : length (listed_ids o') = length (listed_ids o)).
    { unfold listed_ids. rewrite !length_map. exact Hlen. }
    rewrite Hk in Hl |- *. rewrite length_app in Hl.
    destruct k; [apply app_nil_r|simpl in Hl; lia].
  - unfold listed_ids. simpl in *. destruct (jobs o); [reflexivity|discriminate].
Qed.

(** Every event that keeps the length of the job list leaves the listed
    ids as they are. *)
Lemma step_keeps_ids cfg (ev : Event) (o o' : Orchestrator (World := World)) :
  valid_refs o ->
  step cfg ev o = Some o' ->
  length (jobs o') = length (jobs o) ->
  valid_refs o' /\ listed_ids o' = listed_ids o.
Proof.
  intros Hv H Hlen.
  destruct (step_transitions cfg ev o o' H) as (om & T1 & T2 & Hj).
  pose proof (transition_valid _ _ _ Hv T1) as Hvm.
  split; [exact (transition_valid _ _ _ Hvm T2)|].
  rewrite (transition_keeps_ids _ _ _ Hvm T2) by (rewrite Hj; exact Hlen).
  apply (transition_keeps_ids _ _ _ Hv T1). rewrite Hj. reflexivity.
Qed.

Lemma step_jobs_length cfg (ev : Event) (o o' : Orchestrator (World := World)) :
  step cfg ev o = Some o' ->
  match ev with
  | EvAddJob a i ps id =>
      o' = o \/ exists l, add_job o a i ps id = (Returned l, o')
  | EvClearJobs => o' = clear_jobs o
  | _ => length (jobs o') = length (jobs o)
  end.
Proof.
  assert (Henter : forall o1 o2 : Orchestrator (World := World),
             enter_processing cfg o1 = Some o2 -> jobs o2 = jobs o1).
  { intros o1 o2. unfold enter_processing, begin_processing.
    destruct (executor o1); [discriminate|].
    destruct (jobs o1) eqn:Hj; [intros [= <-]; exact Hj|].
    destruct (jobs_to_process o1); [intros [= <-]; exact Hj|].
    destruct (max_concurrent_jobs cfg <=? 0)%Z; intros [= <-]; [exact Hj|reflexivity]. }
  destruct ev as [a i ps id| | |path| |ev|]; simpl; intros H.
  - destruct (executor o); [discriminate|]. injection H as <-.
    destruct (add_job o a i ps id) as [[l|x] o1] eqn:E; simpl.
    + right. exists l. reflexivity.
    + left. exact (add_job_raised_unchanged _ _ _ _ _ _ _ E).
  - rewrite (Henter _ _ H). reflexivity.
  - rewrite (Henter _ _ H). reflexivity.
  - destruct (executor o); [discriminate|]. injection H as <-.
    unfold export_job_report. destruct (do_mkdir _ _) as [[u|x] e1]; simpl;
      [destruct (do_write _ _ _) as [r2 e2]|]; reflexivity.
  - destruct (executor o); [discriminate|]. injection H as <-. reflexivity.
  - destruct (pool_step_frame cfg ev o o' (in_pool o) H (fun l Hl => Hl)) as (_ & _ & Hl & _).
    exact Hl.
  - unfold end_processing in H.
    destruct (executor o) as [[[|] [|] [|]]|]; try discriminate.
    injection H as <-. reflexivity.
Qed.

Lemma step_positional cfg (ev : Event) (o o' : Orchestrator (World := World)) :
  positional o -> generates_id ev = true -> step cfg ev o = Some o' -> positional o'.
Proof.
  intros [Hv Hpos] Hg H. pose proof (step_jobs_length cfg ev o o' H) as Hl.
  assert (Hsame : length (jobs o') = length (jobs o) -> positional o').
  { intros Hlen. destruct (step_keeps_ids cfg ev o o' Hv H Hlen) as [Hv' Hids].
    split; [exact Hv'|]. rewrite Hids. exact Hpos. }
  destruct ev as [a i ps [id|]| | |path| |ev|]; try discriminate; auto;
    [|subst o'; split; [constructor|intros k oid Hk; destruct k; discriminate]].
  destruct Hl as [->|[l Hadd]]; [split; assumption|].
  apply add_job_returned in Hadd as (-> & -> & _).
  assert (Hids : listed_ids
                   (mkOrch (heap o ++ [batch_job i ps (length (jobs o)) a])
                           (jobs o ++ [length (heap o)]) (env o) (executor o))
                 = listed_ids o ++ [Some (generated_id a (length (jobs o)))]).
  { unfold listed_ids. simpl. rewrite map_app. simpl. f_equal.
    - apply listed_ids_ext. intros l Hin. rewrite lookup_app_l; [reflexivity|].
      exact (proj1 (Forall_forall _ _) Hv l (proj2 (list_elem_of_In _ _) Hin)).
    - rewrite lookup_app_r by lia. rewrite Nat.sub_diag. reflexivity. }
  split.
  - unfold valid_refs. simpl. rewrite length_app. simpl. apply Forall_app. split.
    + eapply Forall_impl; [exact Hv|]. simpl. intros; lia.
    + constructor; [lia|constructor].
  - rewrite Hids. intros k oid Hk. apply lookup_app_Some in Hk as [Hk|[Hge Hk]].
    + exact (Hpos k oid Hk).
    + apply list_lookup_singleton_Some in Hk as [Hk <-].
      unfold listed_ids in Hge, Hk. rewrite length_map in Hge, Hk.
      assert (k = length (jobs o)) by lia. subst k.
      exists (Pathlib.stem a). reflexivity.
Qed.

(** X24. Generated ids never collide. As long as the client leaves the
    choice of every id to [add_job], the ids in the job list are pairwise
    different, whatever the audio files are called and whatever runs and
    retries happen in between: the id at position [k] of the list ends in
    an underscore and the decimal digits of [k]. *)
Theorem generated_ids_are_distinct cfg (w : World) (evs : list Event)
        (o : Orchestrator (World := World)) :
  steps cfg evs (new_orchestrator w) = Some o ->
  forallb generates_id evs = true ->
  NoDup (job_ids o)
  /\ forall k id, job_ids o !! k = Some id ->
                  exists s, id = s +:+ "_" +:+ Py.str_of_nat k.
Proof.
  intros Hsteps Hall.
  assert (Hpos : positional o).
  { assert (H0 : positional (new_orchestrator w)).
    { split; [constructor|]. intros k oid Hk. destruct k; discriminate. }
    revert Hsteps Hall H0. generalize (new_orchestrator w).
    induction evs as [|ev evs IH]; intros o0 Hsteps Hall H0; simpl in *.
    - injection Hsteps as <-. exact H0.
    - apply andb_true_iff in Hall as [Hev Hall].
      destruct (step cfg ev o0) as [o1|] eqn:E; [|discriminate].
      apply (IH o1 Hsteps Hall). exact (step_positional cfg ev o0 o1 H0 Hev E). }
  destruct Hpos as [Hv Hpos].
  assert (Hids : forall k id, job_ids o !! k = Some id ->
                              exists s, id = s +:+ "_" +:+ Py.str_of_nat k).
  { intros k id Hk. destruct (Hpos k (Some id)) as [s Hs].
    - rewrite (listed_ids_job_ids o Hv), list_lookup_fmap, Hk. reflexivity.
    - exists s. congruence. }
  split; [|exact Hids].
  apply NoDup_alt. intros i j id Hi Hj.
  destruct (Hids i id Hi) as [s1 H1]. destruct (Hids j id Hj) as [s2 H2].
  rewrite H1 in H2. apply generated_id_inj in H2 as [_ H2]. exact H2.
Qed.

(** X25. The report leaves the jobs alone. Exporting the report changes
    no job and not the job list, whatever it produces. When it raises,
    either creating the directory of the report raised and nothing was
    written, or the directory was created and writing the file raised; in
    both cases at most these two calls were made. *)
Theorem export_job_report_touches_no_job cfg (o : Orchestrator (World := World))
        (path : Path) (r : Outcome unit) (o' : Orchestrator (World := World)) :
  export_job_report cfg o path = (r, o') ->
  heap o' = heap o /\ jobs o' = jobs o /\ executor o' = executor o
  /\ match r with
     | Returned _ =>
         new_calls (env o) (env o')
         = [CallMkdir (Pathlib.parent path) (Returned tt);
            CallWrite path (report cfg o) (Returned tt)]
     | Raised x =>
         new_calls (env o) (env o') = [CallMkdir (Pathlib.parent path) (Raised x)]
         \/ new_calls (env o) (env o')
            = [CallMkdir (Pathlib.parent path) (Returned tt);
               CallWrite path (report cfg o) (Raised x)]
     end.
Proof.
  unfold export_job_report, do_mkdir, do_write, new_calls. intros H.
  destruct (mkdir (world (env o)) (Pathlib.parent path)) as [[[]|x] w1].
  - simpl in H. destruct (write_json w1 path (report cfg o)) as [[[]|x] w2];
      injection H as <- <-; simpl; rewrite <- app_assoc, drop_app_length; auto.
  - injection H as <- <-. simpl. rewrite drop_app_length. auto.
Qed.

End IdFacts.

(** * Properties of the [batch-process] command *)

Section CliFacts.

Context {World : Type} `{RT : Runtime World} `{FS : FileSystem World}
        `{FI : FileUtils.FileInfo World} `{LG : Logging World}.

Import Cli.

(** A constructed orchestrator is a new one. *)
Lemma new_workflow_orchestrator_returned cfg (w : World) o w' :
  new_workflow_orchestrator cfg w = (Returned o, w') -> o = new_orchestrator w'.
Proof.
  unfold new_workflow_orchestrator.
  destruct (make_directories w (startup_directories cfg)) as [[u|x] w1]; [|discriminate].
  destruct (log_file cfg) as [[|c s]|]; try (intros [= <- <-]; reflexivity).
  destruct (logger_add w1 (String c s)) as [[u'|x] w2]; [|discriminate].
  intros [= <- <-]. reflexivity.
Qed.

Lemma filter_length_zero {A : Type} (p : A -> bool) (ls : list A) :
  length (List.filter p ls) = 0 -> forall x, In x ls -> p x = false.
Proof.
  induction ls as [|y ls IH]; simpl; [intros _ x []|].
  destruct (p y) eqn:E; [discriminate|]. intros H x [<-|Hx]; auto.
Qed.

Lemma report_and_exit_zero cfg (o : Orchestrator (World := World)) h report_file :
  report_and_exit cfg o h report_file = Exit 0 -> failed h = 0.
Proof.
  unfold report_and_exit.
  assert (H : (if (0 <? failed h)%nat then Exit 1 else Exit 0) = Exit 0 -> failed h = 0).
  { destruct (0 <? failed h)%nat eqn:E; [discriminate|]. intros _.
    apply Nat.ltb_ge in E. lia. }
  destruct report_file as [[|c s]|]; auto.
  destruct (export_job_report _ _ _) as [[u|x] o1]; [exact H|discriminate].
Qed.

(** X26. Exit code zero. When [batch_process] ends with exit code 0, the
    image passed validation, [find_audio_files] found at least one valid
    file, the orchestrator was constructed, [add_batch_jobs] added one job
    for each path the glob yielded (validated or not), and
    [process_all_jobs] returned a summary that counts every one of these
    jobs as completed: at the end the job list holds exactly the jobs of
    the batch and each of them is completed. A failed job, like any
    exception, rules out exit code 0. *)
Theorem batch_process_exit_zero (w : World) (audio_dir image_file output_dir : Path)
        (platforms : list string) (audio_pattern : string) (max_jobs : Z)
        (resume : bool) (report_file : option string) (sched : list PoolEvent) :
  batch_process w audio_dir image_file output_dir platforms audio_pattern max_jobs
                resume report_file sched = Some (Exit 0) ->
  let cfg := batch_config output_dir max_jobs resume in
  FileUtils.validate_image_file w image_file = Returned true
  /\ (exists f files,
        FileUtils.find_audio_files w audio_dir (Some [audio_pattern])
        = Returned (f :: files))
  /\ exists w1 globbed o1 o2,
      create_workflow_orchestrator (Some cfg) w = (Returned (new_orchestrator w1), w1)
      /\ glob w1 audio_dir audio_pattern = Returned globbed
      /\ add_batch_jobs (new_orchestrator w1) audio_dir image_file platforms audio_pattern
         = (Returned (seq 0 (length globbed)), o1)
      /\ process_all_jobs cfg sched o1
         = Some (Returned (mkCounts 0 0 (length globbed) 0), o2)
      /\ length (jobs o2) = length globbed
      /\ Forall (fun l => job_status o2 l = Some Completed) (jobs o2).
Proof.
  intros H cfg. unfold batch_process in H. fold cfg in H.
  destruct (FileUtils.validate_image_file w image_file) as [[|]|x]; try discriminate.
  split; [reflexivity|].
  destruct (FileUtils.find_audio_files w audio_dir (Some [audio_pattern]))
    as [[|f files]|x]; try discriminate.
  split; [eauto|].
  destruct (create_workflow_orchestrator (Some cfg) w) as [[o|x] w1] eqn:Hc;
    [|discriminate].
  pose proof (new_workflow_orchestrator_returned _ _ _ _ Hc) as ->.
  destruct (add_batch_jobs (new_orchestrator w1) audio_dir image_file platforms
                           audio_pattern) as [[ls|x] o1] eqn:Ha; [|discriminate].
  destruct (process_all_jobs cfg sched o1) as [[[h|x] o2]|] eqn:Hp; try discriminate.
  injection H as H. apply report_and_exit_zero in H.
  destruct (add_batch_jobs_returned _ _ _ _ _ _ _ Ha)
    as (globbed & Hg & -> & Hj & Hh & He & Hex & _).
  simpl in Hg, Hj, Hh, He, Hex.
  assert (Hv : valid_refs o1).
  { unfold valid_refs. rewrite Hj, Hh, length_imap.
    apply Forall_forall. intros l Hl. apply list_elem_of_In, in_seq in Hl. lia. }
  assert (Hb : bounded cfg o1).
  { unfold bounded. rewrite Hex. intros l j Hl. rewrite Hh, list_lookup_imap in Hl.
    destruct (globbed !! l); [|discriminate]. injection Hl as <-. discriminate. }
  assert (Hpp : pool_progress o1) by (unfold pool_progress; rewrite Hex; exact I).
  destruct (process_all_jobs_settled cfg sched o1 h o2 Hv Hb Hpp Hp)
    as (H1 & H2 & H3 & Hall).
  destruct (process_all_jobs_untouched cfg sched o1 _ o2 Hp) as (_ & Hlen & _).
  rewrite Hj, length_seq in Hlen.
  exists w1, globbed, o1, o2.
  split; [reflexivity|]. split; [exact Hg|]. split; [exact Ha|].
  split; [|split; [exact Hlen|]].
  - rewrite Hp. destruct h as [hp hr hc hf]. simpl in H, H1, H2, H3.
    subst hp hr hf. rewrite Nat.add_0_r, Hlen in H3. subst hc. reflexivity.
  - destruct (process_all_jobs_returns _ _ _ _ _ Hp) as [_ ->].
    destruct (status_counts_count o2) as (_ & _ & _ & Hf). rewrite H in Hf.
    symmetry in Hf. unfold count_status in Hf.
    pose proof (filter_length_zero _ _ Hf) as Hnf.
    rewrite Forall_forall in Hall |- *. intros l Hl.
    destruct (Hall l Hl) as [Hc'|Hf']; [exact Hc'|].
    apply list_elem_of_In in Hl. specialize (Hnf l Hl).
    apply bool_decide_eq_false in Hnf. contradiction.
Qed.

End CliFacts.

(** * The further properties on concrete runs *)

Import Bench.

Lemma worker_exception_fails_job_witness :
  let m := mastered_audio_path default_config tiktok_job in
  let e := mkEnv (locked_lab [] [(m, name_too_long)]) [] in
  let r := _process_single_job default_config e tiktok_job in
  path_exists (world e) m = Raised name_too_long
  /\ status (fst r) = Failed
  /\ error_message (fst r) = Some "[Errno 36] File name too long"
  /\ output_files (fst r) = []
  /\ snd r = e.
Proof.
  intros m e r.
  assert (Hx : path_exists (world e) m = Raised name_too_long) by (vm_compute; reflexivity).
  split; [exact Hx|].
  destruct (worker_exception_fails_job default_config e tiktok_job (fst r) (snd r)
              (surjective_pairing r) (or_introl (ex_intro _ name_too_long Hx)))
    as (x & Hs & He & Ho & [(_ & Hsame & _)|([present Hp] & _)]).
  - split; [exact Hs|]. split; [vm_compute; reflexivity|]. split; [exact Ho|exact Hsame].
  - exfalso. vm_compute in Hp. discriminate.
Defined.

Lemma worker_calls_are_for_its_job_witness :
  let e := mkEnv (studio [] []) [] in
  let r := _process_single_job default_config e two_platform_job in
  length (new_calls e (snd r)) = 6
  /\ Forall (job_call default_config two_platform_job) (new_calls e (snd r)).
Proof.
  intros e r. split; [vm_compute; reflexivity|].
  exact (proj1 (worker_calls_are_for_its_job default_config e two_platform_job
                  (fst r) (snd r) (surjective_pairing r))).
Defined.

Lemma completed_job_outputs_witness :
  let e := mkEnv (studio [] []) [] in
  let r := _process_single_job default_config e two_platform_job in
  status (fst r) = Completed
  /\ existsb raised (new_calls e (snd r)) = false
  /\ exists v, dict_get "TikTok_9:16" (output_files (fst r)) = Some (Some v).
Proof.
  intros e r.
  assert (Hs : status (fst r) = Completed) by (vm_compute; reflexivity).
  destruct (completed_job_outputs default_config e two_platform_job (fst r) (snd r)
              (surjective_pairing r) Hs) as (Hn & _ & _ & Hall).
  split; [exact Hs|]. split; [exact Hn|].
  apply (Hall tiktok_config PORTRAIT). vm_compute. auto.
Defined.

Lemma status_counts_add_up_witness :
  let o := after default_config (studio [] []) one_done_one_new in
  valid_refs o
  /\ status_counts o = mkCounts 1 0 1 0
  /\ pending (status_counts o) + processing (status_counts o)
     + completed (status_counts o) + failed (status_counts o) = length (jobs o).
Proof.
  intros o.
  assert (Hv : valid_refs o) by (repeat constructor).
  split; [exact Hv|]. split; [vm_compute; reflexivity|].
  exact (proj1 (status_counts_add_up o Hv)).
Defined.

Lemma process_all_jobs_settles_every_job_witness :
  let o := after default_config (studio [true; false] [])
             [EvAddJob song cover ["youtube"] None;
              EvAddJob (Pathlib.of_string "cover.png") cover ["tiktok"] None] in
  reachable default_config o
  /\ exists h o',
      process_all_jobs default_config (sequential_schedule 2) o = Some (Returned h, o')
      /\ h = mkCounts 0 0 1 1
      /\ pending h = 0 /\ processing h = 0
      /\ completed h + failed h = length (jobs o').
Proof.
  intros o.
  assert (Hr : reachable default_config o)
    by (apply after_reachable; vm_compute; discriminate).
  split; [exact Hr|].
  destruct (process_all_jobs default_config (sequential_schedule 2) o)
    as [[[h|x] o']|] eqn:E;
    [|vm_compute in E; discriminate|vm_compute in E; discriminate].
  exists h, o'. split; [reflexivity|].
  split; [vm_compute in E; congruence|].
  destruct (reachable_idle default_config o Hr eq_refl) as [Hv Hnp].
  destruct (process_all_jobs_settles_every_job default_config _ o h o' Hv Hnp E)
    as (H1 & H2 & H3 & _).
  auto.
Defined.

Lemma process_all_jobs_frame_witness :
  let o := after default_config (studio [] [])
             [EvAddJob song cover ["tiktok"] (Some "x");
              EvAddJob song cover ["tiktok"] (Some "x")] in
  jobs o = [0; 1]
  /\ exists r o',
      process_all_jobs default_config
                       [Start; Start; Finish 0; Finish 0; Collect 0; Collect 0] o
      = Some (r, o')
      /\ jobs o' = [1; 1]
      /\ length (jobs o') = length (jobs o)
      /\ (forall l, In l (jobs o') -> In l (jobs o))
      /\ heap o' !! 2 = heap o !! 2.
Proof.
  intros o. split; [reflexivity|].
  destruct (process_all_jobs default_config
              [Start; Start; Finish 0; Finish 0; Collect 0; Collect 0] o)
    as [[r o']|] eqn:E; [|vm_compute in E; discriminate].
  exists r, o'. split; [reflexivity|].
  split; [vm_compute in E; injection E as _ <-; reflexivity|].
  destruct (process_all_jobs_frame default_config _ o r o' E) as (H1 & H2 & H3 & _).
  split; [exact H2|]. split; [exact H3|].
  apply H1. vm_compute. intros [H|[H|[]]]; discriminate.
Defined.

Lemma process_all_jobs_keeps_job_ids_witness :
  let o := after default_config (studio [false] []) same_id in
  valid_refs o
  /\ job_ids o = ["x"; "x"]
  /\ exists r o',
      process_all_jobs default_config (sequential_schedule 2) o = Some (r, o')
      /\ job_ids o' = ["x"; "x"].
Proof.
  intros o.
  assert (Hv : valid_refs o) by (repeat constructor).
  assert (Hi : job_ids o = ["x"; "x"]) by (vm_compute; reflexivity).
  split; [exact Hv|]. split; [exact Hi|].
  destruct (process_all_jobs default_config (sequential_schedule 2) o)
    as [[r o']|] eqn:E; [|vm_compute in E; discriminate].
  exists r, o'. split; [reflexivity|].
  rewrite <- Hi.
  exact (proj2 (process_all_jobs_keeps_job_ids default_config _ o r o' Hv E)).
Defined.

Lemma nonpositive_pool_size_witness :
  let o := after no_workers (studio [] []) [EvAddJob song cover ["youtube"] None] in
  (max_concurrent_jobs no_workers <= 0)%Z
  /\ executor o = None
  /\ process_all_jobs no_workers [] o
     = Some (Raised (ValueError "max_workers must be greater than 0"), o).
Proof.
  intros o.
  assert (Hm : (max_concurrent_jobs no_workers <= 0)%Z) by (vm_compute; discriminate).
  assert (He : executor o = None) by reflexivity.
  split; [exact Hm|]. split; [exact He|].
  exact (proj1 (nonpositive_pool_size no_workers o Hm He)).
Defined.

Lemma rendition_has_resolution_witness :
  In (twitter_config, LANDSCAPE)
     (renditions (mkJob "a_0" song cover ["twitter"] Pending [] None))
  /\ recommended_resolution twitter_config LANDSCAPE = Some (mkResolution 1280 720).
Proof.
  assert (Hin : In (twitter_config, LANDSCAPE)
                   (renditions (mkJob "a_0" song cover ["twitter"] Pending [] None)))
    by (vm_compute; auto).
  split; [exact Hin|].
  destruct (rendition_has_resolution _ _ _ Hin) as (r & Hr & _).
  rewrite Hr. vm_compute in Hr. symmetry. exact Hr.
Defined.

Lemma job_renditions_have_distinct_paths_witness :
  let r1 := (youtube_config, LANDSCAPE) in
  let r2 := (youtube_config, PORTRAIT) in
  no_slash (job_id two_platform_job) = true
  /\ In r1 (renditions two_platform_job) /\ In r2 (renditions two_platform_job)
  /\ rendition_path default_config (video_output_dir default_config two_platform_job)
                    "song_0" youtube_config LANDSCAPE
     <> rendition_path default_config (video_output_dir default_config two_platform_job)
                       "song_0" youtube_config PORTRAIT.
Proof.
  intros r1 r2.
  assert (H1 : In r1 (renditions two_platform_job)) by (vm_compute; auto).
  assert (H2 : In r2 (renditions two_platform_job)) by (vm_compute; auto).
  split; [reflexivity|]. split; [exact H1|]. split; [exact H2|].
  intros E.
  destruct (job_renditions_have_distinct_paths default_config two_platform_job r1 r2
              eq_refl eq_refl H1 H2) as [Hinj _].
  specialize (Hinj E). discriminate.
Defined.

Lemma get_job_status_first_match_witness :
  let o := after default_config (studio [] []) same_id in
  valid_refs o
  /\ jobs o = [0; 1]
  /\ get_job_status o "x" = Some 0
  /\ get_job_status o "song_0" = None
  /\ ~ In "song_0" (job_ids o).
Proof.
  intros o.
  assert (Hv : valid_refs o) by (repeat constructor).
  split; [exact Hv|]. split; [reflexivity|]. split; [vm_compute; reflexivity|].
  assert (Hn : get_job_status o "song_0" = None) by (vm_compute; reflexivity).
  split; [exact Hn|].
  pose proof (get_job_status_first_match o "song_0" Hv) as H. rewrite Hn in H. exact H.
Defined.

Lemma added_job_found_unless_id_taken_witness :
  let o := after default_config (studio [] []) [EvAddJob song cover ["tiktok"] (Some "x")] in
  let r := add_job o song cover ["youtube"] (Some "x") in
  valid_refs o
  /\ fst r = Returned 1
  /\ get_job_status (snd r) "x" = Some 0.
Proof.
  intros o r.
  assert (Hv : valid_refs o) by (repeat constructor).
  assert (Hr : r = (Returned 1, snd r)) by (vm_compute; reflexivity).
  split; [exact Hv|]. split; [vm_compute; reflexivity|].
  destruct (added_job_found_unless_id_taken o song cover ["youtube"] (Some "x") 1 (snd r)
              Hv Hr) as (job & Hl & Hfind & _).
  assert (Hid : job_id job = "x") by (vm_compute in Hl; injection Hl as <-; reflexivity).
  rewrite Hid in Hfind. rewrite Hfind. vm_compute. reflexivity.
Defined.

Lemma clear_jobs_restarts_numbering_witness :
  let o := after default_config (studio [] []) two_jobs in
  let r := add_job (clear_jobs o) song cover ["twitter"] None in
  executor o = None
  /\ job_ids o = ["song_0"; "song_1"]
  /\ fst r = Returned 2
  /\ jobs (snd r) = [2]
  /\ job_ids (snd r) = ["song_0"].
Proof.
  intros o r.
  assert (He : executor o = None) by reflexivity.
  assert (Hr : r = (Returned 2, snd r)) by (vm_compute; reflexivity).
  split; [exact He|]. split; [vm_compute; reflexivity|]. split; [vm_compute; reflexivity|].
  destruct (clear_jobs_restarts_numbering default_config o song cover ["twitter"] 2 (snd r)
              He Hr) as (_ & _ & _ & Hj & _).
  split; [exact Hj|]. vm_compute. reflexivity.
Defined.

Lemma add_batch_jobs_adds_every_match_witness :
  let o := new_orchestrator (lab [song; tune] [] []) in
  let r := add_batch_jobs o music cover ["YouTube"] "*.wav" in
  fst r = Returned [0; 1]
  /\ jobs (snd r) = [0; 1]
  /\ heap (snd r) = [batch_job cover ["YouTube"] 0 song; batch_job cover ["YouTube"] 1 tune]
  /\ job_ids (snd r) = ["song_0"; "tune_1"].
Proof.
  intros o r.
  assert (Hr : r = (Returned [0; 1], snd r)) by (vm_compute; reflexivity).
  split; [vm_compute; reflexivity|].
  destruct (add_batch_jobs_adds_every_match o music cover ["YouTube"] "*.wav" _ (snd r) Hr)
    as (files & Hg & _ & Hj & Hh & _).
  injection Hg as <-.
  split; [exact Hj|]. split; [exact Hh|]. vm_compute. reflexivity.
Defined.

Lemma add_batch_jobs_keeps_jobs_added_before_failure_witness :
  let o := new_orchestrator (lab [song; tune; ghost] [] []) in
  let r := add_batch_jobs o music cover ["YouTube"] "*.wav" in
  fst r = Raised (FileNotFoundError "Audio file not found: music/ghost.wav")
  /\ jobs o = []
  /\ jobs (snd r) = [0; 1].
Proof.
  intros o r.
  assert (Hr : r = (Raised (FileNotFoundError "Audio file not found: music/ghost.wav"),
                    snd r)) by (vm_compute; reflexivity).
  split; [vm_compute; reflexivity|]. split; [reflexivity|].
  destruct (add_batch_jobs_keeps_jobs_added_before_failure o music cover ["YouTube"] "*.wav"
              _ (snd r) Hr) as [Ho|(files & n & f & Hg & Hn & Hf & Hd & Hj & _)].
  - vm_compute in Ho. discriminate.
  - injection Hg as <-. rewrite Hj.
    destruct n as [|[|[|n]]]; [lia| |reflexivity|].
    + vm_compute in Hf. injection Hf as <-.
      destruct Hd as [[Hd _]|Hd]; vm_compute in Hd; discriminate.
    + destruct n; discriminate.
Defined.

Lemma batch_master_directory_returns_outputs_witness :
  let w := lab [song; tune; ghost] [] [Returned 1%Z] in
  let m := Mastering.new w Audio.default in
  let r := Mastering.batch_master_directory m w music (Pathlib.of_string "out") "*.wav" in
  Mastering.ozone_path m = None
  /\ fst r = Returned [Pathlib.of_string "out/tune_mastered.wav"]
  /\ forall outs, fst r = Returned outs -> length outs <= 3.
Proof.
  intros w m r. split; [reflexivity|]. split; [vm_compute; reflexivity|].
  intros outs Ho.
  assert (H : r = (Returned outs, snd r)) by (rewrite <- Ho; apply surjective_pairing).
  destruct (batch_master_directory_returns_outputs m w music
              (Pathlib.of_string "out") "*.wav" outs (snd r) H)
    as [(Hc & _)|(_ & u & w1 & files & Hmk & Hg & _ & Hl)].
  - vm_compute in Hc. discriminate.
  - assert (Hw1 : w1 = w) by (vm_compute in Hmk; injection Hmk as _ <-; reflexivity).
    subst w1. injection Hg as <-. exact Hl.
Defined.

Lemma create_video_rejects_without_effect_witness :
  let w := lab [] [] [] in
  let locked := locked_lab [] [(cover, name_too_long)] in
  let out := Pathlib.of_string "out/v.mp4" in
  Generation.create_video Video.default w ghost song out tiktok_config None
  = (Returned false, w)
  /\ Generation.create_video Video.default w cover ghost out tiktok_config None
     = (Returned false, w)
  /\ Generation.create_video Video.default w cover song out tiktok_config (Some LANDSCAPE)
     = (Returned false, w)
  /\ Generation.create_video Video.default locked cover song out tiktok_config None
     = (Raised name_too_long, locked).
Proof.
  intros w locked out. split; [|split; [|split]].
  - apply create_video_rejects_without_effect. left. vm_compute. reflexivity.
  - apply create_video_rejects_without_effect. right. left.
    split; vm_compute; reflexivity.
  - apply create_video_rejects_without_effect. right. right.
    split; [vm_compute; reflexivity|]. split; [vm_compute; reflexivity|].
    exists LANDSCAPE. split; [reflexivity|]. intros [H|[]]. discriminate.
  - apply create_video_rejects_without_effect. left. vm_compute. reflexivity.
Defined.

Lemma find_audio_files_returns_valid_files_witness :
  let w := lab [song; notes_txt; tune; ghost] [] [] in
  FileUtils.find_audio_files w music (Some ["*"]) = Returned [song; tune]
  /\ Forall (fun p => path_exists w p = Returned true) [song; tune].
Proof.
  intros w.
  assert (Hf : FileUtils.find_audio_files w music (Some ["*"]) = Returned [song; tune])
    by (vm_compute; reflexivity).
  split; [exact Hf|].
  destruct (find_audio_files_returns_valid_files w music _ _ Hf) as [Hall _].
  eapply Forall_impl; [exact Hall|]. intros p (_ & Hp & _). exact Hp.
Defined.

Lemma clean_filename_keeps_clean_names_witness :
  FileUtils.clean "my_song.v2" = true
  /\ FileUtils.clean_filename "my_song.v2" = "my_song.v2"
  /\ FileUtils.clean_filename "..a/b__c?.wav_" = "a_b_c_.wav".
Proof.
  split; [reflexivity|]. split; [|reflexivity].
  apply clean_filename_keeps_clean_names. reflexivity.
Defined.

Lemma generated_ids_are_distinct_witness :
  let evs := two_jobs ++ EvProcessAllJobs :: map EvPool (sequential_schedule 2)
             ++ [EvReturn; EvAddJob cover cover ["tiktok"] None] in
  forallb generates_id evs = true
  /\ exists o, steps default_config evs (new_orchestrator (studio [] [])) = Some o
               /\ job_ids o = ["song_0"; "song_1"; "cover_2"]
               /\ NoDup (job_ids o).
Proof.
  intros evs.
  assert (Hg : forallb generates_id evs = true) by reflexivity.
  split; [exact Hg|].
  destruct (steps default_config evs (new_orchestrator (studio [] []))) as [o|] eqn:E;
    [|vm_compute in E; discriminate].
  exists o. split; [reflexivity|].
  split; [vm_compute in E; injection E as <-; reflexivity|].
  exact (proj1 (generated_ids_are_distinct default_config _ evs o E Hg)).
Defined.

Lemma export_job_report_touches_no_job_witness :
  let o := new_orchestrator (lab [] [denied] []) in
  let r := export_job_report default_config o (Pathlib.of_string "out/report.json") in
  fst r = Raised (OtherError "[Errno 13] Permission denied")
  /\ new_calls (env o) (env (snd r))
     = [CallMkdir (Pathlib.of_string "out")
                  (Raised (OtherError "[Errno 13] Permission denied"))].
Proof.
  intros o r.
  assert (Hr : r = (Raised (OtherError "[Errno 13] Permission denied"), snd r))
    by (vm_compute; reflexivity).
  split; [vm_compute; reflexivity|].
  destruct (export_job_report_touches_no_job default_config o _ _ (snd r) Hr)
    as (_ & _ & _ & [H|H]); [exact H|].
  exfalso. vm_compute in H. discriminate.
Defined.

Lemma batch_process_exit_zero_witness :
  let w := lab [song; tune] [] [] in
  Cli.batch_process w music cover (Pathlib.of_string "out") ["youtube"] "*.wav" 2 true
                    (Some "out/report.json") (sequential_schedule 2)
  = Some (Cli.Exit 0)
  /\ FileUtils.validate_image_file w cover = Returned true
  /\ Cli.batch_process w music cover (Pathlib.of_string "out") ["youtube"] "*.wav" 2 true
                       None [Start; Start; Finish 1; Finish 0; Collect 1; Collect 0]
     = Some (Cli.Exit 0).
Proof.
  intros w.
  assert (H : Cli.batch_process w music cover (Pathlib.of_string "out") ["youtube"] "*.wav"
                                2 true (Some "out/report.json") (sequential_schedule 2)
              = Some (Cli.Exit 0)) by (vm_compute; reflexivity).
  split; [exact H|]. split; [|vm_compute; reflexivity].
  exact (proj1 (batch_process_exit_zero w music cover (Pathlib.of_string "out") ["youtube"]
                  "*.wav" 2 true (Some "out/report.json") (sequential_schedule 2) H)).
Defined.
